(** * fiddle: overlap partitioning, intersection predicates and the
      interaction pipeline

    A shallow embedding of the parts of fiddle (namespace [fdl]) that decide
    cell membership, look up native cells, register DoF handlers and drive
    the three-phase projection transaction, together with the [Part] and
    [FiberNetwork] accessors.

    Conventions of the embedding.
    - [double] and [float] coordinates and vector entries are rationals
      ([Q]) where the source only stores and compares them: the comparisons
      of the source are the exact ones of [Q]. Where the source computes
      with them, in the barycenter check of [get_native_cell], they are
      binary64 numbers (the primitive [float]) and every operation rounds
      as IEEE 754 prescribes.
    - An object that the source names through a pointer or a reference is
      named here by its address, a [nat].
    - A call that can fail returns an [outcome]: [Ret] for a normal return,
      [Abort] for a failed deal.II [Assert] (debug builds only), [Throw] for
      a failed [AssertThrow] (every build), [Undefined] for a behaviour that
      C++ leaves undefined (an out-of-range [operator[]], a null
      dereference).
    - [debug] says whether the translation unit is compiled with [DEBUG]:
      deal.II's [Assert] and [AssertIndexRange] expand to nothing when it is
      not, and the [#ifdef DEBUG] blocks of the source disappear. *)

From Stdlib Require Import List Bool Arith ZArith QArith Lia Lqa String.
From Stdlib Require Import Permutation.
From Stdlib Require Import PrimFloat SpecFloat FloatOps.
Import ListNotations.

Close Scope Q_scope.
Set Implicit Arguments.

(* ===================================================================== *)
(** ** Outcomes of a call                                                *)
(* ===================================================================== *)

Module Exc.

Inductive exception : Type :=
| ExcMessage (msg : string)
| ExcNotImplemented
| ExcInternalError
| ExcFDLInternalError
| ExcIndexRange.

Inductive outcome (A : Type) : Type :=
| Ret (a : A)
| Abort (e : exception)
| Throw (e : exception)
| Undefined.

Arguments Ret {A} a.
Arguments Abort {A} e.
Arguments Throw {A} e.
Arguments Undefined {A}.

Definition bind {A B : Type} (m : outcome A) (k : A -> outcome B) : outcome B :=
  match m with
  | Ret a => k a
  | Abort e => Abort e
  | Throw e => Throw e
  | Undefined => Undefined
  end.

(** [Assert(cond, exc)]: checked in debug builds, absent otherwise. *)
Definition Assert (debug : bool) (cond : bool) (e : exception) : outcome unit :=
  if debug then (if cond then Ret tt else Abort e) else Ret tt.

(** [AssertIndexRange(i, n)]: an [Assert] that [i < n]. *)
Definition AssertIndexRange (debug : bool) (i n : nat) : outcome unit :=
  Assert debug (i <? n) ExcIndexRange.

(** [AssertThrow(cond, exc)]: checked in every build, throws. *)
Definition AssertThrow (cond : bool) (e : exception) : outcome unit :=
  if cond then Ret tt else Throw e.

(** A call is fatal when the program is aborted by a failed assertion. *)
Definition fatal {A : Type} (m : outcome A) : Prop :=
  exists e, m = Abort e.

Definition returns {A : Type} (m : outcome A) : Prop :=
  exists a, m = Ret a.

End Exc.

Import Exc.

Declare Scope outcome_scope.
Delimit Scope outcome_scope with outcome.
Notation "x <- m ;; k" := (bind m (fun x => k))
  (at level 61, m at next level, right associativity) : outcome_scope.
Notation "m ;;; k" := (bind m (fun _ => k))
  (at level 61, right associativity) : outcome_scope.
Local Open Scope outcome_scope.

(* ===================================================================== *)
(** ** Bounding boxes and the [intersects] test                          *)
(* ===================================================================== *)

Module Geometry.

(** [Point<spacedim>]: the coordinates, axis 0 first. *)
Definition Point : Type := list Q.

Definition coordinate (p : Point) (d : nat) : Q := nth d p 0%Q.

(** [BoundingBox<spacedim, Number>]: the pair (bottom left, top right). *)
Record BoundingBox : Type := mkBoundingBox {
  boundary_points : Point * Point
}.

Definition lower_bound (b : BoundingBox) (d : nat) : Q :=
  coordinate (fst (boundary_points b)) d.

Definition upper_bound (b : BoundingBox) (d : nat) : Q :=
  coordinate (snd (boundary_points b)) d.

(** The test made by the body of the loop of [intersects] on axis [d]:
    [true] when the function does NOT return false on that axis. *)
Definition axis_check (a b : BoundingBox) (d : nat) : bool :=
  negb
    (negb ((Qle_bool (lower_bound a d) (lower_bound b d) &&
            Qle_bool (lower_bound b d) (upper_bound a d)) ||
           (Qle_bool (lower_bound a d) (upper_bound b d) &&
            Qle_bool (upper_bound b d) (upper_bound a d))) &&
     negb (Qle_bool (lower_bound b d) (lower_bound a d) &&
           Qle_bool (lower_bound a d) (upper_bound b d))).

(** [for (unsigned int d = 0; d < spacedim; ++d)], with [n] the number of
    iterations still to run. *)
Fixpoint intersects_loop (a b : BoundingBox) (d n : nat) : bool :=
  match n with
  | O => true
  | S n' => if axis_check a b d then intersects_loop a b (S d) n' else false
  end.

Definition intersects (spacedim : nat) (a b : BoundingBox) : bool :=
  intersects_loop a b 0 spacedim.

(** The constructor of [BoundingBox] requires the points in the order
    bottom left, top right. *)
Definition well_formed (spacedim : nat) (b : BoundingBox) : Prop :=
  forall d, (d < spacedim)%nat -> (lower_bound b d <= upper_bound b d)%Q.

(** Membership of a value in a closed interval. *)
Definition within (x lo hi : Q) : Prop := (lo <= x)%Q /\ (x <= hi)%Q.

(** The characterisation of the specification, word for word: EACH
    interval's lower bound lies within the other's closed interval. *)
Definition spec_axis_each (a b : BoundingBox) (d : nat) : Prop :=
  within (lower_bound a d) (lower_bound b d) (upper_bound b d) /\
  within (lower_bound b d) (lower_bound a d) (upper_bound a d).

(** The characterisation that the code implements on well-formed boxes: AT
    LEAST ONE interval's lower bound lies within the other's closed
    interval. *)
Definition axis_some (a b : BoundingBox) (d : nat) : Prop :=
  within (lower_bound a d) (lower_bound b d) (upper_bound b d) \/
  within (lower_bound b d) (lower_bound a d) (upper_bound a d).

(** The three disjuncts of the source, as propositions. *)
Definition axis_disjuncts (a b : BoundingBox) (d : nat) : Prop :=
  within (lower_bound b d) (lower_bound a d) (upper_bound a d) \/
  within (upper_bound b d) (lower_bound a d) (upper_bound a d) \/
  within (lower_bound a d) (lower_bound b d) (upper_bound b d).

(** The closed intervals of the two boxes share a point on axis [d]. *)
Definition axis_overlap (a b : BoundingBox) (d : nat) : Prop :=
  (lower_bound a d <= upper_bound b d)%Q /\
  (lower_bound b d <= upper_bound a d)%Q.

(** The boxes of the examples: the unit cube, and the unit cube translated
    by [t] along axis 0; a small cube nested in the unit cube. *)
Definition unit_cube : BoundingBox :=
  mkBoundingBox ([0; 0; 0], [1; 1; 1])%Q.

Definition unit_cube_translated (t : Q) : BoundingBox :=
  mkBoundingBox ([t; 0; 0], [t + 1; 1; 1])%Q.

Definition nested_cube : BoundingBox :=
  mkBoundingBox ([1 # 4; 1 # 4; 1 # 4], [3 # 4; 3 # 4; 3 # 4])%Q.

End Geometry.

(* ===================================================================== *)
(** ** Cells and the intersection predicates                             *)
(* ===================================================================== *)

Module Predicates.

Import Geometry.

(** What a [cell_iterator] gives access to: the triangulation the cell
    belongs to, whether it is active, its active cell index, its bounding
    box (from its vertices) and its children. *)
#[warnings="-register-all"]
Inductive cell : Type :=
| mk_cell (triangulation : nat) (active : bool) (active_index : nat)
          (bbox : BoundingBox) (child_cells : list cell).

Definition get_triangulation (c : cell) : nat :=
  match c with mk_cell t _ _ _ _ => t end.

Definition is_active (c : cell) : bool :=
  match c with mk_cell _ a _ _ _ => a end.

Definition active_cell_index (c : cell) : nat :=
  match c with mk_cell _ _ i _ _ => i end.

Definition bounding_box (c : cell) : BoundingBox :=
  match c with mk_cell _ _ _ b _ => b end.

Definition children (c : cell) : list cell :=
  match c with mk_cell _ _ _ _ cs => cs end.

Definition n_children (c : cell) : nat := List.length (children c).


(** [for (const auto &bbox : bboxes) if (intersects(cell_bbox, bbox))
    return true; return false;] *)
Fixpoint any_intersects (spacedim : nat) (cell_bbox : BoundingBox)
         (bboxes : list BoundingBox) : bool :=
  match bboxes with
  | [] => false
  | bbox :: rest =>
      if intersects spacedim cell_bbox bbox then true
      else any_intersects spacedim cell_bbox rest
  end.

Record TriaIntersectionPredicate : Type := mkTriaIntersectionPredicate {
  bounding_boxes : list BoundingBox
}.

(** [TriaIntersectionPredicate::operator()]. *)
Definition TriaIntersectionPredicate_call (spacedim : nat)
           (p : TriaIntersectionPredicate) (c : cell) : bool :=
  let cell_bbox := bounding_box c in
  any_intersects spacedim cell_bbox (bounding_boxes p).

Record FEIntersectionPredicate : Type := mkFEIntersectionPredicate {
  tria : nat;
  patch_bboxes : list BoundingBox;
  active_cell_bboxes : list BoundingBox
}.

(** The loop over [child_n] of [FEIntersectionPredicate::operator()]:
    [self] is the recursive call [( *this)(cell->child(child_n))], and the
    loop stops at the first intersecting child. *)
Fixpoint child_loop (self : cell -> outcome bool) (rest : list cell)
  : outcome bool :=
  match rest with
  | [] => Ret false
  | child :: rest' =>
      child_intersects <- self child ;;
      if child_intersects then Ret true else child_loop self rest'
  end.

(** [FEIntersectionPredicate::operator()]. *)
Fixpoint FEIntersectionPredicate_call (debug : bool) (spacedim : nat)
         (p : FEIntersectionPredicate) (c : cell) : outcome bool :=
  match c with
  | mk_cell t active idx _ cs =>
      Assert debug (t =? tria p)%nat
        (ExcMessage "only valid for inputs constructed from the originally provided Triangulation") ;;;
      if active then
        match nth_error (active_cell_bboxes p) idx with
        | Some cell_bbox =>
            Ret (any_intersects spacedim cell_bbox (patch_bboxes p))
        | None => Undefined
        end
      else if (match cs with [] => false | _ :: _ => true end) then
        child_loop (FEIntersectionPredicate_call debug spacedim p) cs
      else
        Assert debug false ExcNotImplemented ;;;
        Assert debug false ExcFDLInternalError ;;;
        Ret false
  end.

(** The active cells that the recursion can reach from [c]: [c] itself when
    it is active, otherwise those reached from one of its children. *)
Inductive active_descendant : cell -> cell -> Prop :=
| descendant_here c : is_active c = true -> active_descendant c c
| descendant_below c child d :
    is_active c = false -> In child (children c) ->
    active_descendant child d -> active_descendant c d.

(** The shape deal.II guarantees for the cells of the triangulation the
    predicate was built from: the cell belongs to that triangulation, an
    active cell has a bounding box in the table, and a cell that is not
    active has children, which are of the same shape. *)
#[warnings="-register-all"]
Inductive cell_ok (p : FEIntersectionPredicate) : cell -> Prop :=
| cell_ok_active t idx b cs :
    t = tria p -> (idx < List.length (active_cell_bboxes p))%nat ->
    cell_ok p (mk_cell t true idx b cs)
| cell_ok_refined t idx b cs :
    t = tria p -> cs <> [] -> Forall (cell_ok p) cs ->
    cell_ok p (mk_cell t false idx b cs).

(** An active cell intersects a candidate patch box. *)
Definition active_cell_intersects (spacedim : nat)
           (p : FEIntersectionPredicate) (d : cell) : Prop :=
  exists cell_bbox bbox,
    nth_error (active_cell_bboxes p) (active_cell_index d) = Some cell_bbox /\
    In bbox (patch_bboxes p) /\
    intersects spacedim cell_bbox bbox = true.

(** The cells of the examples. *)
Definition unit_cell : cell := mk_cell 0 true 0 unit_cube [].
Definition nested_cell : cell := mk_cell 0 true 0 nested_cube [].

(** A predicate with one patch box, two units away from the unit cube, and
    two active cells: the unit cube and its translate by three halves. *)
Definition example_predicate : FEIntersectionPredicate :=
  mkFEIntersectionPredicate 0 [unit_cube_translated 2]
    [unit_cube; unit_cube_translated (3 # 2)].

(** A refined cell with these two active children, and a cell that is
    neither active nor refined. *)
Definition refined_cell : cell :=
  mk_cell 0 false 0 unit_cube
    [mk_cell 0 true 0 unit_cube [];
     mk_cell 0 true 1 (unit_cube_translated (3 # 2)) []].

Definition childless_cell : cell := mk_cell 0 false 0 unit_cube [].

(** Induction on a cell with the hypothesis available for all children. *)
Fixpoint cell_children_ind (P : cell -> Prop)
  (step : forall t a i b cs, Forall P cs -> P (mk_cell t a i b cs))
  (c : cell) {struct c} : P c :=
  match c with
  | mk_cell t a i b cs =>
      step t a i b cs
        ((fix all (l : list cell) : Forall P l :=
            match l with
            | [] => Forall_nil P
            | x :: r => Forall_cons x (@cell_children_ind P step x) (all r)
            end) cs)
  end.

End Predicates.

(* ===================================================================== *)
(** ** Triangulations and the overlap triangulation                      *)
(* ===================================================================== *)

Module Mesh.

Import Geometry.

Definition address : Type := nat.
Definition MPI_Comm : Type := nat.
Definition MPI_COMM_NULL : MPI_Comm := 0%nat.

(** The data [get_native_cell] and [InteractionBase::reinit] read through a
    cell accessor. The barycenter is a [Point<spacedim>] of [double]s. *)
Record cell_data : Type := mk_cell_data {
  level : Z;
  index : Z;
  user_index : nat;
  barycenter : list float;
  cell_is_active : bool;
  cell_active_cell_index : nat;
  is_locally_owned : bool
}.

(** A triangulation: its communicator and its cells. *)
Record Triangulation : Type := mkTriangulation {
  get_communicator : MPI_Comm;
  cells : list cell_data
}.

(** A [cell_iterator] is built from a triangulation, a level and an index;
    the triangulation is known from the context. *)
Definition cell_iterator : Type := (Z * Z)%type.

(** Dereferencing an iterator: the cell at that level and index, if any. *)
Definition dereference (t : Triangulation) (it : cell_iterator)
  : option cell_data :=
  find (fun c => (level c =? fst it)%Z && (index c =? snd it)%Z) (cells t).

Definition active_cell_iterators (t : Triangulation) : list cell_iterator :=
  map (fun c => (level c, index c)) (filter cell_is_active (cells t)).

Definition n_active_cells (t : Triangulation) : nat :=
  List.length (active_cell_iterators t).

Definition n_locally_owned_active_cells (t : Triangulation) : nat :=
  List.length
    (filter (fun c => cell_is_active c && is_locally_owned c) (cells t)).

End Mesh.

Module Overlap.

Import Geometry Mesh.

(** [OverlapTriangulation]: a triangulation of its own (the base class),
    the native triangulation its [SmartPointer] designates at the time of
    the call, and the level and index pairs of the native cells. *)
Record OverlapTriangulation : Type := mkOverlapTriangulation {
  base : Triangulation;
  native_tria : Triangulation;
  native_cells : list (Z * Z)
}.

(** Coordinate [d] of a point of [double]s. *)
Definition component (p : list float) (d : nat) : float := nth d p 0%float.

(** [Point - Point], a [Tensor<1, spacedim>]: the differences of the
    coordinates, each rounded to binary64. *)
Definition point_difference (spacedim : nat) (p q : list float)
  : list float :=
  map (fun d => (component p d - component q d)%float) (seq 0 spacedim).

(** [Tensor<1, spacedim>::norm_square()] of deal.II: the squares of the
    components added up from component 0 on, every product and every sum
    rounded. (Starting the sum at zero or at the first square gives the
    same binary64 number.) *)
Definition norm_square (t : list float) : float :=
  fold_left (fun s x => (s + x * x)%float) t 0%float.

(** [Tensor<1, spacedim>::norm()]: [std::sqrt(norm_square())]. *)
Definition norm (t : list float) : float := PrimFloat.sqrt (norm_square t).

(** The literal [1e-12] of the assertion: the binary64 number nearest to
    10^-12, which is 4951760157141521 * 2^-92 and lies below 10^-12. *)
Definition tolerance : float := 0x1.19799812dea11p-40%float.

(** [x < y] on rationals. *)
Definition Qlt_bool (x y : Q) : bool := negb (Qle_bool y x).

(** The condition of the assertion of [get_native_cell],
    [(native_cell->barycenter() - cell->barycenter()).norm() < 1e-12];
    evaluating it dereferences both iterators. A comparison with a NaN is
    false. *)
Definition barycenters_agree (spacedim : nat) (native_cell cell : cell_data)
  : bool :=
  (norm (point_difference spacedim (barycenter native_cell) (barycenter cell))
   <? tolerance)%float.

(** [OverlapTriangulation::get_native_cell]. In a build without assertions
    neither the index nor the barycenters are looked at; the iterator is
    built from the stored pair and returned. *)
Definition get_native_cell (debug : bool) (spacedim : nat)
           (this : OverlapTriangulation) (cell : cell_iterator)
  : outcome cell_iterator :=
  match dereference (base this) cell with
  | None => Undefined
  | Some c =>
      AssertIndexRange debug (user_index c) (List.length (native_cells this)) ;;;
      match nth_error (native_cells this) (user_index c) with
      | None => Undefined
      | Some native_pair =>
          let native_cell : cell_iterator :=
            (fst native_pair, snd native_pair) in
          (if debug then
             match dereference (native_tria this) native_cell with
             | None => Undefined
             | Some n =>
                 Assert debug (barycenters_agree spacedim n c) ExcInternalError
             end
           else Ret tt) ;;;
          Ret native_cell
      end
  end.

(** The correspondence between an overlap cell and a native cell that the
    assertion checks. *)
Definition correspond (spacedim : nat) (this : OverlapTriangulation)
           (cell native_cell : cell_iterator) : Prop :=
  exists c n,
    dereference (base this) cell = Some c /\
    dereference (native_tria this) native_cell = Some n /\
    (norm (point_difference spacedim (barycenter n) (barycenter c))
     <? tolerance)%float = true.

(** A one-cell overlap triangulation whose native triangulation has been
    moved by one unit along the first axis after the overlap was built. *)
Definition overlap_cell : cell_data :=
  mk_cell_data 0 0 0 [0.5; 0.5; 0.5]%float true 0 true.

Definition moved_native_cell : cell_data :=
  mk_cell_data 0 0 0 [1.5; 0.5; 0.5]%float true 0 true.

Definition stale_overlap : OverlapTriangulation :=
  mkOverlapTriangulation
    (mkTriangulation 1 [overlap_cell])
    (mkTriangulation 1 [moved_native_cell])
    [(0%Z, 0%Z)].

Definition fresh_overlap : OverlapTriangulation :=
  mkOverlapTriangulation
    (mkTriangulation 1 [overlap_cell])
    (mkTriangulation 1 [overlap_cell])
    [(0%Z, 0%Z)].

(** An overlap cell at the origin whose native cell is [offset] away along
    the first axis. *)
Definition shifted_overlap (offset : float) : OverlapTriangulation :=
  mkOverlapTriangulation
    (mkTriangulation 1 [mk_cell_data 0 0 0 [0; 0; 0]%float true 0 true])
    (mkTriangulation 1 [mk_cell_data 0 0 0 [offset; 0; 0]%float true 0 true])
    [(0%Z, 0%Z)].

End Overlap.

(* ===================================================================== *)
(** ** Vectors, Scatter and the partitioner of active cell indices       *)
(* ===================================================================== *)

Module LA.

Import Mesh.

(** [VectorOperation::values] of deal.II. *)
Module VectorOperation.
Inductive values : Type := unknown | insert | add | min | max.
End VectorOperation.

(** [LinearAlgebra::distributed::Vector<double>]: the partitioner it shares
    (an address), its communicator and its locally stored entries. *)
Record Vector : Type := mkVector {
  get_partitioner : address;
  get_mpi_communicator : MPI_Comm;
  values : list Q
}.

(** Writing entry [k] of a vector; nothing is written out of range. *)
Fixpoint set_entry (v : list Q) (k : nat) (x : Q) : list Q :=
  match v, k with
  | [], _ => []
  | _ :: r, O => x :: r
  | y :: r, S k' => y :: set_entry r k' x
  end.

Definition entry (v : list Q) (k : nat) : Q := nth k v 0%Q.

(** Modelled from the spec: the class [Scatter] (fiddle/transfer/scatter.h
    and its implementation are not part of the sources). It is built from
    the translation table (overlap index to native index), the locally owned
    native indices and a communicator. Each direction has a [start] half
    that packs and posts the transfer on a channel and a [finish] half that
    completes it; native to overlap copies [native[table[i]]] into entry
    [i], overlap to native combines entry [i] into [native[table[i]]] with
    the reduction operation, one overlap entry after the other. A [finish]
    with no transfer in flight has nothing to complete. Transfers between
    processes are not modelled: the table addresses the local vector. *)
Record Scatter : Type := mkScatter {
  overlap_dofs : list nat;
  locally_owned_dofs : list nat;
  scatter_communicator : MPI_Comm;
  to_overlap_in_flight : option (nat * list Q);
  to_global_in_flight :
    option (nat * VectorOperation.values * list (nat * Q))
}.

(** The constructor [Scatter(overlap_dofs, locally_owned_dofs, comm)]. *)
Definition new_Scatter (table owned : list nat) (comm : MPI_Comm) : Scatter :=
  mkScatter table owned comm None None.

Definition global_to_overlap_start (s : Scatter) (input : list Q)
           (channel : nat) (output : list Q) : Scatter :=
  mkScatter (overlap_dofs s) (locally_owned_dofs s) (scatter_communicator s)
    (Some (channel, map (entry input) (overlap_dofs s)))
    (to_global_in_flight s).

Definition global_to_overlap_finish (s : Scatter) (input output : list Q)
  : Scatter * list Q :=
  match to_overlap_in_flight s with
  | Some (_, gathered) =>
      (mkScatter (overlap_dofs s) (locally_owned_dofs s)
         (scatter_communicator s) None (to_global_in_flight s),
       gathered)
  | None => (s, output)
  end.

(** Combining one overlap entry into the native vector. *)
Definition reduce (operation : VectorOperation.values) (output : list Q)
           (message : nat * Q) : list Q :=
  let (k, x) := message in
  match operation with
  | VectorOperation.add => set_entry output k (entry output k + x)%Q
  | VectorOperation.insert => set_entry output k x
  | _ => output
  end.

Definition overlap_to_global_start (s : Scatter) (input : list Q)
           (operation : VectorOperation.values) (channel : nat)
           (output : list Q) : Scatter :=
  mkScatter (overlap_dofs s) (locally_owned_dofs s) (scatter_communicator s)
    (to_overlap_in_flight s)
    (Some (channel, operation, combine (overlap_dofs s) input)).

Definition overlap_to_global_finish (s : Scatter) (input : list Q)
           (operation : VectorOperation.values) (output : list Q)
  : Scatter * list Q :=
  match to_global_in_flight s with
  | Some (_, _, messages) =>
      (mkScatter (overlap_dofs s) (locally_owned_dofs s)
         (scatter_communicator s) (to_overlap_in_flight s) None,
       fold_left (reduce operation) messages output)
  | None => (s, output)
  end.

(** What the messages of a transfer contribute to the native entry [k]. *)
Fixpoint contribution (messages : list (nat * Q)) (k : nat) : Q :=
  match messages with
  | [] => 0%Q
  | (k', x) :: rest =>
      ((if (k' =? k)%nat then x else 0) + contribution rest k)%Q
  end.

(** [Utilities::MPI::NoncontiguousPartitioner] of deal.II, as far as
    [InteractionBase] uses it: the sizes of its communication plan and the
    ghosted array that an export delivers for a source array. *)
Record NoncontiguousPartitioner : Type := mkNoncontiguousPartitioner {
  temporary_storage_size : nat;
  n_targets : nat * nat;
  exported : list nat -> list nat
}.

(** [export_to_ghosted_array_start]: the values travel in the work buffer. *)
Definition export_to_ghosted_array_start (p : NoncontiguousPartitioner)
           (channel : nat) (src work : list nat) (requests : list nat)
  : list nat * list nat :=
  (exported p src, requests).

(** [export_to_ghosted_array_finish]: the destination receives them. *)
Definition export_to_ghosted_array_finish (p : NoncontiguousPartitioner)
           (work dst : list nat) (requests : list nat)
  : list nat * list nat :=
  (work, requests).

End LA.

(* ===================================================================== *)
(** ** [InteractionBase]                                                 *)
(* ===================================================================== *)

Module Interaction.

Import Geometry Mesh LA.

(** [DoFHandler], as far as [InteractionBase] reads it. *)
Record DoFHandler : Type := mkDoFHandler {
  dof_triangulation : address;
  get_fe_collection : nat;
  n_dofs : nat;
  dof_locally_owned_dofs : list nat
}.

(** The objects of the caller that [InteractionBase] reaches through
    pointers and references, and the state of MPI: the next communicator
    handle, the process group of every handle and the communicator of
    SAMRAI. *)
Record Memory : Type := mkMemory {
  triangulations : address -> option Triangulation;
  number_of_levels : address -> option Z;
  dof_handlers : address -> option DoFHandler;
  vectors : address -> option Vector;
  next_communicator : MPI_Comm;
  group_of : MPI_Comm -> nat;
  SAMRAI_communicator : MPI_Comm
}.

Definition deref {A : Type} (o : option A) : outcome A :=
  match o with Some a => Ret a | None => Undefined end.

Definition set_vector (mem : Memory) (a : address) (v : Vector) : Memory :=
  mkMemory (triangulations mem) (number_of_levels mem) (dof_handlers mem)
    (fun x => if (x =? a)%nat then Some v else vectors mem x)
    (next_communicator mem) (group_of mem) (SAMRAI_communicator mem).

(** [Utilities::MPI::duplicate_communicator]: a new handle on the same
    process group. *)
Definition duplicate_communicator (mem : Memory) (c : MPI_Comm)
  : Memory * MPI_Comm :=
  let h := next_communicator mem in
  (mkMemory (triangulations mem) (number_of_levels mem) (dof_handlers mem)
     (vectors mem) (S h)
     (fun x => if (x =? h)%nat then group_of mem c else group_of mem x)
     (SAMRAI_communicator mem),
   h).

Inductive MPI_comparison : Type :=
| MPI_IDENT | MPI_CONGRUENT | MPI_UNEQUAL.

Definition MPI_Comm_compare (mem : Memory) (c1 c2 : MPI_Comm)
  : MPI_comparison :=
  if (c1 =? c2)%nat then MPI_IDENT
  else if (group_of mem c1 =? group_of mem c2)%nat then MPI_CONGRUENT
  else MPI_UNEQUAL.

(** [PatchMap], built by code that is not part of the sources. *)
Record PatchMap : Type := mkPatchMap {
  patch_cells : list (address * list cell_iterator)
}.

(** The functions of fiddle, SAMRAI and deal.II that [InteractionBase]
    calls and whose code is not part of the sources. *)
Record Collaborators : Type := mkCollaborators {
  extract_patches : address -> Z -> list address;
  compute_patch_bboxes : list address -> Q -> list BoundingBox;
  overlap_tria_reinit :
    Triangulation -> list BoundingBox -> list BoundingBox ->
    Overlap.OverlapTriangulation;
  patch_map_reinit :
    list address -> Q -> Overlap.OverlapTriangulation -> list BoundingBox ->
    PatchMap;
  partitioner_reinit :
    list nat -> list nat -> MPI_Comm -> NoncontiguousPartitioner;
  distribute_dofs : Overlap.OverlapTriangulation -> nat -> DoFHandler;
  compute_overlap_to_native_dof_translation :
    Overlap.OverlapTriangulation -> DoFHandler -> DoFHandler -> list nat
}.

Record InteractionBase : Type := mkInteractionBase {
  communicator : MPI_Comm;
  native_tria : address;
  patch_hierarchy : option address;
  level_number : Z;
  eulerian_data_cache : option address;
  overlap_tria : Overlap.OverlapTriangulation;
  patch_map : PatchMap;
  active_cell_index_partitioner : NoncontiguousPartitioner;
  quad_index_work_size : nat;
  n_quad_index_requests : nat;
  native_dof_handlers : list address;
  overlap_dof_handlers : list DoFHandler;
  scatters : list Scatter
}.

Definition is_null {A : Type} (p : option A) : bool :=
  match p with Some _ => false | None => true end.

(** The loops of [reinit] over the active cells of the overlap
    triangulation: the active cell index of the native cell of each. *)
Fixpoint native_active_cell_indices (debug : bool) (spacedim : nat)
         (ot : Overlap.OverlapTriangulation) (its : list cell_iterator)
  : outcome (list nat) :=
  match its with
  | [] => Ret []
  | cell :: rest =>
      native_cell <- Overlap.get_native_cell debug spacedim ot cell ;;
      n <- deref (dereference (Overlap.native_tria ot) native_cell) ;;
      tail <- native_active_cell_indices debug spacedim ot rest ;;
      Ret (cell_active_cell_index n :: tail)
  end.

(** [global_active_cell_bboxes[i]] for each index of a list. *)
Fixpoint boxes_at (bboxes : list BoundingBox) (indices : list nat)
  : outcome (list BoundingBox) :=
  match indices with
  | [] => Ret []
  | i :: rest =>
      b <- deref (nth_error bboxes i) ;;
      tail <- boxes_at bboxes rest ;;
      Ret (b :: tail)
  end.

(** [InteractionBase::reinit]. *)
Definition reinit (debug : bool) (spacedim : nat) (E : Collaborators)
           (mem : Memory) (this : InteractionBase)
           (n_tria : address) (global_active_cell_bboxes : list BoundingBox)
           (p_hierarchy : option address) (l_number : Z)
           (e_data_cache : option address)
  : outcome (Memory * InteractionBase) :=
  new_tria <- deref (triangulations mem n_tria) ;;
  recreate <-
    (if (communicator this =? MPI_COMM_NULL)%nat then Ret true
     else
       old_tria <- deref (triangulations mem (native_tria this)) ;;
       Ret (negb (get_communicator old_tria =? get_communicator new_tria)%nat)) ;;
  let (mem1, communicator1) :=
    if (recreate : bool)
    then duplicate_communicator mem (get_communicator new_tria)
    else (mem, communicator this) in
  (if debug then
     Assert debug
       (match MPI_Comm_compare mem1 communicator1 (SAMRAI_communicator mem1)
        with
        | MPI_CONGRUENT | MPI_IDENT => true
        | MPI_UNEQUAL => false
        end)
       (ExcMessage "The same communicator should be used for the triangulation (from deal.II) and in SAMRAI")
   else Ret tt) ;;;
  Assert debug
    (List.length global_active_cell_bboxes =? n_active_cells new_tria)%nat
    (ExcMessage "There should be a bounding box for each active cell") ;;;
  Assert debug (negb (is_null p_hierarchy))
    (ExcMessage "The provided pointer to a patch hierarchy should not be null.") ;;;
  hierarchy <- deref p_hierarchy ;;
  (if debug then
     levels <- deref (number_of_levels mem1 hierarchy) ;;
     Assert debug (l_number <? levels)%Z ExcIndexRange
   else Ret tt) ;;;
  Assert debug (negb (is_null e_data_cache))
    (ExcMessage "The provided shared pointer to an Eulerian data cache should not be null.") ;;;
  (* Set up the patch map: *)
  let patches := extract_patches E hierarchy l_number in
  let patch_bboxes := compute_patch_bboxes E patches 1%Q in
  let overlap_tria1 :=
    overlap_tria_reinit E new_tria global_active_cell_bboxes patch_bboxes in
  overlap_indices <-
    native_active_cell_indices debug spacedim overlap_tria1
      (active_cell_iterators (Overlap.base overlap_tria1)) ;;
  overlap_bboxes <- boxes_at global_active_cell_bboxes overlap_indices ;;
  let patch_map1 :=
    patch_map_reinit E patches 1%Q overlap_tria1 overlap_bboxes in
  (* Set up the active cell index partitioner: *)
  let locally_owned_active_cell_indices :=
    map cell_active_cell_index
      (filter (fun c => cell_is_active c && is_locally_owned c)
         (cells new_tria)) in
  ghost_active_cell_indices <-
    native_active_cell_indices debug spacedim overlap_tria1
      (active_cell_iterators (Overlap.base overlap_tria1)) ;;
  let partitioner1 :=
    partitioner_reinit E locally_owned_active_cell_indices
      ghost_active_cell_indices communicator1 in
  Ret (mem1,
       mkInteractionBase communicator1 n_tria p_hierarchy l_number e_data_cache
         overlap_tria1 patch_map1 partitioner1
         (temporary_storage_size partitioner1)
         (fst (n_targets partitioner1) + snd (n_targets partitioner1))
         (native_dof_handlers this) (overlap_dof_handlers this)
         (scatters this)).

(** The members before the body of the constructor runs. *)
Definition initial (n_tria : address) (p_hierarchy : option address)
           (l_number : Z) (e_data_cache : option address) : InteractionBase :=
  mkInteractionBase MPI_COMM_NULL n_tria p_hierarchy l_number e_data_cache
    (Overlap.mkOverlapTriangulation (mkTriangulation MPI_COMM_NULL [])
       (mkTriangulation MPI_COMM_NULL []) [])
    (mkPatchMap [])
    (mkNoncontiguousPartitioner 0 (0, 0)%nat (fun _ => []))
    0 0 [] [] [].

(** The constructor of [InteractionBase]. *)
Definition InteractionBase_ctor (debug : bool) (spacedim : nat)
           (E : Collaborators) (mem : Memory)
           (n_tria : address) (global_active_cell_bboxes : list BoundingBox)
           (p_hierarchy : option address) (l_number : Z)
           (e_data_cache : option address)
  : outcome (Memory * InteractionBase) :=
  reinit debug spacedim E mem
    (initial n_tria p_hierarchy l_number e_data_cache)
    n_tria global_active_cell_bboxes p_hierarchy l_number e_data_cache.

(** [std::find(begin, end, ptr) - begin], when the pointer is found. *)
Fixpoint find_position (l : list address) (ptr : address) : option nat :=
  match l with
  | [] => None
  | x :: rest =>
      if (x =? ptr)%nat then Some 0%nat
      else option_map S (find_position rest ptr)
  end.

Definition not_registered : exception :=
  ExcMessage "The provided dof handler must already be registered with this class.".

(** [InteractionBase::get_overlap_dof_handler]. *)
Definition get_overlap_dof_handler (this : InteractionBase)
           (native_dof_handler : address) : outcome DoFHandler :=
  match find_position (native_dof_handlers this) native_dof_handler with
  | None => Throw not_registered
  | Some i => deref (nth_error (overlap_dof_handlers this) i)
  end.

(** [InteractionBase::get_scatter]: the position of the scatter in
    [scatters], which stands for the reference the source returns, and the
    scatter there. *)
Definition get_scatter (this : InteractionBase) (native_dof_handler : address)
  : outcome (nat * Scatter) :=
  match find_position (native_dof_handlers this) native_dof_handler with
  | None => Throw not_registered
  | Some i => s <- deref (nth_error (scatters this) i) ;; Ret (i, s)
  end.

(** Writing through the reference returned by [get_scatter]. *)
Fixpoint replace_at {A : Type} (l : list A) (i : nat) (x : A) : list A :=
  match l, i with
  | [], _ => []
  | _ :: r, O => x :: r
  | y :: r, S i' => y :: replace_at r i' x
  end.

Definition set_scatters (this : InteractionBase) (s : list Scatter)
  : InteractionBase :=
  mkInteractionBase (communicator this) (native_tria this)
    (patch_hierarchy this) (level_number this) (eulerian_data_cache this)
    (overlap_tria this) (patch_map this) (active_cell_index_partitioner this)
    (quad_index_work_size this) (n_quad_index_requests this)
    (native_dof_handlers this) (overlap_dof_handlers this) s.

(** [InteractionBase::add_dof_handler]. *)
Definition add_dof_handler (E : Collaborators) (mem : Memory)
           (this : InteractionBase) (native_dof_handler : address)
  : outcome InteractionBase :=
  dh <- deref (dof_handlers mem native_dof_handler) ;;
  AssertThrow (dof_triangulation dh =? native_tria this)%nat
    (ExcMessage "The DoFHandler must use the underlying native triangulation.") ;;;
  let ptr := native_dof_handler in
  match find_position (native_dof_handlers this) ptr with
  | None =>
      let overlap_dof_handler :=
        distribute_dofs E (overlap_tria this) (get_fe_collection dh) in
      let overlap_to_native_dofs :=
        compute_overlap_to_native_dof_translation E (overlap_tria this)
          overlap_dof_handler dh in
      Ret (mkInteractionBase (communicator this) (native_tria this)
             (patch_hierarchy this) (level_number this)
             (eulerian_data_cache this) (overlap_tria this) (patch_map this)
             (active_cell_index_partitioner this)
             (quad_index_work_size this) (n_quad_index_requests this)
             (native_dof_handlers this ++ [ptr])
             (overlap_dof_handlers this ++ [overlap_dof_handler])
             (scatters this ++
                [new_Scatter overlap_to_native_dofs
                   (dof_locally_owned_dofs dh) (communicator this)]))
  | Some _ => Ret this
  end.

(** The registry holds one overlap handler and one scatter for each native
    handler, and no native handler twice. *)
Definition registry_ok (this : InteractionBase) : Prop :=
  NoDup (native_dof_handlers this) /\
  List.length (overlap_dof_handlers this)
  = List.length (native_dof_handlers this) /\
  List.length (scatters this) = List.length (native_dof_handlers this).

(** The members that [add_dof_handler] never writes. *)
Definition same_mesh_members (before after : InteractionBase) : Prop :=
  communicator after = communicator before /\
  native_tria after = native_tria before /\
  patch_hierarchy after = patch_hierarchy before /\
  level_number after = level_number before /\
  eulerian_data_cache after = eulerian_data_cache before /\
  overlap_tria after = overlap_tria before /\
  patch_map after = patch_map before /\
  active_cell_index_partitioner after = active_cell_index_partitioner before /\
  quad_index_work_size after = quad_index_work_size before /\
  n_quad_index_requests after = n_quad_index_requests before.

(** A small world for the examples: one native cell, two triangulations on
    communicator 1 and one on communicator 2, a hierarchy with one level, a
    DoF handler with three degrees of freedom, two of whose overlap copies
    alias the native index 1, and two vectors. *)
Definition example_collaborators : Collaborators :=
  mkCollaborators
    (fun _ _ => [7%nat])
    (fun _ _ => [unit_cube])
    (fun native _ _ =>
       Overlap.mkOverlapTriangulation native native
         (map (fun c => (level c, index c)) (cells native)))
    (fun _ _ _ _ => mkPatchMap [])
    (fun _ ghost _ =>
       mkNoncontiguousPartitioner (List.length ghost) (0, 0)%nat (fun src => src))
    (fun _ fe_collection => mkDoFHandler 0 fe_collection 3 [0; 1; 2]%nat)
    (fun _ _ _ => [0; 1; 1]%nat).

Definition example_memory : Memory :=
  mkMemory
    (fun a =>
       if (a =? 1)%nat then Some (mkTriangulation 1 [Overlap.overlap_cell])
       else if (a =? 2)%nat then Some (mkTriangulation 1 [Overlap.overlap_cell])
       else if (a =? 3)%nat then Some (mkTriangulation 2 [Overlap.overlap_cell])
       else None)
    (fun a => if (a =? 5)%nat then Some 1%Z else None)
    (fun a =>
       if (a =? 10)%nat then Some (mkDoFHandler 1 0 3 [0; 1; 2]%nat)
       else None)
    (fun a =>
       if (a =? 20)%nat then Some (mkVector 30 1 [1; 2; 3]%Q)
       else if (a =? 21)%nat then Some (mkVector 30 1 [10; 20; 30]%Q)
       else None)
    3%nat
    (fun _ => 0%nat)
    1%nat.

(** The memory once the constructor has duplicated communicator 1. *)
Definition example_running_memory : Memory :=
  fst (duplicate_communicator example_memory 1%nat).

(** The pipeline object of the examples after its constructor and the
    registration of the DoF handler at address 10. *)
Definition example_base : InteractionBase :=
  mkInteractionBase 3 1 (Some 5%nat) 0 (Some 6%nat)
    (Overlap.mkOverlapTriangulation
       (mkTriangulation 1 [Overlap.overlap_cell])
       (mkTriangulation 1 [Overlap.overlap_cell]) [(0, 0)%Z])
    (mkPatchMap [])
    (mkNoncontiguousPartitioner 1 (0, 0)%nat (fun src => src))
    1 0
    [10%nat]
    [mkDoFHandler 0 0 3 [0; 1; 2]%nat]
    [new_Scatter [0; 1; 1]%nat [0; 1; 2]%nat 3%nat].

(** The same object once it has been moved to the triangulation at
    address 2. *)
Definition set_native_tria_for_example (this : InteractionBase)
  : InteractionBase :=
  mkInteractionBase (communicator this) 2%nat
    (patch_hierarchy this) (level_number this) (eulerian_data_cache this)
    (overlap_tria this) (patch_map this) (active_cell_index_partitioner this)
    (quad_index_work_size this) (n_quad_index_requests this)
    (native_dof_handlers this) (overlap_dof_handlers this) (scatters this).

(** The object of the examples after a [reinit] on the triangulation at
    address 3, whose communicator is another one. *)
Definition example_rebuilt_base : InteractionBase :=
  mkInteractionBase 4 3 (Some 5%nat) 0 (Some 6%nat)
    (Overlap.mkOverlapTriangulation
       (mkTriangulation 2 [Overlap.overlap_cell])
       (mkTriangulation 2 [Overlap.overlap_cell]) [(0, 0)%Z])
    (mkPatchMap [])
    (mkNoncontiguousPartitioner 1 (0, 0)%nat (fun src => src))
    1 0
    [10%nat]
    [mkDoFHandler 0 0 3 [0; 1; 2]%nat]
    [new_Scatter [0; 1; 1]%nat [0; 1; 2]%nat 3%nat].

End Interaction.

(* ===================================================================== *)
(** ** The projection transaction                                        *)
(* ===================================================================== *)

Module Pipeline.

Import Geometry Mesh LA Interaction.

(** Modelled from the spec: the enumerations [State] and [Operation] of
    [Transaction], whose declaration is not part of the sources. The phases
    name the states Intermediate, Finish and Done and the operation
    Interpolation; the specification adds Spreading. *)
Inductive State : Type := Intermediate | Finish | Done.

Inductive Operation : Type := Interpolation | Spreading.

Definition State_eqb (a b : State) : bool :=
  match a, b with
  | Intermediate, Intermediate | Finish, Finish | Done, Done => true
  | _, _ => false
  end.

Definition Operation_eqb (a b : Operation) : bool :=
  match a, b with
  | Interpolation, Interpolation | Spreading, Spreading => true
  | _, _ => false
  end.

Record Transaction : Type := mkTransaction {
  current_f_data_idx : Z;
  quad_family : address;
  native_quad_indices : list nat;
  overlap_quad_indices : list nat;
  quad_indices_work : list nat;
  quad_indices_requests : list nat;
  native_X_dof_handler : address;
  native_X : address;
  overlap_X_vec : list Q;
  native_F_dof_handler : address;
  F_mapping : address;
  native_F_rhs : address;
  overlap_F_rhs : list Q;
  next_state : State;
  operation : Operation
}.

Definition same_communicator (mem : Memory) (c1 c2 : MPI_Comm) : bool :=
  match MPI_Comm_compare mem c1 c2 with
  | MPI_CONGRUENT => true
  | _ => false
  end.

(** [InteractionBase::compute_projection_rhs_start]. *)
Definition compute_projection_rhs_start (debug : bool) (mem : Memory)
           (this : InteractionBase) (f_data_idx : Z) (quad_family_ : address)
           (quad_indices : list nat) (X_dof_handler X : address)
           (F_dof_handler F_mapping_ F_rhs : address)
  : outcome (InteractionBase * Transaction) :=
  (if debug then
     native <- deref (triangulations mem (native_tria this)) ;;
     Assert debug
       (List.length quad_indices =? n_locally_owned_active_cells native)%nat
       (ExcMessage "Each locally owned active cell should have a quadrature index") ;;;
     X_vec <- deref (vectors mem X) ;;
     Assert debug
       (same_communicator mem (communicator this) (get_mpi_communicator X_vec))
       (ExcMessage "The same communicator should be used for X and the input triangulation") ;;;
     F_vec <- deref (vectors mem F_rhs) ;;
     Assert debug
       (same_communicator mem (communicator this) (get_mpi_communicator F_vec))
       (ExcMessage "The same communicator should be used for F_rhs and the input triangulation")
   else Ret tt) ;;;
  (* Setup X info: *)
  overlap_X_dof_handler <- get_overlap_dof_handler this X_dof_handler ;;
  (* Setup F info: *)
  overlap_F_dof_handler <- get_overlap_dof_handler this F_dof_handler ;;
  (* OK, now start scattering: *)
  X_found <- get_scatter this X_dof_handler ;;
  let (X_position, X_scatter) := X_found : nat * Scatter in
  X_vec <- deref (vectors mem X) ;;
  let overlap_X := repeat 0%Q (n_dofs overlap_X_dof_handler) in
  let channel := 0%nat in
  let X_scatter1 :=
    global_to_overlap_start X_scatter (values X_vec) channel overlap_X in
  let channel := S channel in
  let (work, requests) :=
    export_to_ghosted_array_start (active_cell_index_partitioner this)
      channel quad_indices
      (repeat 0%nat (quad_index_work_size this))
      (repeat 0%nat (n_quad_index_requests this)) in
  Ret (set_scatters this (replace_at (scatters this) X_position X_scatter1),
       mkTransaction f_data_idx quad_family_ quad_indices
         (repeat 0%nat (n_active_cells (Overlap.base (overlap_tria this))))
         work requests
         X_dof_handler X overlap_X
         F_dof_handler F_mapping_ F_rhs
         (repeat 0%Q (n_dofs overlap_F_dof_handler))
         Intermediate Interpolation).

(** [InteractionBase::compute_projection_rhs_intermediate]. *)
Definition compute_projection_rhs_intermediate (debug : bool) (mem : Memory)
           (this : InteractionBase) (trans : Transaction)
  : outcome (InteractionBase * Transaction) :=
  Assert debug (Operation_eqb (operation trans) Interpolation)
    (ExcMessage "Transaction operation should be Interpolation") ;;;
  Assert debug (State_eqb (next_state trans) Intermediate)
    (ExcMessage "Transaction state should be Intermediate") ;;;
  X_found <- get_scatter this (native_X_dof_handler trans) ;;
  let (X_position, X_scatter) := X_found : nat * Scatter in
  X_vec <- deref (vectors mem (native_X trans)) ;;
  let (X_scatter1, overlap_X) :=
    global_to_overlap_finish X_scatter (values X_vec) (overlap_X_vec trans) in
  let this1 :=
    set_scatters this (replace_at (scatters this) X_position X_scatter1) in
  let (overlap_quad, requests) :=
    export_to_ghosted_array_finish (active_cell_index_partitioner this)
      (quad_indices_work trans) (overlap_quad_indices trans)
      (quad_indices_requests trans) in
  (* this is the point at which a base class would normally do
     computations. *)
  F_found <- get_scatter this1 (native_F_dof_handler trans) ;;
  let (F_position, F_scatter) := F_found : nat * Scatter in
  F_vec <- deref (vectors mem (native_F_rhs trans)) ;;
  let channel := 0%nat in
  let F_scatter1 :=
    overlap_to_global_start F_scatter (overlap_F_rhs trans)
      VectorOperation.add channel (values F_vec) in
  Ret (set_scatters this1 (replace_at (scatters this1) F_position F_scatter1),
       mkTransaction (current_f_data_idx trans) (quad_family trans)
         (native_quad_indices trans) overlap_quad
         (quad_indices_work trans) requests
         (native_X_dof_handler trans) (native_X trans) overlap_X
         (native_F_dof_handler trans) (F_mapping trans) (native_F_rhs trans)
         (overlap_F_rhs trans)
         Finish (operation trans)).

(** [InteractionBase::compute_projection_rhs_finish]. The transaction is
    destroyed when the function returns; its last value is returned here so
    that its state can be observed. *)
Definition compute_projection_rhs_finish (debug : bool) (mem : Memory)
           (this : InteractionBase) (trans : Transaction)
  : outcome (Memory * InteractionBase * Transaction) :=
  Assert debug (Operation_eqb (operation trans) Interpolation)
    (ExcMessage "Transaction operation should be Interpolation") ;;;
  Assert debug (State_eqb (next_state trans) Finish)
    (ExcMessage "Transaction state should be Finish") ;;;
  F_found <- get_scatter this (native_F_dof_handler trans) ;;
  let (F_position, F_scatter) := F_found : nat * Scatter in
  F_vec <- deref (vectors mem (native_F_rhs trans)) ;;
  let (F_scatter1, F_values) :=
    overlap_to_global_finish F_scatter (overlap_F_rhs trans)
      VectorOperation.add (values F_vec) in
  Ret (set_vector mem (native_F_rhs trans)
         (mkVector (get_partitioner F_vec) (get_mpi_communicator F_vec)
            F_values),
       set_scatters this (replace_at (scatters this) F_position F_scatter1),
       mkTransaction (current_f_data_idx trans) (quad_family trans)
         (native_quad_indices trans) (overlap_quad_indices trans)
         (quad_indices_work trans) (quad_indices_requests trans)
         (native_X_dof_handler trans) (native_X trans) (overlap_X_vec trans)
         (native_F_dof_handler trans) (F_mapping trans) (native_F_rhs trans)
         (overlap_F_rhs trans)
         Done (operation trans)).

(** The transaction of the examples, as [compute_projection_rhs_start]
    leaves it and the pipeline object, and the same transaction once the
    overlap result vector holds the unit value in every entry. *)
Definition example_started_base : InteractionBase :=
  set_scatters example_base
    [mkScatter [0; 1; 1]%nat [0; 1; 2]%nat 3%nat
       (Some (0%nat, [1; 2; 2]%Q)) None].

Definition example_transaction : Transaction :=
  mkTransaction 0 0 [0%nat] [0%nat] [0%nat] [] 10 20 [0; 0; 0]%Q
    10 0 21 [0; 0; 0]%Q Intermediate Interpolation.

Definition example_unit_transaction : Transaction :=
  mkTransaction 0 0 [0%nat] [0%nat] [0%nat] [] 10 20 [0; 0; 0]%Q
    10 0 21 [1; 1; 1]%Q Intermediate Interpolation.

(** The pipeline object and the unit transaction of the examples once
    intermediate has been called. *)
Definition example_intermediate_base : InteractionBase :=
  set_scatters example_base
    [mkScatter [0; 1; 1]%nat [0; 1; 2]%nat 3%nat None
       (Some (0%nat, VectorOperation.add,
              [(0%nat, 1%Q); (1%nat, 1%Q); (1%nat, 1%Q)]))].

Definition example_intermediate_transaction : Transaction :=
  mkTransaction 0 0 [0%nat] [0%nat] [0%nat] [] 10 20 [1; 2; 2]%Q
    10 0 21 [1; 1; 1]%Q Finish Interpolation.

(** The pipeline objects that the public functions can produce, starting
    from the constructor. *)
Inductive reachable (E : Collaborators) : InteractionBase -> Prop :=
| reachable_ctor debug spacedim mem n_tria bboxes hierarchy l cache
                 mem' this :
    InteractionBase_ctor debug spacedim E mem n_tria bboxes hierarchy l cache
    = Ret (mem', this) ->
    reachable E this
| reachable_reinit debug spacedim mem this n_tria bboxes hierarchy l cache
                   mem' this' :
    reachable E this ->
    reinit debug spacedim E mem this n_tria bboxes hierarchy l cache
    = Ret (mem', this') ->
    reachable E this'
| reachable_add mem this handler this' :
    reachable E this ->
    add_dof_handler E mem this handler = Ret this' ->
    reachable E this'
| reachable_start debug mem this f q qi Xh X Fh Fm F this' trans :
    reachable E this ->
    compute_projection_rhs_start debug mem this f q qi Xh X Fh Fm F
    = Ret (this', trans) ->
    reachable E this'
| reachable_intermediate debug mem this trans this' trans' :
    reachable E this ->
    compute_projection_rhs_intermediate debug mem this trans
    = Ret (this', trans') ->
    reachable E this'
| reachable_finish debug mem this trans mem' this' trans' :
    reachable E this ->
    compute_projection_rhs_finish debug mem this trans
    = Ret (mem', this', trans') ->
    reachable E this'.

End Pipeline.


(* ===================================================================== *)
(** ** [Part]                                                            *)
(* ===================================================================== *)

Module Mechanics.

Import Mesh LA.

(** The members of [Part]. Objects held through pointers are addresses; the
    [SmartPointer]s may be null. *)
Record Part : Type := mkPart {
  tria : option address;
  fe : option address;
  dof_handler : address;
  constraints : list (nat * Q);
  partitioner : address;
  quadrature : list (list Q * Q);
  mapping : address;
  matrix_free : address;
  mass_operator : address;
  mass_preconditioner : list Q;
  position : Vector;
  velocity : Vector;
  force_contributions : list address
}.

Definition is_set (p : option address) : bool :=
  match p with Some _ => true | None => false end.

Definition get_triangulation (debug : bool) (this : Part) : outcome address :=
  Assert debug (is_set (tria this)) ExcFDLInternalError ;;;
  match tria this with Some t => Ret t | None => Undefined end.

Definition get_dof_handler (this : Part) : address := dof_handler this.

Definition get_partitioner (this : Part) : address := partitioner this.

Definition get_quadrature (this : Part) : list (list Q * Q) := quadrature this.

Definition get_mapping (this : Part) : address := mapping this.

Definition get_mass_operator (this : Part) : address := mass_operator this.

Definition get_mass_preconditioner (this : Part) : list Q :=
  mass_preconditioner this.

Definition get_position (this : Part) : Vector := position this.

Definition get_velocity (this : Part) : Vector := velocity this.

Definition partitioners_must_be_equal : exception :=
  ExcMessage "The partitioners must be equal".

(** [LinearAlgebra::distributed::Vector<double>::operator=] of deal.II, as
    [position = pos] and [velocity = vel] use it: the entries of [c] are
    copied into [v]. The vector [v] keeps its partitioner when that is the
    partitioner of [c] (the two vectors then share the partitioner and its
    communicator, and [v] becomes [c]), and also when the two partitioners
    give every process the same local range; otherwise [v] is reinitialised
    from [c] and shares the partitioner of [c]. Whether two partitioners
    give the same local ranges is decided by the partitioner objects, which
    are not part of the sources: [same_local_ranges] is a parameter. *)
Definition Vector_assign (same_local_ranges : address -> address -> bool)
           (v c : Vector) : Vector :=
  if (LA.get_partitioner v =? LA.get_partitioner c)%nat then c
  else if same_local_ranges (LA.get_partitioner v) (LA.get_partitioner c)
       then mkVector (LA.get_partitioner v) (get_mpi_communicator v) (values c)
       else c.

(** [Part::set_position(const Vector &)]: [position = pos]. *)
Definition set_position (debug : bool)
           (same_local_ranges : address -> address -> bool)
           (this : Part) (pos : Vector)
  : outcome Part :=
  Assert debug (LA.get_partitioner pos =? partitioner this)%nat
    partitioners_must_be_equal ;;;
  Ret (mkPart (tria this) (fe this) (dof_handler this) (constraints this)
         (partitioner this) (quadrature this) (mapping this)
         (matrix_free this) (mass_operator this) (mass_preconditioner this)
         (Vector_assign same_local_ranges (position this) pos)
         (velocity this) (force_contributions this)).

(** [Part::set_position(Vector &&)]: [position.swap(pos)], which exchanges
    the two vectors whole; the second component is what the temporary of
    the caller holds afterwards. *)
Definition set_position_move (debug : bool) (this : Part) (pos : Vector)
  : outcome (Part * Vector) :=
  Assert debug (LA.get_partitioner pos =? partitioner this)%nat
    partitioners_must_be_equal ;;;
  Ret (mkPart (tria this) (fe this) (dof_handler this) (constraints this)
         (partitioner this) (quadrature this) (mapping this)
         (matrix_free this) (mass_operator this) (mass_preconditioner this)
         pos (velocity this) (force_contributions this),
       position this).

(** [Part::set_velocity(const Vector &)]: [velocity = vel]. *)
Definition set_velocity (debug : bool)
           (same_local_ranges : address -> address -> bool)
           (this : Part) (vel : Vector)
  : outcome Part :=
  Assert debug (LA.get_partitioner vel =? partitioner this)%nat
    partitioners_must_be_equal ;;;
  Ret (mkPart (tria this) (fe this) (dof_handler this) (constraints this)
         (partitioner this) (quadrature this) (mapping this)
         (matrix_free this) (mass_operator this) (mass_preconditioner this)
         (position this)
         (Vector_assign same_local_ranges (velocity this) vel)
         (force_contributions this)).

(** [Part::set_velocity(Vector &&)]: [velocity.swap(vel)]. *)
Definition set_velocity_move (debug : bool) (this : Part) (vel : Vector)
  : outcome (Part * Vector) :=
  Assert debug (LA.get_partitioner vel =? partitioner this)%nat
    partitioners_must_be_equal ;;;
  Ret (mkPart (tria this) (fe this) (dof_handler this) (constraints this)
         (partitioner this) (quadrature this) (mapping this)
         (matrix_free this) (mass_operator this) (mass_preconditioner this)
         (position this) vel (force_contributions this),
       velocity this).

(** What [set_position] must leave as it was: the velocity, what the
    accessors of the triangulation, the DoF handler, the partitioner, the
    quadrature, the mapping and the mass operator return, and the members
    that have no accessor: the finite element, the constraints, the
    [MatrixFree] object and the force contributions. That is every member
    but the position. *)
Definition unchanged_but_position (debug : bool) (before after : Part)
  : Prop :=
  get_velocity after = get_velocity before /\
  get_triangulation debug after = get_triangulation debug before /\
  get_dof_handler after = get_dof_handler before /\
  get_partitioner after = get_partitioner before /\
  get_quadrature after = get_quadrature before /\
  get_mapping after = get_mapping before /\
  get_mass_operator after = get_mass_operator before /\
  get_mass_preconditioner after = get_mass_preconditioner before /\
  fe after = fe before /\
  constraints after = constraints before /\
  matrix_free after = matrix_free before /\
  force_contributions after = force_contributions before.

(** The same for [set_velocity], with the position in place of the
    velocity. *)
Definition unchanged_but_velocity (debug : bool) (before after : Part)
  : Prop :=
  get_position after = get_position before /\
  get_triangulation debug after = get_triangulation debug before /\
  get_dof_handler after = get_dof_handler before /\
  get_partitioner after = get_partitioner before /\
  get_quadrature after = get_quadrature before /\
  get_mapping after = get_mapping before /\
  get_mass_operator after = get_mass_operator before /\
  get_mass_preconditioner after = get_mass_preconditioner before /\
  fe after = fe before /\
  constraints after = constraints before /\
  matrix_free after = matrix_free before /\
  force_contributions after = force_contributions before.

(** The position and the velocity of a part are on its partitioner: what
    the assertions of the setters maintain. *)
Definition on_partitioner (this : Part) : Prop :=
  LA.get_partitioner (position this) = partitioner this /\
  LA.get_partitioner (velocity this) = partitioner this.

(** A part with three degrees of freedom, for the examples. *)
Definition example_part : Part :=
  mkPart (Some 1%nat) (Some 2%nat) 3%nat [] 4%nat [] 5%nat 6%nat 7%nat []
    (mkVector 4%nat 1%nat [0; 0; 0]%Q)
    (mkVector 4%nat 1%nat [1; 1; 1]%Q)
    [].

Definition example_vector : Vector :=
  mkVector 4%nat 1%nat [1 # 2; 3; 7]%Q.

(** The part of the examples once the example vector is its position. *)
Definition example_moved_part : Part :=
  mkPart (Some 1%nat) (Some 2%nat) 3%nat [] 4%nat [] 5%nat 6%nat 7%nat []
    example_vector
    (mkVector 4%nat 1%nat [1; 1; 1]%Q)
    [].

(** A vector on another partitioner, the one at address 9, and the two
    extreme answers to whether two partitioners give the same local
    ranges. *)
Definition example_foreign_vector : Vector :=
  mkVector 9%nat 1%nat [1; 2; 3]%Q.

Definition same_ranges_always : address -> address -> bool :=
  fun _ _ => true.

Definition same_ranges_never : address -> address -> bool :=
  fun _ _ => false.

End Mechanics.

(* ===================================================================== *)
(** ** [FiberNetwork]                                                    *)
(* ===================================================================== *)

Module Fibers.

Import Mesh.

(** [Tensor<1, spacedim>]. *)
Definition Tensor : Type := list Q.

(** [dealii::Table<2, T>]: the two sizes and the entries, row after row. *)
Record Table : Type := mkTable {
  n_rows : nat;
  n_cols : nat;
  table_values : list Tensor
}.

(** [table.size(1)]. *)
Definition size_1 (t : Table) : nat := n_cols t.

(** [table(i, j)]: the indices are asserted to be in range, then the entry
    is read from the storage; reading outside the table is undefined. The
    row index is the unsigned difference computed by [get_fibers]. *)
Definition table_at (debug : bool) (t : Table) (i : Z) (j : nat)
  : outcome Tensor :=
  Assert debug (i <? Z.of_nat (n_rows t))%Z ExcIndexRange ;;;
  AssertIndexRange debug j (n_cols t) ;;;
  if (i <? Z.of_nat (n_rows t))%Z then
    match nth_error (table_values t) (Z.to_nat i * n_cols t + j) with
    | Some x => Ret x
    | None => Undefined
    end
  else Undefined.

(** What [get_fibers] reads through the active cell iterator. *)
Record active_cell : Type := mk_active_cell {
  global_active_cell_index : Z
}.

(** The members of [FiberNetwork] that [get_fibers] reads. *)
Record FiberNetwork : Type := mkFiberNetwork {
  fibers : Table;
  local_processor_min_cell_index : Z
}.

(** The vectors created by [new] and never deleted; the address of a vector
    is its position. *)
Definition Heap : Type := list (list Tensor).

Definition INT_MAX : Z := 2147483647%Z.

(** [for (auto j = 0; j < fibers.size(1); j++) fiber_ptr->push_back(...)],
    with [n] the number of iterations still to run; [j] is an [int], whose
    increment past [INT_MAX] is undefined. *)
Fixpoint push_fibers (debug : bool) (t : Table) (cell_index : Z)
         (j n : nat) (fiber : list Tensor) : outcome (list Tensor) :=
  match n with
  | O => Ret fiber
  | S n' =>
      x <- table_at debug t cell_index j ;;
      if (INT_MAX <=? Z.of_nat j)%Z then Undefined
      else push_fibers debug t cell_index (S j) n' (fiber ++ [x])
  end.

(** The index that [get_fibers] computes for a cell: the difference of the
    two indices is taken in an unsigned type of [bits] bits, the type of the
    absent member declaration. *)
Definition cell_index_of (bits : N) (this : FiberNetwork)
           (cell : active_cell) : Z :=
  (global_active_cell_index cell - local_processor_min_cell_index this)
  mod 2 ^ Z.of_N bits.

(** [FiberNetwork::get_fibers]. The result is the object, the heap and the
    address of the new vector. *)
Definition get_fibers (debug : bool) (bits : N) (this : FiberNetwork)
           (heap : Heap) (cell : active_cell)
  : outcome (FiberNetwork * Heap * address) :=
  let cell_index := cell_index_of bits this cell in
  fiber <- push_fibers debug (fibers this) cell_index 0
             (size_1 (fibers this)) [] ;;
  Ret (this, heap ++ [fiber], List.length heap).

(** The table is stored completely. *)
Definition table_ok (t : Table) : Prop :=
  List.length (table_values t) = (n_rows t * n_cols t)%nat.

(** Row [c] of the table, read from the storage. *)
Definition row (t : Table) (c : Z) : list Tensor :=
  map (fun j => nth (Z.to_nat c * n_cols t + j) (table_values t) [])
      (seq 0 (n_cols t)).

(** A network of two cells with two fibers each, for the examples. *)
Definition example_network : FiberNetwork :=
  mkFiberNetwork
    (mkTable 2 2 [[1; 0]; [0; 1]; [1; 1]; [1; -1]]%Q)
    10%Z.

End Fibers.

(* ===================================================================== *)
(** ** The constructor of [FEIntersectionPredicate]                      *)
(* ===================================================================== *)

Module PredicateSetup.

Import Geometry Predicates.

(** What the constructor reads of an active cell of the DoF handler: its
    active cell index, the subdomain (the rank) that owns it, and the
    positions of the support points of the element on it, which [FEValues]
    computes with the mapping. On rank [r], [is_locally_owned()] holds for
    the cells whose subdomain is [r]. *)
Record active_fe_cell : Type := mk_active_fe_cell {
  fe_active_cell_index : nat;
  subdomain_id : nat;
  get_quadrature_points : list Point
}.

(** [std::min] and [std::max]. *)
Definition std_min (x y : Q) : Q := if Overlap.Qlt_bool y x then y else x.
Definition std_max (x y : Q) : Q := if Overlap.Qlt_bool x y then y else x.

(** A value-initialised [BoundingBox]: both points at the origin. *)
Definition zero_box (spacedim : nat) : BoundingBox :=
  mkBoundingBox (repeat 0%Q spacedim, repeat 0%Q spacedim).

(** [BoundingBox(points)] of deal.II: the smallest and the largest
    coordinate of the points on every axis; the default box when there is no
    point. *)
Definition box_of_points (spacedim : nat) (points : list Point)
  : BoundingBox :=
  match points with
  | [] => zero_box spacedim
  | first :: rest =>
      mkBoundingBox
        (map (fun d =>
                fold_left (fun m p => std_min m (coordinate p d)) rest
                  (coordinate first d)) (seq 0 spacedim),
         map (fun d =>
                fold_left (fun m p => std_max m (coordinate p d)) rest
                  (coordinate first d)) (seq 0 spacedim))
  end.

(** [fbox.get_boundary_points() = dbox.get_boundary_points()]: every
    coordinate is converted from [double] to [float] by [to_float], the
    rounding of the machine. *)
Definition box_to_float (to_float : Q -> Q) (spacedim : nat)
           (dbox : BoundingBox) : BoundingBox :=
  mkBoundingBox
    (map (fun d => to_float (lower_bound dbox d)) (seq 0 spacedim),
     map (fun d => to_float (upper_bound dbox d)) (seq 0 spacedim)).

Definition cell_fbox (to_float : Q -> Q) (spacedim : nat)
           (cell : active_fe_cell) : BoundingBox :=
  box_to_float to_float spacedim
    (box_of_points spacedim (get_quadrature_points cell)).

(** The loop over the active cells on rank [rank]: the boxes of the locally
    owned cells are stored at their active cell index. *)
Fixpoint fill_local (to_float : Q -> Q) (spacedim : nat) (rank : nat)
         (cells : list active_fe_cell) (active_cell_bboxes : list BoundingBox)
  : outcome (list BoundingBox) :=
  match cells with
  | [] => Ret active_cell_bboxes
  | cell :: rest =>
      if (subdomain_id cell =? rank)%nat then
        let fbox := cell_fbox to_float spacedim cell in
        if (fe_active_cell_index cell <? List.length active_cell_bboxes)%nat
        then
          fill_local to_float spacedim rank rest
            (Interaction.replace_at active_cell_bboxes
               (fe_active_cell_index cell) fbox)
        else Undefined
      else fill_local to_float spacedim rank rest active_cell_bboxes
  end.

(** What each rank contributes to the reduction. *)
Fixpoint contributions (to_float : Q -> Q) (spacedim : nat)
         (cells : list active_fe_cell) (ranks : list nat)
  : outcome (list (list BoundingBox)) :=
  match ranks with
  | [] => Ret []
  | rank :: rest =>
      local <- fill_local to_float spacedim rank cells
                 (repeat (zero_box spacedim) (List.length cells)) ;;
      others <- contributions to_float spacedim cells rest ;;
      Ret (local :: others)
  end.

(** The sum of the [2 * spacedim] numbers of two boxes, and of the [n]
    boxes of two tables. *)
Definition box_sum (spacedim : nat) (a b : BoundingBox) : BoundingBox :=
  mkBoundingBox
    (map (fun d => lower_bound a d + lower_bound b d)%Q (seq 0 spacedim),
     map (fun d => upper_bound a d + upper_bound b d)%Q (seq 0 spacedim)).

Definition table_sum (spacedim n : nat) (t1 t2 : list BoundingBox)
  : list BoundingBox :=
  map (fun i => box_sum spacedim (nth i t1 (zero_box spacedim))
                                 (nth i t2 (zero_box spacedim)))
      (seq 0 n).

(** [MPI_Allreduce(MPI_IN_PLACE, ..., MPI_SUM, communicator)]: every rank
    ends with the sum of the tables of all ranks. *)
Definition MPI_Allreduce_sum (spacedim n : nat)
           (tables : list (list BoundingBox)) : outcome (list BoundingBox) :=
  match tables with
  | [] => Undefined
  | first :: rest => Ret (fold_left (table_sum spacedim n) rest first)
  end.

(** [bbox.volume()]. *)
Definition volume (spacedim : nat) (b : BoundingBox) : Q :=
  fold_left (fun v d => v * (upper_bound b d - lower_bound b d))%Q
            (seq 0 spacedim) 1%Q.

(** The loop of assertions over the reduced boxes. *)
Fixpoint assert_volumes (debug : bool) (spacedim : nat)
         (boxes : list BoundingBox) : outcome unit :=
  match boxes with
  | [] => Ret tt
  | bbox :: rest =>
      Assert debug (Overlap.Qlt_bool 0 (volume spacedim bbox))
        (ExcMessage "bboxes should not be empty") ;;;
      assert_volumes debug spacedim rest
  end.

(** The constructor of [FEIntersectionPredicate], run by the [n_ranks]
    ranks of the communicator on the active cells of the shared
    triangulation; the predicate is the one every rank ends with. Taking the
    address of the first box of an empty table is undefined. *)
Definition FEIntersectionPredicate_ctor (debug : bool) (spacedim : nat)
           (to_float : Q -> Q) (bboxes : list BoundingBox)
           (triangulation : nat) (n_ranks : nat)
           (cells : list active_fe_cell)
  : outcome FEIntersectionPredicate :=
  let n_active_cells := List.length cells in
  locals <- contributions to_float spacedim cells (seq 0 n_ranks) ;;
  (if (n_active_cells =? 0)%nat then Undefined else Ret tt) ;;;
  reduced <- MPI_Allreduce_sum spacedim n_active_cells locals ;;
  assert_volumes debug spacedim reduced ;;;
  Ret (mkFEIntersectionPredicate triangulation bboxes reduced).

(** The sum of a list of numbers, and one of the two bounds of a box. *)
Definition total (l : list Q) : Q := fold_right Qplus 0%Q l.

Definition bound (upper : bool) (b : BoundingBox) (d : nat) : Q :=
  if upper then upper_bound b d else lower_bound b d.

(** The active cells are numbered without gaps or repetitions and owned by
    ranks of the communicator. *)
Definition cells_ok (n_ranks : nat) (cells : list active_fe_cell) : Prop :=
  NoDup (map fe_active_cell_index cells) /\
  (forall cell, In cell cells ->
     (fe_active_cell_index cell < List.length cells)%nat /\
     (subdomain_id cell < n_ranks)%nat).

(** Two cells on two ranks, for the examples: the unit square and its
    neighbour, each with its four vertices as support points; and a cell
    with one support point. *)
Definition example_fe_cells : list active_fe_cell :=
  [mk_active_fe_cell 0 0 [[0; 0]; [1; 0]; [0; 1]; [1; 1]]%Q;
   mk_active_fe_cell 1 1 [[1; 0]; [2; 0]; [1; 1]; [2; 1]]%Q].

Definition example_point_cells : list active_fe_cell :=
  [mk_active_fe_cell 0 0 [[1 # 2; 1 # 2]]%Q].

End PredicateSetup.

(* ===================================================================== *)
(** ** Recording native cells in the overlap triangulation               *)
(* ===================================================================== *)

Module OverlapCells.

Import Geometry Mesh Overlap.

(** [OverlapTriangulation::add_native_cell]: [native_tria_address] is the
    address [native_tria] holds and [cell_triangulation] the address of the
    triangulation the iterator belongs to. The result is the triangulation
    with the pair stored and the index of the pair. *)
Definition add_native_cell (debug : bool) (this : OverlapTriangulation)
           (native_tria_address cell_triangulation : address)
           (cell : cell_data)
  : outcome (OverlapTriangulation * nat) :=
  Assert debug (cell_triangulation =? native_tria_address)%nat
    (ExcMessage "should be a native cell") ;;;
  let native_cells1 := native_cells this ++ [(level cell, index cell)] in
  Ret (mkOverlapTriangulation (base this) (native_tria this) native_cells1,
       (List.length native_cells1 - 1)%nat).

End OverlapCells.

(* ===================================================================== *)
(** * Properties                                                         *)
(* ===================================================================== *)

Import Geometry Predicates.

(** ** Outcomes *)

Lemma bind_Ret_inv {A B : Type} (m : outcome A) (k : A -> outcome B) (b : B) :
  bind m k = Ret b -> exists a, m = Ret a /\ k a = Ret b.
Proof. destruct m; cbn; try discriminate. eauto. Qed.

(** Splits a hypothesis [bind m k = Ret b] into the two calls. *)
Ltac bind_inv H :=
  let a := fresh "a" in
  let Ha := fresh "Ha" in
  apply bind_Ret_inv in H; destruct H as (a & Ha & H).

(** ** The [intersects] test *)

Lemma Qle_bool_reflect (x y : Q) : reflect (x <= y)%Q (Qle_bool x y).
Proof.
  destruct (Qle_bool x y) eqn:E; constructor.
  - now apply Qle_bool_iff.
  - intro H. apply Qle_bool_iff in H. congruence.
Qed.

Lemma axis_check_disjuncts (a b : BoundingBox) (d : nat) :
  axis_check a b d = true <-> axis_disjuncts a b d.
Proof.
  unfold axis_check, axis_disjuncts, within.
  destruct (Qle_bool_reflect (lower_bound a d) (lower_bound b d));
  destruct (Qle_bool_reflect (lower_bound b d) (upper_bound a d));
  destruct (Qle_bool_reflect (lower_bound a d) (upper_bound b d));
  destruct (Qle_bool_reflect (upper_bound b d) (upper_bound a d));
  destruct (Qle_bool_reflect (lower_bound b d) (lower_bound a d));
  cbn; split; intro H; try reflexivity; try discriminate; try tauto.
Qed.

Lemma axis_disjuncts_overlap (a b : BoundingBox) (d : nat) :
  (lower_bound a d <= upper_bound a d)%Q ->
  (lower_bound b d <= upper_bound b d)%Q ->
  (axis_disjuncts a b d <-> axis_overlap a b d).
Proof.
  unfold axis_disjuncts, axis_overlap, within. intros Ha Hb. split.
  - intros [[H1 H2] | [[H1 H2] | [H1 H2]]]; split; lra.
  - intros [H1 H2].
    destruct (Qlt_le_dec (lower_bound b d) (lower_bound a d)) as [L | L].
    + right. right. split; lra.
    + left. split; lra.
Qed.

Lemma axis_disjuncts_some (a b : BoundingBox) (d : nat) :
  (lower_bound b d <= upper_bound b d)%Q ->
  (axis_disjuncts a b d <-> axis_some a b d).
Proof.
  unfold axis_disjuncts, axis_some, within. intros Hb. split.
  - intros [[H1 H2] | [[H1 H2] | [H1 H2]]].
    + right. split; lra.
    + destruct (Qlt_le_dec (lower_bound b d) (lower_bound a d)) as [L | L].
      * left. split; lra.
      * right. split; lra.
    + left. split; lra.
  - intros [[H1 H2] | [H1 H2]].
    + right. right. split; lra.
    + left. split; lra.
Qed.

Lemma axis_overlap_sym (a b : BoundingBox) (d : nat) :
  axis_overlap a b d <-> axis_overlap b a d.
Proof. unfold axis_overlap. tauto. Qed.

Lemma intersects_loop_true (a b : BoundingBox) (n d : nat) :
  intersects_loop a b d n = true <->
  forall k, (k < n)%nat -> axis_check a b (d + k) = true.
Proof.
  revert d. induction n as [| n IH]; intro d; cbn.
  - split; [intros _ k Hk; lia | reflexivity].
  - destruct (axis_check a b d) eqn:E.
    + rewrite IH. split.
      * intros H [| k] Hk.
        -- now rewrite Nat.add_0_r.
        -- replace (d + S k)%nat with (S d + k)%nat by lia. apply H. lia.
      * intros H k Hk.
        replace (S d + k)%nat with (d + S k)%nat by lia. apply H. lia.
    + split; [discriminate |].
      intro H. specialize (H 0%nat). rewrite Nat.add_0_r in H.
      rewrite <- E. apply H. lia.
Qed.

Lemma intersects_true (spacedim : nat) (a b : BoundingBox) :
  intersects spacedim a b = true <->
  forall d, (d < spacedim)%nat -> axis_disjuncts a b d.
Proof.
  unfold intersects. rewrite intersects_loop_true. cbn.
  split; intros H d Hd; apply axis_check_disjuncts; now apply H.
Qed.

Lemma intersects_overlap (spacedim : nat) (a b : BoundingBox) :
  well_formed spacedim a -> well_formed spacedim b ->
  (intersects spacedim a b = true <->
   forall d, (d < spacedim)%nat -> axis_overlap a b d).
Proof.
  intros Ha Hb. rewrite intersects_true.
  split; intros H d Hd; apply (axis_disjuncts_overlap a b d); auto.
Qed.

(** C8: on boxes whose lower bound does not exceed the upper bound along
    every axis, [intersects] is commutative, although its test on an axis
    has three disjuncts and not four. *)
Theorem intersects_commutative (spacedim : nat) (a b : BoundingBox) :
  well_formed spacedim a -> well_formed spacedim b ->
  intersects spacedim a b = intersects spacedim b a.
Proof.
  intros Ha Hb.
  apply eq_true_iff_eq.
  rewrite (intersects_overlap Ha Hb), (intersects_overlap Hb Ha).
  split; intros H d Hd; apply axis_overlap_sym; auto.
Qed.

Ltac by_axis d :=
  let k := fresh "k" in
  destruct d as [| [| [| k]]];
  unfold lower_bound, upper_bound, coordinate; cbn; try lra; try lia.

Lemma well_formed_unit_cube : well_formed 3 unit_cube.
Proof. intros d Hd. by_axis d. Qed.

Lemma well_formed_nested_cube : well_formed 3 nested_cube.
Proof. intros d Hd. by_axis d. Qed.

Lemma well_formed_translated (t : Q) : well_formed 3 (unit_cube_translated t).
Proof. intros d Hd. by_axis d. Qed.

Lemma intersects_commutative_witness :
  well_formed 3 unit_cube /\
  well_formed 3 (unit_cube_translated (1 # 2)) /\
  intersects 3 unit_cube (unit_cube_translated (1 # 2)) =
  intersects 3 (unit_cube_translated (1 # 2)) unit_cube.
Proof.
  split; [apply well_formed_unit_cube |].
  split; [apply well_formed_translated |].
  apply intersects_commutative;
    [apply well_formed_unit_cube | apply well_formed_translated].
Defined.

(** Without the order of the bounds the three disjuncts do tell the
    arguments apart. *)
Example intersects_asymmetric_on_reversed_bounds :
  let a := mkBoundingBox ([0], [2])%Q in
  let b := mkBoundingBox ([3], [1])%Q in
  intersects 1 a b = true /\ intersects 1 b a = false.
Proof. split; reflexivity. Qed.

(** ** [TriaIntersectionPredicate] *)

Lemma any_intersects_true (spacedim : nat) (cell_bbox : BoundingBox)
      (bboxes : list BoundingBox) :
  any_intersects spacedim cell_bbox bboxes = true <->
  exists bbox, In bbox bboxes /\ intersects spacedim cell_bbox bbox = true.
Proof.
  induction bboxes as [| bbox rest IH]; cbn.
  - split; [discriminate | intros (x & [] & _)].
  - destruct (intersects spacedim cell_bbox bbox) eqn:E.
    + split; [| reflexivity]. intros _. exists bbox. auto.
    + rewrite IH. split.
      * intros (x & Hx & Hi). exists x. auto.
      * intros (x & [Hx | Hx] & Hi); [subst; congruence |].
        exists x. auto.
Qed.

(** C1, as amended: the predicate holds exactly when some candidate box
    meets the bounding box of the cell on every axis (AND over axes, OR over
    boxes), where on an axis the boxes meet when AT LEAST ONE of the two
    lower bounds lies within the closed interval of the other box; for boxes
    with ordered bounds that is the overlap of the closed intervals. The three
    examples of the specification follow. *)
Theorem tria_predicate_characterisation :
  (forall (spacedim : nat) (p : TriaIntersectionPredicate) (c : cell),
      Forall (well_formed spacedim) (bounding_boxes p) ->
      (TriaIntersectionPredicate_call spacedim p c = true <->
       exists bbox, In bbox (bounding_boxes p) /\
         forall d, (d < spacedim)%nat -> axis_some (bounding_box c) bbox d) /\
      (well_formed spacedim (bounding_box c) ->
       forall bbox d, In bbox (bounding_boxes p) -> (d < spacedim)%nat ->
         (axis_some (bounding_box c) bbox d <->
          axis_overlap (bounding_box c) bbox d))) /\
  TriaIntersectionPredicate_call 3
    (mkTriaIntersectionPredicate [unit_cube_translated 2]) unit_cell = false /\
  TriaIntersectionPredicate_call 3
    (mkTriaIntersectionPredicate [unit_cube_translated (1 # 2)]) unit_cell
    = true /\
  TriaIntersectionPredicate_call 3
    (mkTriaIntersectionPredicate [nested_cube]) unit_cell = true /\
  TriaIntersectionPredicate_call 3
    (mkTriaIntersectionPredicate [unit_cube]) nested_cell = true.
Proof.
  split; [| repeat split; reflexivity].
  intros spacedim p c Hwf. rewrite Forall_forall in Hwf. split.
  - unfold TriaIntersectionPredicate_call. rewrite any_intersects_true.
    split; intros (bbox & Hin & H); exists bbox; split; auto.
    + rewrite intersects_true in H. intros d Hd.
      apply axis_disjuncts_some; auto. now apply Hwf.
    + apply intersects_true. intros d Hd.
      apply axis_disjuncts_some; auto. now apply Hwf.
  - intros Hc bbox d Hin Hd.
    rewrite <- axis_disjuncts_some by (now apply Hwf).
    apply axis_disjuncts_overlap; [now apply Hc | now apply Hwf].
Qed.

Lemma tria_predicate_characterisation_witness :
  Forall (well_formed 3) [unit_cube_translated (1 # 2)] /\
  (TriaIntersectionPredicate_call 3
     (mkTriaIntersectionPredicate [unit_cube_translated (1 # 2)]) unit_cell
   = true <->
   exists bbox, In bbox [unit_cube_translated (1 # 2)] /\
     forall d, (d < 3)%nat -> axis_some unit_cube bbox d).
Proof.
  assert (W : Forall (well_formed 3) [unit_cube_translated (1 # 2)])
    by (constructor; [apply well_formed_translated | constructor]).
  split; [exact W |].
  exact (proj1 (proj1 tria_predicate_characterisation 3%nat
    (mkTriaIntersectionPredicate [unit_cube_translated (1 # 2)])
    unit_cell W)).
Defined.

(** C1, as the specification words it: with EACH lower bound required to
    lie in the other interval, the unit cube and its translate by one half
    would not intersect, yet the predicate answers true. *)
Lemma tria_predicate_each_lower_bound_counterexample :
  TriaIntersectionPredicate_call 3
    (mkTriaIntersectionPredicate [unit_cube_translated (1 # 2)]) unit_cell
  = true /\
  ~ (exists bbox, In bbox [unit_cube_translated (1 # 2)] /\
       forall d, (d < 3)%nat ->
         spec_axis_each (bounding_box unit_cell) bbox d).
Proof.
  split; [reflexivity |].
  intros (bbox & [Hb | []] & H). subst bbox.
  destruct (H 0%nat ltac:(lia)) as [[H1 _] _].
  unfold lower_bound, coordinate in H1. cbn in H1. lra.
Qed.

(** ** [FEIntersectionPredicate] *)


Lemma active_descendant_of_active (c d : cell) :
  is_active c = true -> (active_descendant c d <-> d = c).
Proof.
  intro Ha. split.
  - intro H. inversion H; subst; [reflexivity | congruence].
  - intros ->. now constructor.
Qed.

Lemma active_descendant_of_refined (c d : cell) :
  is_active c = false ->
  (active_descendant c d <->
   exists child, In child (children c) /\ active_descendant child d).
Proof.
  intro Ha. split.
  - intro H. inversion H; subst; [congruence |]. eauto.
  - intros (child & Hin & H). econstructor; eauto.
Qed.

(** The loop over the children returns, and returns true exactly when one
    of the recursive calls does, provided every recursive call returns. *)
Lemma child_loop_returns (self : cell -> outcome bool) (R : cell -> Prop)
      (cs : list cell) :
  Forall (fun ch => exists b, self ch = Ret b /\ (b = true <-> R ch)) cs ->
  exists b, child_loop self cs = Ret b /\
            (b = true <-> exists ch, In ch cs /\ R ch).
Proof.
  induction 1 as [| ch rest (b & Hb & Hiff) _ (b' & Hb' & Hiff')]; cbn.
  - exists false. split; [reflexivity |].
    split; [discriminate | intros (x & [] & _)].
  - rewrite Hb. cbn. destruct b.
    + exists true. split; [reflexivity |].
      split; [| reflexivity]. intros _. exists ch. split; [now left |].
      now apply Hiff.
    + exists b'. split; [exact Hb' |]. rewrite Hiff'. split.
      * intros (x & Hx & Rx). exists x. split; [now right | exact Rx].
      * intros (x & [Hx | Hx] & Rx).
        -- subst x. apply Hiff in Rx. discriminate.
        -- exists x. auto.
Qed.

Lemma Assert_passes (debug : bool) (e : exception) :
  Assert debug true e = Ret tt.
Proof. now destruct debug. Qed.

(** On the cells of a well-shaped triangulation the predicate returns in
    both builds, and answers whether a reachable active cell intersects a
    patch box. *)
Lemma FE_predicate_returns (debug : bool) (spacedim : nat)
      (p : FEIntersectionPredicate) (c : cell) :
  cell_ok p c ->
  exists b, FEIntersectionPredicate_call debug spacedim p c = Ret b /\
    (b = true <->
     exists d, active_descendant c d /\ active_cell_intersects spacedim p d).
Proof.
  induction c as [t a i bb cs IH] using cell_children_ind.
  intro Hok. inversion Hok as [t' i' b' cs' Ht Hi | t' i' b' cs' Ht Hne Hcs];
    subst; cbn [FEIntersectionPredicate_call].
  - rewrite Nat.eqb_refl, Assert_passes. cbn [bind].
    destruct (nth_error (active_cell_bboxes p) i) as [cell_bbox |] eqn:E.
    + eexists. split; [reflexivity |].
      rewrite any_intersects_true. split.
      * intros (bbox & Hin & Hint).
        exists (mk_cell (tria p) true i bb cs). split.
        -- now constructor.
        -- exists cell_bbox, bbox. cbn. auto.
      * intros (d & Hd & cb & bbox & Hnth & Hin & Hint).
        apply active_descendant_of_active in Hd; [| reflexivity]. subst d.
        cbn in Hnth. rewrite E in Hnth. injection Hnth as <-.
        exists bbox. auto.
    + apply nth_error_None in E. lia.
  - rewrite Nat.eqb_refl, Assert_passes. cbn [bind].
    destruct cs as [| c0 cs0]; [congruence |].
    set (cs := c0 :: cs0) in *.
    assert (Hall : Forall (fun ch => exists b,
               FEIntersectionPredicate_call debug spacedim p ch = Ret b /\
               (b = true <->
                exists d, active_descendant ch d /\
                          active_cell_intersects spacedim p d)) cs).
    { rewrite Forall_forall in *. intros ch Hch. apply IH; auto. }
    destruct (child_loop_returns _ _ Hall) as (b & Hb & Hiff).
    exists b. split; [exact Hb |]. rewrite Hiff. split.
    + intros (ch & Hin & d & Hd & Hint). exists d. split; [| exact Hint].
      apply active_descendant_of_refined; [reflexivity |].
      exists ch. split; [exact Hin | exact Hd].
    + intros (d & Hd & Hint).
      apply active_descendant_of_refined in Hd; [| reflexivity].
      destruct Hd as (ch & Hin & Hd). exists ch. split; [exact Hin |]. eauto.
Qed.



Lemma example_refined_cell_ok : cell_ok example_predicate refined_cell.
Proof.
  apply cell_ok_refined; [reflexivity | discriminate |].
  repeat constructor.
Qed.


(** The second child of the refined cell intersects the patch box. *)
Example FE_predicate_example :
  FEIntersectionPredicate_call true 3 example_predicate refined_cell
  = Ret true.
Proof. reflexivity. Qed.

(** ** [OverlapTriangulation::get_native_cell] *)

Import Mesh.

Lemma Qlt_bool_iff (x y : Q) : Overlap.Qlt_bool x y = true <-> (x < y)%Q.
Proof.
  unfold Overlap.Qlt_bool. destruct (Qle_bool_reflect y x) as [H | H]; cbn.
  - split; [discriminate |]. intro L. exfalso. lra.
  - split; [| reflexivity]. intros _. lra.
Qed.

(** The tolerance is the binary64 number 4951760157141521 * 2^-92, the
    one nearest to 10^-12, and it is smaller than 10^-12. *)
Lemma tolerance_value :
  Prim2SF Overlap.tolerance = S754_finite false 4951760157141521 (-92) /\
  (4951760157141521 * 10 ^ 12 < 2 ^ 92)%Z.
Proof. split; [reflexivity | vm_compute; reflexivity]. Qed.

(** C2, as amended: in a build with assertions, a lookup whose indices are
    valid returns the recorded native cell when the norm of the difference
    of the barycenters, computed in binary64, is below the [double] [1e-12]
    and aborts with [ExcInternalError] when it is not, so every native cell
    it returns corresponds to the overlap cell; in a build without
    assertions the recorded native cell is returned unchecked. *)
Theorem get_native_cell_asserts_correspondence
        (spacedim : nat) (this : Overlap.OverlapTriangulation)
        (cell : cell_iterator) :
  (forall native_cell,
      Overlap.get_native_cell true spacedim this cell = Ret native_cell ->
      Overlap.correspond spacedim this cell native_cell) /\
  (forall c native_cell n,
      dereference (Overlap.base this) cell = Some c ->
      nth_error (Overlap.native_cells this) (user_index c) = Some native_cell ->
      dereference (Overlap.native_tria this) native_cell = Some n ->
      (Overlap.barycenters_agree spacedim n c = true ->
       Overlap.get_native_cell true spacedim this cell = Ret native_cell) /\
      (Overlap.barycenters_agree spacedim n c = false ->
       Overlap.get_native_cell true spacedim this cell
       = Abort ExcInternalError)) /\
  (forall c native_cell,
      dereference (Overlap.base this) cell = Some c ->
      nth_error (Overlap.native_cells this) (user_index c) = Some native_cell ->
      Overlap.get_native_cell false spacedim this cell = Ret native_cell).
Proof.
  unfold Overlap.get_native_cell, AssertIndexRange, Assert.
  split; [| split].
  - intros native_cell H.
    destruct (dereference (Overlap.base this) cell) as [c |] eqn:Ec;
      [| discriminate].
    destruct (user_index c <? List.length (Overlap.native_cells this))%nat;
      [| discriminate].
    cbn [bind] in H.
    destruct (nth_error (Overlap.native_cells this) (user_index c))
      as [[l i] |] eqn:En; [| discriminate].
    cbn [fst snd] in H.
    destruct (dereference (Overlap.native_tria this) (l, i)) as [n |] eqn:Ed;
      [| discriminate].
    destruct (Overlap.barycenters_agree spacedim n c) eqn:Ea; [| discriminate].
    cbn in H. injection H as <-.
    exists c, n. repeat split; auto.
  - intros c [l i] n Ec En Ed. rewrite Ec.
    assert (Hlt : (user_index c <? List.length (Overlap.native_cells this))%nat
                  = true).
    { apply Nat.ltb_lt. apply nth_error_Some. congruence. }
    rewrite Hlt. cbn [bind]. rewrite En. cbn [fst snd]. rewrite Ed.
    split; intros ->; reflexivity.
  - intros c [l i] Ec En. rewrite Ec. cbn [bind]. rewrite En. reflexivity.
Qed.

Lemma get_native_cell_asserts_correspondence_witness :
  Overlap.get_native_cell true 3 Overlap.fresh_overlap (0, 0)%Z
  = Ret (0, 0)%Z /\
  Overlap.correspond 3 Overlap.fresh_overlap (0, 0)%Z (0, 0)%Z.
Proof.
  assert (H : Overlap.get_native_cell true 3 Overlap.fresh_overlap (0, 0)%Z
              = Ret (0, 0)%Z) by reflexivity.
  split; [exact H |].
  exact (proj1 (get_native_cell_asserts_correspondence 3
                  Overlap.fresh_overlap (0, 0)%Z) (0, 0)%Z H).
Defined.

(** C2, as the specification words it, fails in a build without assertions:
    after the native mesh has moved, the lookup still returns the recorded
    native cell, whose barycenter is one unit away, and nothing aborts. *)
Lemma get_native_cell_release_counterexample :
  Overlap.get_native_cell false 3 Overlap.stale_overlap (0, 0)%Z
  = Ret (0, 0)%Z /\
  ~ Overlap.correspond 3 Overlap.stale_overlap (0, 0)%Z (0, 0)%Z /\
  ~ fatal (Overlap.get_native_cell false 3 Overlap.stale_overlap (0, 0)%Z).
Proof.
  split; [reflexivity |]. split.
  - intros (c & n & Hc & Hn & Hlt).
    cbn in Hc, Hn. injection Hc as <-. injection Hn as <-.
    vm_compute in Hlt. discriminate.
  - intros (e & He). discriminate.
Qed.

(** The same stale mesh is caught in a build with assertions. *)
Example get_native_cell_debug_stale :
  Overlap.get_native_cell true 3 Overlap.stale_overlap (0, 0)%Z
  = Abort ExcInternalError.
Proof. reflexivity. Qed.

(** The bound is strict and is the binary64 number: a native cell that is
    away by exactly that number is refused, one that is away by the next
    smaller binary64 number is accepted. *)
Example get_native_cell_at_the_tolerance :
  Overlap.get_native_cell true 3
    (Overlap.shifted_overlap 0x1.19799812dea11p-40) (0, 0)%Z
  = Abort ExcInternalError /\
  Overlap.get_native_cell true 3
    (Overlap.shifted_overlap 0x1.19799812dea10p-40) (0, 0)%Z
  = Ret (0, 0)%Z.
Proof. split; reflexivity. Qed.

(** ** [Part]: setting the position and the velocity *)

Import Mechanics.

(** The assignment copies the entries, and the whole vector when the two
    vectors share their partitioner. *)
Lemma Vector_assign_values (same_local_ranges : address -> address -> bool)
      (v c : LA.Vector) :
  LA.values (Vector_assign same_local_ranges v c) = LA.values c.
Proof.
  unfold Vector_assign.
  destruct (LA.get_partitioner v =? LA.get_partitioner c)%nat;
    [reflexivity |].
  now destruct (same_local_ranges _ _).
Qed.

Lemma Vector_assign_same_partitioner
      (same_local_ranges : address -> address -> bool) (v c : LA.Vector) :
  LA.get_partitioner v = LA.get_partitioner c ->
  Vector_assign same_local_ranges v c = c.
Proof.
  intro H. unfold Vector_assign. now rewrite H, Nat.eqb_refl.
Qed.

Lemma Vector_assign_other_ranges
      (same_local_ranges : address -> address -> bool) (v c : LA.Vector) :
  same_local_ranges (LA.get_partitioner v) (LA.get_partitioner c) = false ->
  Vector_assign same_local_ranges v c = c.
Proof.
  intro H. unfold Vector_assign. rewrite H.
  now destruct (LA.get_partitioner v =? LA.get_partitioner c)%nat.
Qed.

Lemma Vector_assign_keeps_partitioner
      (same_local_ranges : address -> address -> bool) (v c : LA.Vector) :
  same_local_ranges (LA.get_partitioner v) (LA.get_partitioner c) = true ->
  LA.get_partitioner (Vector_assign same_local_ranges v c)
  = LA.get_partitioner v.
Proof.
  intro H. unfold Vector_assign. rewrite H.
  destruct (Nat.eqb_spec (LA.get_partitioner v) (LA.get_partitioner c));
    [congruence | reflexivity].
Qed.

Lemma get_triangulation_inj (debug : bool) (a b : Part) :
  get_triangulation debug a = get_triangulation debug b -> tria a = tria b.
Proof.
  unfold get_triangulation, Assert.
  destruct debug, (tria a), (tria b); cbn; congruence.
Qed.

(** The frame of [set_position] leaves no member but the position free:
    two parts it relates differ in the position at most. *)
Lemma unchanged_but_position_all_members (debug : bool)
      (before after : Part) :
  unchanged_but_position debug before after ->
  after
  = mkPart (tria before) (fe before) (dof_handler before)
      (constraints before) (partitioner before) (quadrature before)
      (mapping before) (matrix_free before) (mass_operator before)
      (mass_preconditioner before) (position after) (velocity before)
      (force_contributions before).
Proof.
  intros (Hv & Ht & Hd & Hp & Hq & Hm & Ho & Hc & Hfe & Hco & Hmf & Hfc).
  apply get_triangulation_inj in Ht.
  destruct before, after. cbn in *. congruence.
Qed.

Lemma unchanged_but_velocity_all_members (debug : bool)
      (before after : Part) :
  unchanged_but_velocity debug before after ->
  after
  = mkPart (tria before) (fe before) (dof_handler before)
      (constraints before) (partitioner before) (quadrature before)
      (mapping before) (matrix_free before) (mass_operator before)
      (mass_preconditioner before) (position before) (velocity after)
      (force_contributions before).
Proof.
  intros (Hv & Ht & Hd & Hp & Hq & Hm & Ho & Hc & Hfe & Hco & Hmf & Hfc).
  apply get_triangulation_inj in Ht.
  destruct before, after. cbn in *. congruence.
Qed.

(** C9: with a vector on the partitioner of the part, both overloads of
    [set_position] return and only the position has changed: every other
    member, and so what every accessor returns, is what it was. The
    position then has the entries of the argument; after the overload that
    swaps it is the argument, and so it is after the overload that copies
    when the stored position was on the partitioner of the part, as the
    assertions keep it. [set_velocity] does the same for the velocity and
    leaves the position. *)
Theorem set_position_changes_only_position
        (debug : bool) (same_local_ranges : address -> address -> bool)
        (this : Part) (X : LA.Vector) :
  LA.get_partitioner X = partitioner this ->
  (exists this',
      set_position debug same_local_ranges this X = Ret this' /\
      LA.values (get_position this') = LA.values X /\
      (LA.get_partitioner (get_position this) = partitioner this ->
       get_position this' = X) /\
      unchanged_but_position debug this this') /\
  (exists this',
      set_position_move debug this X = Ret (this', get_position this) /\
      get_position this' = X /\ unchanged_but_position debug this this') /\
  (exists this',
      set_velocity debug same_local_ranges this X = Ret this' /\
      LA.values (get_velocity this') = LA.values X /\
      (LA.get_partitioner (get_velocity this) = partitioner this ->
       get_velocity this' = X) /\
      unchanged_but_velocity debug this this') /\
  (exists this',
      set_velocity_move debug this X = Ret (this', get_velocity this) /\
      get_velocity this' = X /\ unchanged_but_velocity debug this this').
Proof.
  intro HX.
  unfold set_position, set_position_move, set_velocity, set_velocity_move.
  rewrite HX, Nat.eqb_refl, Assert_passes. cbn [bind].
  split; [| split; [| split]]; eexists; (split; [reflexivity |]).
  - split; [apply Vector_assign_values |]. split.
    + intro Hp. apply Vector_assign_same_partitioner.
      unfold get_position in Hp. congruence.
    + repeat split.
  - split; [reflexivity | repeat split].
  - split; [apply Vector_assign_values |]. split.
    + intro Hp. apply Vector_assign_same_partitioner.
      unfold get_velocity in Hp. congruence.
    + repeat split.
  - split; [reflexivity | repeat split].
Qed.

Lemma set_position_changes_only_position_witness :
  LA.get_partitioner example_vector = partitioner example_part /\
  exists this',
    set_position true same_ranges_always example_part example_vector
    = Ret this' /\
    LA.values (get_position this') = LA.values example_vector /\
    (LA.get_partitioner (get_position example_part)
     = partitioner example_part ->
     get_position this' = example_vector) /\
    unchanged_but_position true example_part this'.
Proof.
  split; [reflexivity |].
  exact (proj1 (set_position_changes_only_position true same_ranges_always
                  example_part example_vector eq_refl)).
Defined.

(** On the part of the examples the position is then the argument, and
    nothing else has moved. *)
Example set_position_example :
  set_position true same_ranges_always example_part example_vector
  = Ret example_moved_part /\
  set_position false same_ranges_never example_part example_vector
  = Ret example_moved_part.
Proof. split; reflexivity. Qed.

(** ** [FiberNetwork::get_fibers] *)

Import Fibers.

Lemma table_at_in_range (debug : bool) (t : Table) (i : Z) (j : nat) :
  table_ok t -> (0 <= i < Z.of_nat (n_rows t))%Z -> (j < n_cols t)%nat ->
  table_at debug t i j
  = Ret (nth (Z.to_nat i * n_cols t + j) (table_values t) []).
Proof.
  intros Hok Hi Hj. unfold table_at, AssertIndexRange.
  assert (Hi' : (i <? Z.of_nat (n_rows t))%Z = true) by (apply Z.ltb_lt; lia).
  apply Nat.ltb_lt in Hj as Hj'.
  rewrite Hi', Hj', !Assert_passes. cbn [bind].
  assert (Hlt : (Z.to_nat i * n_cols t + j < List.length (table_values t))%nat).
  { rewrite Hok. assert (Z.to_nat i < n_rows t)%nat by lia. nia. }
  destruct (nth_error (table_values t) (Z.to_nat i * n_cols t + j))
    as [x |] eqn:E.
  - now rewrite (nth_error_nth _ _ _ E).
  - apply nth_error_None in E. lia.
Qed.

Lemma push_fibers_appends (debug : bool) (t : Table) (c : Z) :
  table_ok t -> (0 <= c < Z.of_nat (n_rows t))%Z ->
  (Z.of_nat (n_cols t) <= INT_MAX)%Z ->
  forall n j fiber, (j + n = n_cols t)%nat ->
    push_fibers debug t c j n fiber
    = Ret (fiber ++
           map (fun k => nth (Z.to_nat c * n_cols t + k) (table_values t) [])
               (seq j n)).
Proof.
  intros Hok Hc Hmax. induction n as [| n IH]; intros j fiber Hj; cbn.
  - now rewrite app_nil_r.
  - rewrite table_at_in_range by (auto; lia). cbn [bind].
    destruct (Z.leb_spec INT_MAX (Z.of_nat j)) as [L | L]; [lia |].
    rewrite IH by lia. now rewrite <- app_assoc.
Qed.

(** Whatever the loop returns was read from row [c], column after
    column. *)
Lemma push_fibers_inv (debug : bool) (t : Table) (c : Z) :
  forall n j fiber result,
    push_fibers debug t c j n fiber = Ret result ->
    exists read,
      result = fiber ++ read /\ List.length read = n /\
      forall k, (k < n)%nat ->
        exists x, nth_error read k = Some x /\
                  table_at debug t c (j + k) = Ret x.
Proof.
  induction n as [| n IH]; intros j fiber result H; cbn in H.
  - injection H as <-. exists []. split; [now rewrite app_nil_r |].
    split; [reflexivity |]. intros k Hk. lia.
  - bind_inv H. destruct (INT_MAX <=? Z.of_nat j)%Z; [discriminate |].
    apply IH in H as (read & -> & Hlen & Hread).
    exists (a :: read). split; [now rewrite <- app_assoc |].
    split; [cbn; lia |].
    intros [| k] Hk.
    + exists a. rewrite Nat.add_0_r. auto.
    + destruct (Hread k ltac:(lia)) as (x & Hx & Ht).
      exists x. replace (j + S k)%nat with (S j + k)%nat by lia. auto.
Qed.

(** C10: every call of [get_fibers] that returns yields a new vector with
    one entry per fiber column, entry [j] being [fibers(c, j)] for the index
    [c] of the cell (its global active cell index minus the minimum local
    cell index), and leaves the network, with its table, and the vectors
    allocated before as they were; the call returns whenever [c] is a row of
    the table. *)
Theorem get_fibers_returns_row
        (debug : bool) (bits : N) (this : FiberNetwork) (heap : Heap)
        (cell : active_cell) :
  let c := cell_index_of bits this cell in
  (forall this' heap' fiber_ptr,
      get_fibers debug bits this heap cell = Ret (this', heap', fiber_ptr) ->
      this' = this /\
      exists fiber,
        heap' = heap ++ [fiber] /\
        nth_error heap' fiber_ptr = Some fiber /\
        List.length fiber = size_1 (fibers this) /\
        forall j, (j < size_1 (fibers this))%nat ->
          exists x, nth_error fiber j = Some x /\
                    table_at debug (fibers this) c j = Ret x) /\
  (table_ok (fibers this) ->
   (c < Z.of_nat (n_rows (fibers this)))%Z ->
   (Z.of_nat (size_1 (fibers this)) <= INT_MAX)%Z ->
   get_fibers debug bits this heap cell
   = Ret (this, heap ++ [row (fibers this) c], List.length heap)) /\
  ((local_processor_min_cell_index this <= global_active_cell_index cell
    < local_processor_min_cell_index this + 2 ^ Z.of_N bits)%Z ->
   c = (global_active_cell_index cell - local_processor_min_cell_index this)%Z).
Proof.
  intros c. unfold get_fibers. fold c.
  split; [| split].
  - intros this' heap' fiber_ptr H. bind_inv H.
    injection H as <- <- <-. split; [reflexivity |].
    apply push_fibers_inv in Ha as (read & -> & Hlen & Hread).
    cbn [app]. exists read. split; [reflexivity |]. split.
    { rewrite nth_error_app2 by lia. now rewrite Nat.sub_diag. }
    split; [exact Hlen |]. intros j Hj. apply Hread. exact Hj.
  - intros Hok Hc Hmax. unfold size_1 in *.
    assert (Hc0 : (0 <= c)%Z).
    { unfold c, cell_index_of. apply Z.mod_pos_bound.
      apply Z.pow_pos_nonneg; lia. }
    rewrite (@push_fibers_appends debug (fibers this) c Hok
               (conj Hc0 Hc) Hmax) by lia.
    reflexivity.
  - intros Hrange. unfold c, cell_index_of.
    apply Z.mod_small. lia.
Qed.

Lemma get_fibers_returns_row_witness :
  table_ok (fibers example_network) /\
  get_fibers true 32 example_network [] (mk_active_cell 11)
  = Ret (example_network, [] ++ [row (fibers example_network) 1], 0%nat).
Proof.
  assert (Hok : table_ok (fibers example_network)) by reflexivity.
  split; [exact Hok |].
  apply (proj1 (proj2 (@get_fibers_returns_row true 32%N example_network []
                         (mk_active_cell 11)))).
  - exact Hok.
  - vm_compute. reflexivity.
  - vm_compute. discriminate.
Defined.

Example get_fibers_second_cell :
  get_fibers true 32 example_network [] (mk_active_cell 11)
  = Ret (example_network, [[[1; 1]; [1; -1]]]%Q, 0%nat).
Proof. reflexivity. Qed.

(** A cell below the local range: the unsigned difference wraps around and
    is no row of the table. *)
Example get_fibers_below_local_range :
  cell_index_of 32 example_network (mk_active_cell 9) = 4294967295%Z /\
  get_fibers true 32 example_network [] (mk_active_cell 9)
  = Abort ExcIndexRange /\
  get_fibers false 32 example_network [] (mk_active_cell 9) = Undefined.
Proof. repeat split. Qed.

(** ** [InteractionBase]: the registry of DoF handlers *)

Import LA Interaction Pipeline.

Lemma find_position_None (l : list address) (ptr : address) :
  find_position l ptr = None <-> ~ In ptr l.
Proof.
  induction l as [| x rest IH]; cbn.
  - tauto.
  - destruct (Nat.eqb_spec x ptr) as [-> | Hne].
    + split; [discriminate | tauto].
    + destruct (find_position rest ptr) as [i |]; cbn.
      * split; [discriminate |]. intro H. exfalso. apply H. right.
        destruct (in_dec Nat.eq_dec ptr rest) as [Hin | Hout]; [exact Hin |].
        apply IH in Hout. discriminate.
      * split; [| reflexivity]. intros _ [Heq | Hin]; [congruence |].
        now apply (proj1 IH).
Qed.

Lemma find_position_Some (l : list address) (ptr : address) (i : nat) :
  find_position l ptr = Some i -> (i < List.length l)%nat /\ In ptr l.
Proof.
  revert i. induction l as [| x rest IH]; cbn; intros i H; [discriminate |].
  destruct (Nat.eqb_spec x ptr) as [-> | Hne].
  - injection H as <-. split; [lia | now left].
  - destruct (find_position rest ptr) as [j |]; cbn in H; [| discriminate].
    injection H as <-. destruct (IH j eq_refl). split; [lia | now right].
Qed.

Lemma find_position_In (l : list address) (ptr : address) :
  In ptr l -> exists i, find_position l ptr = Some i.
Proof.
  intro Hin. destruct (find_position l ptr) as [i |] eqn:E; [eauto |].
  apply find_position_None in E. contradiction.
Qed.

Lemma length_replace_at {A : Type} (l : list A) (i : nat) (x : A) :
  List.length (replace_at l i x) = List.length l.
Proof.
  revert i. induction l as [| y r IH]; intros [| i]; cbn; auto.
Qed.

Lemma nth_error_replace_at {A : Type} (l : list A) (i : nat) (x : A) :
  (i < List.length l)%nat -> nth_error (replace_at l i x) i = Some x.
Proof.
  revert i. induction l as [| y r IH]; intros [| i]; cbn; intro H;
    try lia; auto. apply IH. lia.
Qed.

(** What the registry holds is not touched by [reinit]. *)
Lemma reinit_keeps_registry debug spacedim E mem this n_tria bboxes
      hierarchy l cache mem' this' :
  reinit debug spacedim E mem this n_tria bboxes hierarchy l cache
  = Ret (mem', this') ->
  native_dof_handlers this' = native_dof_handlers this /\
  overlap_dof_handlers this' = overlap_dof_handlers this /\
  scatters this' = scatters this.
Proof.
  unfold reinit. intro H.
  bind_inv H. bind_inv H.
  destruct (if a0 then _ else _) as [mem1 communicator1].
  repeat bind_inv H.
  injection H as _ <-. cbn. auto.
Qed.

Lemma registry_ok_same (this this' : InteractionBase) :
  native_dof_handlers this' = native_dof_handlers this ->
  List.length (overlap_dof_handlers this')
  = List.length (overlap_dof_handlers this) ->
  List.length (scatters this') = List.length (scatters this) ->
  registry_ok this -> registry_ok this'.
Proof.
  unfold registry_ok. intros -> -> ->. auto.
Qed.

Lemma add_dof_handler_registry_ok E mem this handler this' :
  add_dof_handler E mem this handler = Ret this' ->
  registry_ok this -> registry_ok this'.
Proof.
  unfold add_dof_handler. intros H (Hnd & Ho & Hs).
  bind_inv H. bind_inv H.
  destruct (find_position (native_dof_handlers this) handler) eqn:E0.
  - injection H as <-. split; auto.
  - injection H as <-. apply find_position_None in E0.
    unfold registry_ok. cbn. rewrite !length_app. cbn.
    split; [| lia].
    apply NoDup_app; auto.
    + constructor; [intros [] | constructor].
    + intros x Hx [<- | []]. contradiction.
Qed.

Lemma start_keeps_registry debug mem this f q qi Xh X Fh Fm F this' trans :
  compute_projection_rhs_start debug mem this f q qi Xh X Fh Fm F
  = Ret (this', trans) ->
  native_dof_handlers this' = native_dof_handlers this /\
  overlap_dof_handlers this' = overlap_dof_handlers this /\
  List.length (scatters this') = List.length (scatters this).
Proof.
  unfold compute_projection_rhs_start. intro H.
  repeat bind_inv H. destruct a2 as [X_position X_scatter].
  bind_inv H. injection H as <- _. cbn.
  now rewrite length_replace_at.
Qed.

Lemma intermediate_keeps_registry debug mem this trans this' trans' :
  compute_projection_rhs_intermediate debug mem this trans
  = Ret (this', trans') ->
  native_dof_handlers this' = native_dof_handlers this /\
  overlap_dof_handlers this' = overlap_dof_handlers this /\
  List.length (scatters this') = List.length (scatters this).
Proof.
  unfold compute_projection_rhs_intermediate. intro H.
  repeat bind_inv H. destruct a1 as [X_position X_scatter].
  bind_inv H.
  destruct (global_to_overlap_finish _ _ _) as [X_scatter1 overlap_X].
  cbn [export_to_ghosted_array_finish] in H.
  bind_inv H. destruct a2 as [F_position F_scatter].
  bind_inv H. injection H as <- _. cbn.
  now rewrite !length_replace_at.
Qed.

Lemma finish_keeps_registry debug mem this trans mem' this' trans' :
  compute_projection_rhs_finish debug mem this trans
  = Ret (mem', this', trans') ->
  native_dof_handlers this' = native_dof_handlers this /\
  overlap_dof_handlers this' = overlap_dof_handlers this /\
  List.length (scatters this') = List.length (scatters this).
Proof.
  unfold compute_projection_rhs_finish. intro H.
  repeat bind_inv H. destruct a1 as [F_position F_scatter].
  bind_inv H.
  destruct (overlap_to_global_finish _ _ _ _) as [F_scatter1 F_values].
  injection H as _ <- _. cbn.
  now rewrite length_replace_at.
Qed.

Lemma reachable_registry_ok (E : Collaborators) (this : InteractionBase) :
  reachable E this -> registry_ok this.
Proof.
  induction 1 as
    [ debug spacedim mem n_tria bboxes hierarchy l cache mem' this H
    | debug spacedim mem this n_tria bboxes hierarchy l cache mem' this' _ IH H
    | mem this handler this' _ IH H
    | debug mem this f q qi Xh X Fh Fm F this' trans _ IH H
    | debug mem this trans this' trans' _ IH H
    | debug mem this trans mem' this' trans' _ IH H ].
  - apply reinit_keeps_registry in H as (H1 & H2 & H3).
    unfold registry_ok. rewrite H1, H2, H3. cbn.
    repeat split; auto. constructor.
  - apply reinit_keeps_registry in H as (H1 & H2 & H3).
    apply (@registry_ok_same this this'); auto; congruence.
  - eapply add_dof_handler_registry_ok; eauto.
  - apply start_keeps_registry in H as (H1 & H2 & H3).
    apply (@registry_ok_same this this'); auto; congruence.
  - apply intermediate_keeps_registry in H as (H1 & H2 & H3).
    apply (@registry_ok_same this this'); auto; congruence.
  - apply finish_keeps_registry in H as (H1 & H2 & H3).
    apply (@registry_ok_same this this'); auto; congruence.
Qed.

(** C6: registering a native DoF handler that the registry holds changes
    nothing; registering a new one appends one native handler, one overlap
    handler and one scatter built from the translation table, and leaves the
    other members; a second registration of the same handler is a no-op; the
    pipeline objects the public functions produce never hold a native
    handler twice and hold one overlap handler and one scatter for each. *)
Theorem add_dof_handler_idempotent
        (E : Collaborators) (mem : Memory) (this : InteractionBase)
        (handler : address) (dh : DoFHandler) :
  dof_handlers mem handler = Some dh ->
  dof_triangulation dh = native_tria this ->
  (In handler (native_dof_handlers this) ->
   add_dof_handler E mem this handler = Ret this) /\
  (~ In handler (native_dof_handlers this) ->
   exists this' overlap_handler,
     add_dof_handler E mem this handler = Ret this' /\
     native_dof_handlers this' = native_dof_handlers this ++ [handler] /\
     overlap_dof_handlers this'
     = overlap_dof_handlers this ++ [overlap_handler] /\
     scatters this'
     = scatters this ++
       [new_Scatter
          (compute_overlap_to_native_dof_translation E (overlap_tria this)
             overlap_handler dh)
          (dof_locally_owned_dofs dh) (communicator this)] /\
     same_mesh_members this this') /\
  (exists this',
     add_dof_handler E mem this handler = Ret this' /\
     In handler (native_dof_handlers this') /\
     add_dof_handler E mem this' handler = Ret this') /\
  (reachable E this -> registry_ok this) /\
  (registry_ok this ->
   forall this', add_dof_handler E mem this handler = Ret this' ->
                 registry_ok this').
Proof.
  intros Hdh Htria.
  assert (Hin : In handler (native_dof_handlers this) ->
                add_dof_handler E mem this handler = Ret this).
  { intro H. unfold add_dof_handler. rewrite Hdh. cbn [deref bind].
    rewrite Htria, Nat.eqb_refl. cbn [AssertThrow bind].
    destruct (find_position_In _ _ H) as (i & ->). reflexivity. }
  assert (Hout : ~ In handler (native_dof_handlers this) ->
     exists this' overlap_handler,
       add_dof_handler E mem this handler = Ret this' /\
       native_dof_handlers this' = native_dof_handlers this ++ [handler] /\
       overlap_dof_handlers this'
       = overlap_dof_handlers this ++ [overlap_handler] /\
       scatters this'
       = scatters this ++
         [new_Scatter
            (compute_overlap_to_native_dof_translation E (overlap_tria this)
               overlap_handler dh)
            (dof_locally_owned_dofs dh) (communicator this)] /\
       same_mesh_members this this').
  { intro H. unfold add_dof_handler. rewrite Hdh. cbn [deref bind].
    rewrite Htria, Nat.eqb_refl. cbn [AssertThrow bind].
    apply find_position_None in H. rewrite H.
    eexists. eexists. split; [reflexivity |]. cbn.
    unfold same_mesh_members. cbn. repeat split. }
  split; [exact Hin |]. split; [exact Hout |]. split.
  - destruct (in_dec Nat.eq_dec handler (native_dof_handlers this))
      as [H | H].
    + exists this. auto.
    + destruct (Hout H) as (this' & oh & Hadd & Hn & _ & _ & Hsame).
      exists this'. split; [exact Hadd |].
      assert (Hin' : In handler (native_dof_handlers this'))
        by (rewrite Hn; apply in_or_app; right; now left).
      split; [exact Hin' |].
      unfold add_dof_handler. rewrite Hdh. cbn [deref bind].
      destruct Hsame as (_ & -> & _).
      rewrite Htria, Nat.eqb_refl. cbn [AssertThrow bind].
      destruct (find_position_In _ _ Hin') as (i & ->). reflexivity.
  - split; [apply reachable_registry_ok |].
    intros Hok this' Hadd. eapply add_dof_handler_registry_ok; eauto.
Qed.

Lemma add_dof_handler_idempotent_witness :
  dof_handlers example_memory 10%nat = Some (mkDoFHandler 1 0 3 [0; 1; 2]%nat) /\
  In 10%nat (native_dof_handlers example_base) /\
  add_dof_handler example_collaborators example_memory example_base 10%nat
  = Ret example_base.
Proof.
  split; [reflexivity |].
  assert (Hin : In 10%nat (native_dof_handlers example_base)) by (now left).
  split; [exact Hin |].
  exact (proj1 (@add_dof_handler_idempotent example_collaborators
                  example_memory example_base 10%nat
                  (mkDoFHandler 1 0 3 [0; 1; 2]%nat) eq_refl eq_refl) Hin).
Defined.

(** The pipeline object of the examples is the one its constructor and one
    registration produce. *)
Example example_base_reachable : reachable example_collaborators example_base.
Proof.
  eapply reachable_add with (mem := example_memory) (handler := 10%nat).
  - eapply reachable_ctor with (debug := true) (spacedim := 3%nat)
      (mem := example_memory) (n_tria := 1%nat) (bboxes := [unit_cube])
      (hierarchy := Some 5%nat) (l := 0%Z) (cache := Some 6%nat).
    reflexivity.
  - reflexivity.
Qed.

(** A handler on another triangulation is refused in every build. *)
Example add_dof_handler_other_triangulation :
  add_dof_handler example_collaborators example_memory
    (set_native_tria_for_example example_base) 10%nat
  = Throw (ExcMessage "The DoFHandler must use the underlying native triangulation.").
Proof. reflexivity. Qed.

(** ** [InteractionBase::reinit]: the dedicated communicator *)

(** C7, as amended: a call of [reinit] that returns on an object whose
    communicator is not null leaves the communicator, and the handles of
    MPI, as they were when the new triangulation has the communicator
    handle of the previous one; the communicator is a new duplicate exactly
    when it was still null or the two triangulations have different
    communicator handles. The process groups of the handles are not
    compared: with two handles on one process group the communicator is
    replaced by a new handle on that same group. *)
Theorem reinit_duplicates_communicator_only_on_change
        (debug : bool) (spacedim : nat) (E : Collaborators) (mem : Memory)
        (this : InteractionBase) (n_tria : address)
        (bboxes : list BoundingBox) (hierarchy : option address) (l : Z)
        (cache : option address) (mem' : Memory) (this' : InteractionBase)
        (old_tria new_tria : Triangulation) :
  triangulations mem (native_tria this) = Some old_tria ->
  triangulations mem n_tria = Some new_tria ->
  reinit debug spacedim E mem this n_tria bboxes hierarchy l cache
  = Ret (mem', this') ->
  (communicator this <> MPI_COMM_NULL ->
   get_communicator old_tria = get_communicator new_tria ->
   communicator this' = communicator this /\
   next_communicator mem' = next_communicator mem /\
   (forall c, group_of mem' c = group_of mem c)) /\
  (communicator this = MPI_COMM_NULL \/
   get_communicator old_tria <> get_communicator new_tria ->
   communicator this' = next_communicator mem /\
   next_communicator mem' = S (next_communicator mem) /\
   group_of mem' (communicator this')
   = group_of mem (get_communicator new_tria)) /\
  (communicator this <> MPI_COMM_NULL ->
   (communicator this < next_communicator mem)%nat ->
   get_communicator old_tria <> get_communicator new_tria ->
   group_of mem (get_communicator old_tria)
   = group_of mem (get_communicator new_tria) ->
   communicator this' <> communicator this /\
   group_of mem' (communicator this')
   = group_of mem (get_communicator old_tria)).
Proof.
  intros Hold Hnew H. unfold reinit in H.
  rewrite Hnew in H. cbn [deref bind] in H.
  destruct (Nat.eqb_spec (communicator this) MPI_COMM_NULL) as [Hnull | Hset].
  - cbn [bind] in H. cbn [duplicate_communicator] in H.
    repeat bind_inv H. injection H as <- <-. cbn.
    split; [intro C; contradiction |]. split.
    + intros _. rewrite Nat.eqb_refl. auto.
    + intro C. contradiction.
  - rewrite Hold in H. cbn [deref bind] in H.
    destruct (Nat.eqb_spec (get_communicator old_tria)
                           (get_communicator new_tria)) as [Hsame | Hdiff];
      cbn [negb duplicate_communicator] in H;
      repeat bind_inv H; injection H as <- <-; cbn.
    + split; [auto |]. split.
      * intros [C | C]; contradiction.
      * intros _ _ C. contradiction.
    + split; [intros _ C; contradiction |]. split.
      * intros _. rewrite Nat.eqb_refl. auto.
      * intros _ Hfresh _ Hgroup. rewrite Nat.eqb_refl. split; [lia | auto].
Qed.

Lemma reinit_duplicates_communicator_only_on_change_witness :
  exists mem' this',
    reinit true 3 example_collaborators example_running_memory example_base
      2%nat [unit_cube] (Some 5%nat) 0%Z (Some 6%nat)
    = Ret (mem', this') /\
    communicator this' = communicator example_base /\
    next_communicator mem' = next_communicator example_running_memory.
Proof.
  eexists. eexists.
  assert (H : reinit true 3 example_collaborators example_running_memory
                example_base 2%nat [unit_cube] (Some 5%nat) 0%Z (Some 6%nat)
              = Ret (example_running_memory,
                     set_native_tria_for_example example_base))
    by reflexivity.
  split; [exact H |].
  destruct (proj1 (@reinit_duplicates_communicator_only_on_change
                     true 3%nat example_collaborators example_running_memory
                     example_base 2%nat [unit_cube] (Some 5%nat) 0%Z
                     (Some 6%nat) _ _
                     (mkTriangulation 1 [Overlap.overlap_cell])
                     (mkTriangulation 1 [Overlap.overlap_cell])
                     eq_refl eq_refl H))
    as (H1 & H2 & _).
  - discriminate.
  - reflexivity.
  - split; [exact H1 | exact H2].
Defined.

(** C7, as the specification words it, fails: the triangulation at address
    3 has another communicator handle on the process group of the previous
    one, the pipeline's communicator is not null, and [reinit] replaces it
    by a new duplicate although the process group has not changed, in both
    builds. *)
Lemma reinit_same_process_group_counterexample :
  exists old_tria new_tria mem' this',
    triangulations example_running_memory (native_tria example_base)
    = Some old_tria /\
    triangulations example_running_memory 3%nat = Some new_tria /\
    communicator example_base <> MPI_COMM_NULL /\
    group_of example_running_memory (get_communicator old_tria)
    = group_of example_running_memory (get_communicator new_tria) /\
    reinit true 3 example_collaborators example_running_memory example_base
      3%nat [unit_cube] (Some 5%nat) 0%Z (Some 6%nat)
    = Ret (mem', this') /\
    reinit false 3 example_collaborators example_running_memory example_base
      3%nat [unit_cube] (Some 5%nat) 0%Z (Some 6%nat)
    = Ret (mem', this') /\
    communicator this' <> communicator example_base /\
    group_of mem' (communicator this')
    = group_of example_running_memory (communicator example_base).
Proof.
  do 4 eexists.
  split; [reflexivity |]. split; [reflexivity |].
  split; [discriminate |]. split; [reflexivity |].
  split; [reflexivity |]. split; [reflexivity |].
  split; [discriminate | reflexivity].
Qed.

(** On the triangulation at address 3, whose communicator is another one,
    the communicator is duplicated anew. *)
Example reinit_on_another_communicator :
  exists mem' this',
    reinit true 3 example_collaborators example_running_memory example_base
      3%nat [unit_cube] (Some 5%nat) 0%Z (Some 6%nat)
    = Ret (mem', this') /\
    communicator this' = 4%nat /\ next_communicator mem' = 5%nat.
Proof. eexists. eexists. split; [reflexivity |]. split; reflexivity. Qed.

(** The first initialisation, in the constructor, duplicates. *)
Example constructor_duplicates_communicator :
  exists mem' this',
    InteractionBase_ctor true 3 example_collaborators example_memory
      1%nat [unit_cube] (Some 5%nat) 0%Z (Some 6%nat)
    = Ret (mem', this') /\
    communicator this' = 3%nat /\ next_communicator mem' = 4%nat.
Proof. eexists. eexists. split; [reflexivity |]. split; reflexivity. Qed.

(** ** The phases of a projection transaction *)

Lemma State_eqb_eq (a b : State) : State_eqb a b = true <-> a = b.
Proof. destruct a, b; cbn; split; intro H; congruence. Qed.

Lemma Operation_eqb_eq (a b : Operation) : Operation_eqb a b = true <-> a = b.
Proof. destruct a, b; cbn; split; intro H; congruence. Qed.

Lemma Assert_Ret_inv (debug cond : bool) (e : exception) (u : unit) :
  Assert debug cond e = Ret u -> debug = true -> cond = true.
Proof. intros H ->. destruct cond; [reflexivity | discriminate]. Qed.

Lemma get_scatter_inv (this : InteractionBase) (h : address) (i : nat)
      (s : Scatter) :
  get_scatter this h = Ret (i, s) ->
  find_position (native_dof_handlers this) h = Some i /\
  nth_error (scatters this) i = Some s.
Proof.
  unfold get_scatter.
  destruct (find_position (native_dof_handlers this) h) as [j |];
    [| discriminate].
  destruct (nth_error (scatters this) j) as [s' |] eqn:E; [| discriminate].
  cbn. intro H. injection H as <- <-. auto.
Qed.

Lemma get_scatter_intro (this : InteractionBase) (h : address) (i : nat)
      (s : Scatter) :
  find_position (native_dof_handlers this) h = Some i ->
  nth_error (scatters this) i = Some s ->
  get_scatter this h = Ret (i, s).
Proof. unfold get_scatter. intros -> ->. reflexivity. Qed.

(** After a scatter has been written back, every registered handler still
    finds a scatter, and the written position holds what was written. *)
Lemma get_scatter_after_write (this : InteractionBase) (h : address)
      (i j : nat) (s s' : Scatter) :
  get_scatter this h = Ret (i, s) ->
  (j < List.length (scatters this))%nat ->
  exists s'',
    get_scatter (set_scatters this (replace_at (scatters this) j s')) h
    = Ret (i, s'') /\
    (i = j -> s'' = s').
Proof.
  intros H Hj. apply get_scatter_inv in H as (Hf & Hn).
  assert (Hi : (i < List.length (scatters this))%nat)
    by (apply nth_error_Some; congruence).
  destruct (nth_error (replace_at (scatters this) j s') i) as [s'' |] eqn:E.
  - exists s''. split.
    + apply get_scatter_intro; [exact Hf | exact E].
    + intros ->. rewrite nth_error_replace_at in E by exact Hj. congruence.
  - apply nth_error_None in E. rewrite length_replace_at in E. lia.
Qed.

(** [compute_projection_rhs_intermediate] returns as soon as its two
    assertions hold (or are compiled out), both handlers find their
    scatters and both vectors exist. *)
Lemma intermediate_returns (debug : bool) (mem : Memory)
      (this : InteractionBase) (trans : Transaction)
      (iX iF : nat) (sX sF : Scatter) (X_vec F_vec : Vector) :
  (debug = true ->
   operation trans = Interpolation /\ next_state trans = Intermediate) ->
  get_scatter this (native_X_dof_handler trans) = Ret (iX, sX) ->
  get_scatter this (native_F_dof_handler trans) = Ret (iF, sF) ->
  vectors mem (native_X trans) = Some X_vec ->
  vectors mem (native_F_rhs trans) = Some F_vec ->
  exists this' trans',
    compute_projection_rhs_intermediate debug mem this trans
    = Ret (this', trans').
Proof.
  intros Hd HX HF HvX HvF. unfold compute_projection_rhs_intermediate.
  assert (HA1 : Assert debug (Operation_eqb (operation trans) Interpolation)
                  (ExcMessage "Transaction operation should be Interpolation")
                = Ret tt).
  { destruct debug; [| reflexivity]. destruct (Hd eq_refl) as [-> _].
    reflexivity. }
  assert (HA2 : Assert debug (State_eqb (next_state trans) Intermediate)
                  (ExcMessage "Transaction state should be Intermediate")
                = Ret tt).
  { destruct debug; [| reflexivity]. destruct (Hd eq_refl) as [_ ->].
    reflexivity. }
  rewrite HA1, HA2, HX. cbn [bind]. rewrite HvX. cbn [deref bind].
  destruct (global_to_overlap_finish sX (values X_vec) (overlap_X_vec trans))
    as [sX1 overlap_X].
  cbn [export_to_ghosted_array_finish].
  assert (HiX : (iX < List.length (scatters this))%nat).
  { apply get_scatter_inv in HX as (_ & HX).
    apply nth_error_Some. congruence. }
  destruct (@get_scatter_after_write this _ iF iX sF sX1 HF HiX)
    as (sF' & -> & _).
  cbn [bind]. rewrite HvF. cbn [deref bind]. eauto.
Qed.

Lemma finish_returns (debug : bool) (mem : Memory)
      (this : InteractionBase) (trans : Transaction)
      (iF : nat) (sF : Scatter) (F_vec : Vector) :
  (debug = true ->
   operation trans = Interpolation /\ next_state trans = Finish) ->
  get_scatter this (native_F_dof_handler trans) = Ret (iF, sF) ->
  vectors mem (native_F_rhs trans) = Some F_vec ->
  exists mem' this' trans',
    compute_projection_rhs_finish debug mem this trans
    = Ret (mem', this', trans') /\
    vectors mem' (native_F_rhs trans)
    = Some (mkVector (LA.get_partitioner F_vec) (get_mpi_communicator F_vec)
              (snd (overlap_to_global_finish sF (overlap_F_rhs trans)
                      VectorOperation.add (values F_vec)))).
Proof.
  intros Hd HF HvF. unfold compute_projection_rhs_finish.
  assert (HA1 : Assert debug (Operation_eqb (operation trans) Interpolation)
                  (ExcMessage "Transaction operation should be Interpolation")
                = Ret tt).
  { destruct debug; [| reflexivity]. destruct (Hd eq_refl) as [-> _].
    reflexivity. }
  assert (HA2 : Assert debug (State_eqb (next_state trans) Finish)
                  (ExcMessage "Transaction state should be Finish")
                = Ret tt).
  { destruct debug; [| reflexivity]. destruct (Hd eq_refl) as [_ ->].
    reflexivity. }
  rewrite HA1, HA2, HF. cbn [bind]. rewrite HvF. cbn [deref bind].
  destruct (overlap_to_global_finish sF (overlap_F_rhs trans)
              VectorOperation.add (values F_vec)) as [sF1 F_values].
  eexists. eexists. eexists. split; [reflexivity |].
  cbn. now rewrite Nat.eqb_refl.
Qed.

(** What [compute_projection_rhs_intermediate] leaves in the transaction
    and in the pipeline object when it returns. *)
Lemma intermediate_inv (debug : bool) (mem : Memory)
      (this this' : InteractionBase) (trans trans' : Transaction) :
  compute_projection_rhs_intermediate debug mem this trans
  = Ret (this', trans') ->
  next_state trans' = Finish /\
  operation trans' = operation trans /\
  native_F_dof_handler trans' = native_F_dof_handler trans /\
  native_F_rhs trans' = native_F_rhs trans /\
  overlap_F_rhs trans' = overlap_F_rhs trans /\
  (debug = true ->
   operation trans = Interpolation /\ next_state trans = Intermediate) /\
  exists iF sF F_vec,
    vectors mem (native_F_rhs trans) = Some F_vec /\
    get_scatter this' (native_F_dof_handler trans)
    = Ret (iF,
           overlap_to_global_start sF (overlap_F_rhs trans)
             VectorOperation.add 0 (values F_vec)).
Proof.
  unfold compute_projection_rhs_intermediate. intro H.
  bind_inv H. bind_inv H. bind_inv H. destruct a1 as [iX sX].
  bind_inv H.
  destruct (global_to_overlap_finish sX (values a1) (overlap_X_vec trans))
    as [sX1 overlap_X].
  cbn [export_to_ghosted_array_finish] in H.
  bind_inv H. destruct a2 as [iF sF]. bind_inv H.
  injection H as <- <-. cbn.
  repeat (split; [reflexivity |]). split.
  - intro Hd. split.
    + apply Operation_eqb_eq. now apply (Assert_Ret_inv _ _ Ha).
    + apply State_eqb_eq. now apply (Assert_Ret_inv _ _ Ha0).
  - exists iF, sF, a2. split.
    + destruct (vectors mem (native_F_rhs trans)); [| discriminate].
      cbn in Ha4. congruence.
    + apply get_scatter_inv in Ha3 as (Hf & Hn).
      apply get_scatter_intro; [exact Hf |]. cbn.
      apply nth_error_replace_at.
      rewrite length_replace_at.
      cbn in Hn. rewrite <- (length_replace_at (scatters this) iX sX1).
      apply nth_error_Some. congruence.
Qed.

Lemma finish_inv (debug : bool) (mem mem' : Memory)
      (this this' : InteractionBase) (trans trans' : Transaction) :
  compute_projection_rhs_finish debug mem this trans
  = Ret (mem', this', trans') ->
  next_state trans' = Done.
Proof.
  unfold compute_projection_rhs_finish. intro H.
  bind_inv H. bind_inv H. bind_inv H. destruct a1 as [iF sF]. bind_inv H.
  destruct (overlap_to_global_finish sF (overlap_F_rhs trans)
              VectorOperation.add (values a1)) as [sF1 F_values].
  injection H as _ _ <-. reflexivity.
Qed.

(** In a build without assertions nothing in the two later phases can
    abort. *)
Lemma not_fatal_bind {A B : Type} (m : outcome A) (k : A -> outcome B) :
  ~ fatal m -> (forall a, ~ fatal (k a)) -> ~ fatal (bind m k).
Proof.
  intros Hm Hk (e & H). destruct m as [a | e0 | e0 |]; cbn in H;
    try discriminate.
  - apply (Hk a). now exists e.
  - apply Hm. now exists e0.
Qed.

Lemma not_fatal_Ret {A : Type} (a : A) : ~ fatal (Ret a).
Proof. intros (e & H). discriminate. Qed.

Lemma not_fatal_Assert_release (cond : bool) (e : exception) :
  ~ fatal (Assert false cond e).
Proof. intros (e' & H). discriminate. Qed.

Lemma not_fatal_deref {A : Type} (o : option A) : ~ fatal (deref o).
Proof. intros (e & H). destruct o; discriminate. Qed.

Lemma not_fatal_get_scatter (this : InteractionBase) (h : address) :
  ~ fatal (get_scatter this h).
Proof.
  unfold get_scatter. intros (e & H).
  destruct (find_position (native_dof_handlers this) h) as [i |];
    [| discriminate].
  destruct (nth_error (scatters this) i); discriminate.
Qed.

Ltac not_fatal :=
  repeat first
    [ apply not_fatal_Ret
    | apply not_fatal_Assert_release
    | apply not_fatal_get_scatter
    | apply not_fatal_deref
    | apply not_fatal_bind; [| intros ?]
    | match goal with
      | |- ~ fatal (let (_, _) := ?p in _) => destruct p
      end ].

Lemma intermediate_release_not_fatal (mem : Memory) (this : InteractionBase)
      (trans : Transaction) :
  ~ fatal (compute_projection_rhs_intermediate false mem this trans).
Proof. unfold compute_projection_rhs_intermediate. not_fatal. Qed.

Lemma finish_release_not_fatal (mem : Memory) (this : InteractionBase)
      (trans : Transaction) :
  ~ fatal (compute_projection_rhs_finish false mem this trans).
Proof. unfold compute_projection_rhs_finish. not_fatal. Qed.

(** What [compute_projection_rhs_start] leaves when it returns. *)
Lemma start_inv debug mem this f q qi Xh X Fh Fm F this' trans :
  compute_projection_rhs_start debug mem this f q qi Xh X Fh Fm F
  = Ret (this', trans) ->
  next_state trans = Intermediate /\
  operation trans = Interpolation /\
  native_X_dof_handler trans = Xh /\ native_X trans = X /\
  native_F_dof_handler trans = Fh /\ native_F_rhs trans = F /\
  (exists iX sX X_vec,
      get_scatter this' Xh = Ret (iX, sX) /\ vectors mem X = Some X_vec) /\
  (exists iF, find_position (native_dof_handlers this') Fh = Some iF) /\
  native_dof_handlers this' = native_dof_handlers this /\
  List.length (scatters this') = List.length (scatters this).
Proof.
  unfold compute_projection_rhs_start. intro H.
  bind_inv H. bind_inv H. bind_inv H. bind_inv H. destruct a2 as [iX sX].
  bind_inv H. injection H as <- <-. cbn.
  repeat (split; [reflexivity |]).
  apply get_scatter_inv in Ha2 as (Hf & Hn).
  assert (HiX : (iX < List.length (scatters this))%nat)
    by (apply nth_error_Some; congruence).
  split; [| split; [| split]].
  - exists iX, (global_to_overlap_start sX (values a2) 0
                  (repeat 0%Q (n_dofs a0))), a2.
    split.
    + apply get_scatter_intro; [exact Hf |]. cbn.
      now apply nth_error_replace_at.
    + destruct (vectors mem X); [| discriminate]. cbn in Ha3. congruence.
  - unfold get_overlap_dof_handler in Ha1.
    destruct (find_position (native_dof_handlers this) Fh) as [iF |];
      [eauto | discriminate].
  - reflexivity.
  - apply length_replace_at.
Qed.

(** C3, as amended: in a build with assertions the phases form a strict
    state machine. [compute_projection_rhs_intermediate] aborts unless the
    operation is Interpolation and the state Intermediate, and
    [compute_projection_rhs_finish] aborts unless the state is Finish; in
    every build a phase that returns leaves the state Finish, respectively
    Done. For a transaction made by [compute_projection_rhs_start], calling
    finish before intermediate, or intermediate twice, aborts, and the
    phases called in order return. In a build without assertions neither
    phase ever aborts. *)
Theorem projection_phases_state_machine
        (mem : Memory) (this : InteractionBase) (trans : Transaction) :
  (operation trans <> Interpolation \/ next_state trans <> Intermediate ->
   fatal (compute_projection_rhs_intermediate true mem this trans)) /\
  (next_state trans <> Finish ->
   fatal (compute_projection_rhs_finish true mem this trans)) /\
  (forall debug this' trans',
      compute_projection_rhs_intermediate debug mem this trans
      = Ret (this', trans') -> next_state trans' = Finish) /\
  (forall debug mem' this' trans',
      compute_projection_rhs_finish debug mem this trans
      = Ret (mem', this', trans') -> next_state trans' = Done) /\
  (forall debug this0 f q qi Xh X Fh Fm F,
      compute_projection_rhs_start debug mem this0 f q qi Xh X Fh Fm F
      = Ret (this, trans) ->
      fatal (compute_projection_rhs_finish true mem this trans) /\
      (forall mem1 this1 trans1,
          compute_projection_rhs_intermediate true mem this trans
          = Ret (this1, trans1) ->
          fatal (compute_projection_rhs_intermediate true mem1 this1 trans1)) /\
      (List.length (scatters this0) = List.length (native_dof_handlers this0) ->
       vectors mem F <> None ->
       exists this1 trans1 mem2 this2 trans2,
         compute_projection_rhs_intermediate debug mem this trans
         = Ret (this1, trans1) /\
         next_state trans1 = Finish /\
         compute_projection_rhs_finish debug mem this1 trans1
         = Ret (mem2, this2, trans2) /\
         next_state trans2 = Done)) /\
  ~ fatal (compute_projection_rhs_intermediate false mem this trans) /\
  ~ fatal (compute_projection_rhs_finish false mem this trans).
Proof.
  assert (Gi : forall m b t,
             operation t <> Interpolation \/ next_state t <> Intermediate ->
             fatal (compute_projection_rhs_intermediate true m b t)).
  { intros m b t H. unfold compute_projection_rhs_intermediate, fatal.
    destruct (Operation_eqb (operation t) Interpolation) eqn:Eo.
    - destruct (State_eqb (next_state t) Intermediate) eqn:Es.
      + apply Operation_eqb_eq in Eo. apply State_eqb_eq in Es. tauto.
      + cbn. eauto.
    - cbn. eauto. }
  assert (Gf : forall m b t,
             next_state t <> Finish ->
             fatal (compute_projection_rhs_finish true m b t)).
  { intros m b t H. unfold compute_projection_rhs_finish, fatal.
    destruct (Operation_eqb (operation t) Interpolation); [| cbn; eauto].
    destruct (State_eqb (next_state t) Finish) eqn:Es; [| cbn; eauto].
    apply State_eqb_eq in Es. contradiction. }
  split; [apply Gi |]. split; [apply Gf |].
  split; [intros debug this' trans' H; now apply intermediate_inv in H |].
  split; [intros debug mem' this' trans' H; now apply finish_inv in H |].
  split; [| split; [apply intermediate_release_not_fatal
                   | apply finish_release_not_fatal]].
  intros debug this0 f q qi Xh X Fh Fm F Hstart.
  apply start_inv in Hstart
    as (Hs & Ho & HXh & HX & HFh & HF & (iX & sX & X_vec & HgX & HvX)
        & (iF & HfF) & Hn & Hl).
  split; [apply Gf; congruence |]. split.
  - intros mem1 this1 trans1 H. apply intermediate_inv in H as (H & _).
    apply Gi. right. congruence.
  - intros Hlen HvF.
    destruct (vectors mem F) as [F_vec |] eqn:EF; [| congruence].
    assert (HgF : exists sF, get_scatter this Fh = Ret (iF, sF)).
    { destruct (nth_error (scatters this) iF) as [sF |] eqn:E.
      - exists sF. now apply get_scatter_intro.
      - apply nth_error_None in E. apply find_position_Some in HfF as (L & _).
        rewrite Hn in L. lia. }
    destruct HgF as (sF & HgF).
    destruct (@intermediate_returns debug mem this trans iX iF sX sF
                X_vec F_vec) as (this1 & trans1 & Hi); try congruence.
    { intros _. auto. }
    exists this1, trans1.
    pose proof (intermediate_inv _ _ _ _ Hi)
      as (Hs1 & Ho1 & HFh1 & HF1 & _ & _ & (iF' & sF' & F_vec' & HvF' & HgF')).
    destruct (@finish_returns debug mem this1 trans1 iF'
                (overlap_to_global_start sF' (overlap_F_rhs trans)
                   VectorOperation.add 0 (values F_vec')) F_vec')
      as (mem2 & this2 & trans2 & Hfin & _); try congruence.
    { intros _. split; congruence. }
    exists mem2, this2, trans2.
    split; [exact Hi |]. split; [exact Hs1 |]. split; [exact Hfin |].
    now apply finish_inv in Hfin.
Qed.

Example example_start :
  compute_projection_rhs_start true example_running_memory example_base
    0 0 [0%nat] 10 20 10 0 21
  = Ret (example_started_base, example_transaction).
Proof. reflexivity. Qed.

Lemma projection_phases_state_machine_witness :
  compute_projection_rhs_start true example_running_memory example_base
    0 0 [0%nat] 10 20 10 0 21
  = Ret (example_started_base, example_transaction) /\
  fatal (compute_projection_rhs_finish true example_running_memory
           example_started_base example_transaction) /\
  exists this1 trans1 mem2 this2 trans2,
    compute_projection_rhs_intermediate true example_running_memory
      example_started_base example_transaction = Ret (this1, trans1) /\
    next_state trans1 = Finish /\
    compute_projection_rhs_finish true example_running_memory this1 trans1
    = Ret (mem2, this2, trans2) /\
    next_state trans2 = Done.
Proof.
  split; [reflexivity |].
  destruct (proj1 (proj2 (proj2 (proj2 (proj2
              (projection_phases_state_machine example_running_memory
                 example_started_base example_transaction)))))
              true example_base 0%Z 0%nat [0%nat] 10%nat 20%nat 10%nat 0%nat
              21%nat eq_refl)
    as (Hfatal & _ & Hrun).
  split; [exact Hfatal |].
  apply Hrun; [reflexivity | discriminate].
Defined.

(** C3, as the specification words it, fails in a build without
    assertions: on the transaction that start makes in the example a second
    call of intermediate returns, and so does finish called before
    intermediate. *)
Lemma projection_phases_release_counterexample :
  compute_projection_rhs_start false example_running_memory example_base
    0 0 [0%nat] 10 20 10 0 21
  = Ret (example_started_base, example_transaction) /\
  exists this1 trans1,
    compute_projection_rhs_intermediate false example_running_memory
      example_started_base example_transaction = Ret (this1, trans1) /\
    returns (compute_projection_rhs_intermediate false example_running_memory
               this1 trans1) /\
    ~ fatal (compute_projection_rhs_intermediate false example_running_memory
               this1 trans1) /\
    returns (compute_projection_rhs_finish false example_running_memory
               example_started_base example_transaction) /\
    ~ fatal (compute_projection_rhs_finish false example_running_memory
               example_started_base example_transaction).
Proof.
  split; [reflexivity |].
  eexists. eexists. split; [reflexivity |].
  split; [eexists; reflexivity |].
  split; [intros (e & He); discriminate |].
  split; [eexists; reflexivity |].
  intros (e & He); discriminate.
Qed.

(** ** The scatter of the result field accumulates *)

Lemma length_set_entry (v : list Q) (k : nat) (x : Q) :
  List.length (set_entry v k x) = List.length v.
Proof. revert k. induction v as [| y r IH]; intros [| k]; cbn; auto. Qed.

Lemma entry_set_entry_same (v : list Q) (k : nat) (x : Q) :
  (k < List.length v)%nat -> entry (set_entry v k x) k = x.
Proof.
  unfold entry. revert k. induction v as [| y r IH]; intros [| k]; cbn;
    intro H; try lia; auto. apply IH. lia.
Qed.

Lemma entry_set_entry_other (v : list Q) (k j : nat) (x : Q) :
  j <> k -> entry (set_entry v k x) j = entry v j.
Proof.
  unfold entry. revert k j. induction v as [| y r IH]; intros [| k] [| j] H;
    cbn; auto; try congruence.
Qed.

(** The additive reduction sums the messages onto the entries that were
    there. *)
Lemma reduce_add_accumulates (messages : list (nat * Q)) :
  forall (v : list Q),
    List.length (fold_left (reduce VectorOperation.add) messages v)
    = List.length v /\
    forall k, (k < List.length v)%nat ->
      (entry (fold_left (reduce VectorOperation.add) messages v) k
       == entry v k + contribution messages k)%Q.
Proof.
  induction messages as [| [k' x] rest IH]; intro v; cbn [fold_left].
  - split; [reflexivity |]. intros k _. cbn. lra.
  - destruct (IH (reduce VectorOperation.add v (k', x))) as (Hlen & Hent).
    cbn [reduce] in *. rewrite length_set_entry in *.
    split; [exact Hlen |]. intros k Hk. rewrite (Hent k Hk).
    cbn [contribution].
    destruct (Nat.eqb_spec k' k) as [-> | Hne].
    + rewrite entry_set_entry_same by exact Hk. lra.
    + rewrite entry_set_entry_other by congruence. lra.
Qed.

(** C4: the scatter of the result field is started by the intermediate
    phase and completed by the finish phase with [VectorOperation::add];
    when the intermediate phase has returned, the finish phase returns and
    leaves in the native result vector every entry that was there plus the
    overlap entries that the translation table sends to it. *)
Theorem result_scatter_accumulates
        (debug : bool) (mem : Memory) (this this1 : InteractionBase)
        (trans trans1 : Transaction) :
  compute_projection_rhs_intermediate debug mem this trans
  = Ret (this1, trans1) ->
  exists iF sF F_vec,
    vectors mem (native_F_rhs trans) = Some F_vec /\
    get_scatter this1 (native_F_dof_handler trans) = Ret (iF, sF) /\
    to_global_in_flight sF
    = Some (0%nat, VectorOperation.add,
            combine (overlap_dofs sF) (overlap_F_rhs trans)) /\
    exists mem2 this2 trans2 F_vec2,
      compute_projection_rhs_finish debug mem this1 trans1
      = Ret (mem2, this2, trans2) /\
      vectors mem2 (native_F_rhs trans) = Some F_vec2 /\
      values F_vec2
      = fold_left (reduce VectorOperation.add)
          (combine (overlap_dofs sF) (overlap_F_rhs trans)) (values F_vec) /\
      List.length (values F_vec2) = List.length (values F_vec) /\
      forall k, (k < List.length (values F_vec))%nat ->
        (entry (values F_vec2) k
         == entry (values F_vec) k
            + contribution
                (combine (overlap_dofs sF) (overlap_F_rhs trans)) k)%Q.
Proof.
  intro Hi.
  pose proof (intermediate_inv _ _ _ _ Hi)
    as (Hs1 & Ho1 & HFh1 & HF1 & Hov1 & Hd & (iF & sF0 & F_vec & HvF & HgF)).
  set (sF := overlap_to_global_start sF0 (overlap_F_rhs trans)
               VectorOperation.add 0 (values F_vec)) in *.
  exists iF, sF, F_vec.
  split; [exact HvF |]. split; [exact HgF |]. split; [reflexivity |].
  destruct (@finish_returns debug mem this1 trans1 iF sF F_vec)
    as (mem2 & this2 & trans2 & Hfin & Hvec); try congruence.
  { intros D. destruct (Hd D). split; congruence. }
  rewrite HF1, Hov1 in Hvec.
  eexists mem2, this2, trans2, _.
  split; [exact Hfin |]. split; [exact Hvec |].
  cbn [values snd overlap_to_global_finish sF overlap_to_global_start
       to_global_in_flight overlap_dofs].
  split; [reflexivity |].
  apply reduce_add_accumulates.
Qed.

Lemma result_scatter_accumulates_witness :
  exists this1 trans1 mem2 this2 trans2,
    compute_projection_rhs_intermediate true example_running_memory
      example_started_base example_unit_transaction = Ret (this1, trans1) /\
    compute_projection_rhs_finish true example_running_memory this1 trans1
    = Ret (mem2, this2, trans2) /\
    vectors mem2 21%nat = Some (mkVector 30 1 [11; 22; 30]%Q).
Proof.
  eexists. eexists.
  assert (H : compute_projection_rhs_intermediate true example_running_memory
                example_started_base example_unit_transaction
              = Ret (set_scatters example_base
                       [mkScatter [0; 1; 1]%nat [0; 1; 2]%nat 3%nat None
                          (Some (0%nat, VectorOperation.add,
                                 [(0%nat, 1%Q); (1%nat, 1%Q); (1%nat, 1%Q)]))],
                     mkTransaction 0 0 [0%nat] [0%nat] [0%nat] [] 10 20
                       [1; 2; 2]%Q 10 0 21 [1; 1; 1]%Q Finish Interpolation))
    by reflexivity.
  destruct (result_scatter_accumulates _ _ _ _ H)
    as (iF & sF & F_vec & _ & _ & _ & mem2 & this2 & trans2 & F_vec2 & Hfin
        & _).
  exists mem2, this2, trans2.
  split; [exact H |]. split; [exact Hfin |].
  cbv in Hfin. injection Hfin as <- _ _. reflexivity.
Defined.

(** With [add], the entries that two overlap entries alias receive both. *)
Example example_accumulation :
  fold_left (reduce VectorOperation.add)
    (combine [0; 1; 1]%nat [1; 1; 1]%Q) [10; 20; 30]%Q
  = [(11 # 1); (22 # 1); 30]%Q.
Proof. reflexivity. Qed.

(* ===================================================================== *)
(** * Further properties of the code                                     *)
(* ===================================================================== *)

(** ** [intersects]: separated and nested boxes *)

Lemma intersects_loop_false (a b : BoundingBox) (n d : nat) :
  intersects_loop a b d n = false <->
  exists k, (k < n)%nat /\ axis_check a b (d + k) = false.
Proof.
  revert d. induction n as [| n IH]; intro d; cbn.
  - split; [discriminate | intros (k & Hk & _); lia].
  - destruct (axis_check a b d) eqn:E.
    + rewrite IH. split.
      * intros (k & Hk & H). exists (S k). split; [lia |].
        now replace (d + S k)%nat with (S d + k)%nat by lia.
      * intros ([| k] & Hk & H).
        -- rewrite Nat.add_0_r in H. congruence.
        -- exists k. split; [lia |].
           now replace (S d + k)%nat with (d + S k)%nat by lia.
    + split; [| reflexivity]. intros _. exists 0%nat. split; [lia |].
      now rewrite Nat.add_0_r.
Qed.

(** The boxes are apart on axis [d]: one ends before the other begins. *)
Lemma axis_not_overlap (a b : BoundingBox) (d : nat) :
  ~ axis_overlap a b d <->
  (upper_bound a d < lower_bound b d)%Q \/
  (upper_bound b d < lower_bound a d)%Q.
Proof.
  unfold axis_overlap. split.
  - intro H.
    destruct (Qlt_le_dec (upper_bound a d) (lower_bound b d)); [now left |].
    destruct (Qlt_le_dec (upper_bound b d) (lower_bound a d)); [now right |].
    exfalso. apply H. split; assumption.
  - intros [H | H] [H1 H2]; lra.
Qed.

(** On boxes with ordered bounds [intersects] answers false exactly when
    some axis separates the boxes, one box ending strictly before the other
    begins; boxes that only touch do intersect. *)
Theorem intersects_false_iff_separated (spacedim : nat) (a b : BoundingBox) :
  well_formed spacedim a -> well_formed spacedim b ->
  (intersects spacedim a b = false <->
   exists d, (d < spacedim)%nat /\
     ((upper_bound a d < lower_bound b d)%Q \/
      (upper_bound b d < lower_bound a d)%Q)).
Proof.
  intros Ha Hb. unfold intersects. rewrite intersects_loop_false. cbn.
  split; intros (d & Hd & H); exists d; (split; [exact Hd |]).
  - apply axis_not_overlap. intro Ho.
    apply (axis_disjuncts_overlap a b d (Ha d Hd) (Hb d Hd)) in Ho.
    apply axis_check_disjuncts in Ho. congruence.
  - destruct (axis_check a b d) eqn:E; [| reflexivity]. exfalso.
    apply axis_check_disjuncts in E.
    apply (axis_disjuncts_overlap a b d (Ha d Hd) (Hb d Hd)) in E.
    now apply axis_not_overlap in H.
Qed.

Lemma intersects_false_iff_separated_witness :
  exists d, (d < 3)%nat /\
    ((upper_bound unit_cube d < lower_bound (unit_cube_translated 2) d)%Q \/
     (upper_bound (unit_cube_translated 2) d < lower_bound unit_cube d)%Q).
Proof.
  exact (proj1 (@intersects_false_iff_separated 3 unit_cube
                  (unit_cube_translated 2) well_formed_unit_cube
                  (well_formed_translated 2)) eq_refl).
Defined.

(** Boxes that share only a face intersect. *)
Example intersects_touching :
  intersects 3 unit_cube (unit_cube_translated 1) = true.
Proof. reflexivity. Qed.

(** A box with ordered bounds that lies inside another box intersects it,
    whichever of the two is the first argument. *)
Theorem intersects_nested (spacedim : nat) (outer inner : BoundingBox) :
  well_formed spacedim inner ->
  (forall d, (d < spacedim)%nat ->
     (lower_bound outer d <= lower_bound inner d)%Q /\
     (upper_bound inner d <= upper_bound outer d)%Q) ->
  intersects spacedim outer inner = true /\
  intersects spacedim inner outer = true.
Proof.
  intros Hi Hin. split; apply intersects_true; intros d Hd;
    destruct (Hin d Hd) as [H1 H2]; specialize (Hi d Hd);
    unfold axis_disjuncts, within.
  - left. split; lra.
  - right. right. split; lra.
Qed.

Lemma intersects_nested_witness :
  intersects 3 unit_cube nested_cube = true /\
  intersects 3 nested_cube unit_cube = true.
Proof.
  apply intersects_nested; [apply well_formed_nested_cube |].
  intros d Hd. split; by_axis d.
Defined.

(** ** [TriaIntersectionPredicate]: the candidate boxes as a set *)

Lemma any_intersects_app (spacedim : nat) (cell_bbox : BoundingBox)
      (l1 l2 : list BoundingBox) :
  any_intersects spacedim cell_bbox (l1 ++ l2)
  = any_intersects spacedim cell_bbox l1
    || any_intersects spacedim cell_bbox l2.
Proof.
  induction l1 as [| b r IH]; cbn; [reflexivity |].
  destruct (intersects spacedim cell_bbox b); [reflexivity | exact IH].
Qed.

(** The early return of the loop over the candidate boxes does not make the
    answer depend on their order, and more candidate boxes never turn a
    true answer into false; with no candidate box the answer is false. *)
Theorem tria_predicate_order_independent
        (spacedim : nat) (p q : TriaIntersectionPredicate) (c : cell) :
  (Permutation (bounding_boxes p) (bounding_boxes q) ->
   TriaIntersectionPredicate_call spacedim p c
   = TriaIntersectionPredicate_call spacedim q c) /\
  (incl (bounding_boxes p) (bounding_boxes q) ->
   TriaIntersectionPredicate_call spacedim p c = true ->
   TriaIntersectionPredicate_call spacedim q c = true) /\
  (bounding_boxes p = [] ->
   TriaIntersectionPredicate_call spacedim p c = false).
Proof.
  unfold TriaIntersectionPredicate_call. split; [| split].
  - intro HP. apply eq_true_iff_eq. rewrite !any_intersects_true.
    split; intros (b & Hin & H); exists b; split; auto.
    + eapply Permutation_in; eauto.
    + eapply Permutation_in; [apply Permutation_sym |]; eauto.
  - intros Hincl. rewrite !any_intersects_true.
    intros (b & Hin & H). exists b. auto.
  - intros ->. reflexivity.
Qed.

Lemma tria_predicate_order_independent_witness :
  TriaIntersectionPredicate_call 3
    (mkTriaIntersectionPredicate [unit_cube_translated 2; nested_cube])
    unit_cell
  = TriaIntersectionPredicate_call 3
      (mkTriaIntersectionPredicate [nested_cube; unit_cube_translated 2])
      unit_cell.
Proof.
  apply (proj1 (tria_predicate_order_independent 3
                  (mkTriaIntersectionPredicate
                     [unit_cube_translated 2; nested_cube])
                  (mkTriaIntersectionPredicate
                     [nested_cube; unit_cube_translated 2])
                  unit_cell)).
  apply perm_swap.
Defined.

(** ** [FEIntersectionPredicate]: the children as a set *)

Lemma cell_ok_refined_inv (p : FEIntersectionPredicate) (t i : nat)
      (b : BoundingBox) (cs : list cell) :
  cell_ok p (mk_cell t false i b cs) ->
  t = Predicates.tria p /\ cs <> [] /\ Forall (cell_ok p) cs.
Proof. intro H. inversion H; subst. auto. Qed.

(** On a well-shaped triangulation the [break] at the first intersecting
    child does not make the answer depend on the order of the children. *)
Theorem FE_predicate_children_order
        (debug : bool) (spacedim : nat) (p : FEIntersectionPredicate)
        (t i : nat) (b : BoundingBox) (cs cs' : list cell) :
  cell_ok p (mk_cell t false i b cs) ->
  Permutation cs cs' ->
  FEIntersectionPredicate_call debug spacedim p (mk_cell t false i b cs)
  = FEIntersectionPredicate_call debug spacedim p (mk_cell t false i b cs').
Proof.
  intros Hok HP.
  assert (Hok' : cell_ok p (mk_cell t false i b cs')).
  { apply cell_ok_refined_inv in Hok as (Ht & Hne & Hall).
    apply cell_ok_refined; [exact Ht | |].
    - intros ->. apply Permutation_sym, Permutation_nil in HP. contradiction.
    - eapply Permutation_Forall; eauto. }
  destruct (FE_predicate_returns debug spacedim Hok) as (r & -> & Hr).
  destruct (FE_predicate_returns debug spacedim Hok') as (r' & -> & Hr').
  f_equal. apply eq_true_iff_eq. rewrite Hr, Hr'.
  split; intros (d & Hd & H); exists d; (split; [| exact H]);
    apply active_descendant_of_refined in Hd; try reflexivity;
    apply active_descendant_of_refined; try reflexivity;
    destruct Hd as (ch & Hin & Hd); exists ch; (split; [| exact Hd]);
    cbn in *.
  - eapply Permutation_in; eauto.
  - eapply Permutation_in; [apply Permutation_sym |]; eauto.
Qed.

Lemma FE_predicate_children_order_witness :
  FEIntersectionPredicate_call true 3 example_predicate refined_cell
  = FEIntersectionPredicate_call true 3 example_predicate
      (mk_cell 0 false 0 unit_cube
         [mk_cell 0 true 1 (unit_cube_translated (3 # 2)) [];
          mk_cell 0 true 0 unit_cube []]).
Proof.
  apply (@FE_predicate_children_order true 3 example_predicate 0 0 unit_cube);
    [apply example_refined_cell_ok | apply perm_swap].
Defined.

(** Where a child is neither active nor refined the order does matter in a
    build with assertions: the loop aborts on it unless an intersecting
    child comes first. *)
Example FE_predicate_children_order_ill_shaped :
  FEIntersectionPredicate_call true 3 example_predicate
    (mk_cell 0 false 0 unit_cube
       [mk_cell 0 true 1 (unit_cube_translated (3 # 2)) []; childless_cell])
  = Ret true /\
  FEIntersectionPredicate_call true 3 example_predicate
    (mk_cell 0 false 0 unit_cube
       [childless_cell; mk_cell 0 true 1 (unit_cube_translated (3 # 2)) []])
  = Abort ExcNotImplemented.
Proof. split; reflexivity. Qed.

(** ** The constructor of [FEIntersectionPredicate] *)

Import PredicateSetup.

Lemma nth_error_replace_at_other {A : Type} (l : list A) (i j : nat) (x : A) :
  i <> j -> nth_error (replace_at l j x) i = nth_error l i.
Proof.
  revert i j. induction l as [| y r IH]; intros [| i] [| j] H; cbn; auto;
    try congruence.
Qed.

Lemma coordinate_map_seq (f : nat -> Q) (n d : nat) :
  (d < n)%nat -> coordinate (map f (seq 0 n)) d = f d.
Proof.
  intro H. unfold coordinate.
  rewrite (nth_indep _ 0%Q (f 0%nat)) by (now rewrite length_map, length_seq).
  rewrite map_nth, seq_nth by exact H. reflexivity.
Qed.

Lemma bound_zero_box (upper : bool) (spacedim d : nat) :
  bound upper (zero_box spacedim) d = 0%Q.
Proof.
  destruct upper; unfold bound, upper_bound, lower_bound, coordinate; cbn;
    apply nth_repeat.
Qed.

Lemma bound_box_sum (upper : bool) (spacedim d : nat) (a b : BoundingBox) :
  (d < spacedim)%nat ->
  bound upper (box_sum spacedim a b) d = (bound upper a d + bound upper b d)%Q.
Proof.
  intro H.
  destruct upper; unfold bound, box_sum;
    [unfold upper_bound at 1 | unfold lower_bound at 1]; cbn [boundary_points fst snd];
    now rewrite coordinate_map_seq.
Qed.

Lemma nth_table_sum (spacedim n i : nat) (t1 t2 : list BoundingBox) :
  (i < n)%nat ->
  nth i (table_sum spacedim n t1 t2) (zero_box spacedim)
  = box_sum spacedim (nth i t1 (zero_box spacedim))
                     (nth i t2 (zero_box spacedim)).
Proof.
  intro H. unfold table_sum.
  rewrite (nth_indep _ (zero_box spacedim)
             (box_sum spacedim (nth 0 t1 (zero_box spacedim))
                (nth 0 t2 (zero_box spacedim))))
    by (now rewrite length_map, length_seq).
  rewrite (map_nth (fun i => box_sum spacedim (nth i t1 (zero_box spacedim))
                                (nth i t2 (zero_box spacedim)))).
  now rewrite seq_nth.
Qed.

Lemma length_table_sum (spacedim n : nat) (t1 t2 : list BoundingBox) :
  List.length (table_sum spacedim n t1 t2) = n.
Proof. unfold table_sum. now rewrite length_map, length_seq. Qed.

(** An entry of the reduced table is the sum of the entries of the ranks. *)
Lemma bound_fold_table_sum (upper : bool) (spacedim n i d : nat)
      (tables : list (list BoundingBox)) :
  (i < n)%nat -> (d < spacedim)%nat ->
  forall first,
    (bound upper
       (nth i (fold_left (table_sum spacedim n) tables first)
          (zero_box spacedim)) d
     == bound upper (nth i first (zero_box spacedim)) d
        + total (map (fun t => bound upper (nth i t (zero_box spacedim)) d)
                     tables))%Q.
Proof.
  intros Hi Hd. induction tables as [| t rest IH]; intro first;
    cbn [fold_left map].
  - unfold total. cbn [fold_right]. lra.
  - rewrite IH, nth_table_sum, bound_box_sum by assumption.
    unfold total. cbn [fold_right]. lra.
Qed.

(** Only the owner contributes to the sum over the ranks. *)
Lemma total_owner (owner : nat) (x : Q) (n a : nat) :
  (total (map (fun r => if (owner =? r)%nat then x else 0%Q) (seq a n))
   == if (a <=? owner)%nat && (owner <? a + n)%nat then x else 0)%Q.
Proof.
  revert a. induction n as [| n IH]; intro a;
    unfold total; cbn [seq map fold_right]; fold total.
  - destruct (Nat.leb_spec a owner), (Nat.ltb_spec owner (a + 0));
      cbn [andb]; try lra; exfalso; lia.
  - fold (total (map (fun r => if (owner =? r)%nat then x else 0%Q)
                     (seq (S a) n))).
    rewrite IH.
    destruct (Nat.eqb_spec owner a), (Nat.leb_spec (S a) owner),
      (Nat.leb_spec a owner), (Nat.ltb_spec owner (S a + n)),
      (Nat.ltb_spec owner (a + S n));
      cbn [andb]; try lra; exfalso; lia.
Qed.

(** The table a rank fills: the boxes of its cells at their indices, and
    the other entries as they were. *)
Lemma fill_local_entries (to_float : Q -> Q) (spacedim rank : nat)
      (cells : list active_fe_cell) :
  forall table,
    NoDup (map fe_active_cell_index cells) ->
    (forall cell, In cell cells ->
       (fe_active_cell_index cell < List.length table)%nat) ->
    exists table',
      fill_local to_float spacedim rank cells table = Ret table' /\
      List.length table' = List.length table /\
      (forall cell, In cell cells ->
         nth_error table' (fe_active_cell_index cell)
         = if (subdomain_id cell =? rank)%nat
           then Some (cell_fbox to_float spacedim cell)
           else nth_error table (fe_active_cell_index cell)) /\
      (forall i, ~ In i (map fe_active_cell_index cells) ->
         nth_error table' i = nth_error table i).
Proof.
  induction cells as [| c rest IH]; intros table Hnd Hlt; cbn [fill_local].
  - exists table. repeat split; auto. intros cell [].
  - cbn [map] in Hnd. apply NoDup_cons_iff in Hnd as [Hc Hnd].
    assert (Hc' : (fe_active_cell_index c < List.length table)%nat)
      by (apply Hlt; now left).
    destruct (Nat.eqb_spec (subdomain_id c) rank) as [Ho | Ho].
    + apply Nat.ltb_lt in Hc' as ->.
      destruct (IH (replace_at table (fe_active_cell_index c)
                      (cell_fbox to_float spacedim c)) Hnd)
        as (table' & Hr & Hlen & Hin & Hout).
      { intros cell H. rewrite length_replace_at. apply Hlt. now right. }
      exists table'. split; [exact Hr |].
      split; [now rewrite Hlen, length_replace_at |]. split.
      * intros cell [<- | H].
        -- rewrite Hout by exact Hc. rewrite Ho, Nat.eqb_refl.
           apply nth_error_replace_at. apply Hlt. now left.
        -- rewrite (Hin cell H).
           destruct (subdomain_id cell =? rank)%nat; [reflexivity |].
           apply nth_error_replace_at_other. intros E. apply Hc.
           rewrite <- E. now apply in_map.
      * intros i Hi. cbn [map] in Hi.
        rewrite Hout by (intro; apply Hi; now right).
        apply nth_error_replace_at_other. intros ->. apply Hi. now left.
    + destruct (IH table Hnd) as (table' & Hr & Hlen & Hin & Hout).
      { intros cell H. apply Hlt. now right. }
      exists table'. split; [exact Hr |]. split; [exact Hlen |]. split.
      * intros cell [<- | H].
        -- rewrite Hout by exact Hc.
           apply Nat.eqb_neq in Ho. now rewrite Ho.
        -- apply Hin, H.
      * intros i Hi. cbn [map] in Hi. apply Hout. intro. apply Hi. now right.
Qed.

Lemma contributions_entries (to_float : Q -> Q) (spacedim n_ranks : nat)
      (cells : list active_fe_cell) (ranks : list nat) :
  cells_ok n_ranks cells ->
  exists locals,
    contributions to_float spacedim cells ranks = Ret locals /\
    List.length locals = List.length ranks /\
    forall cell, In cell cells ->
      map (fun t => nth (fe_active_cell_index cell) t (zero_box spacedim))
          locals
      = map (fun r => if (subdomain_id cell =? r)%nat
                      then cell_fbox to_float spacedim cell
                      else zero_box spacedim) ranks.
Proof.
  intros (Hnd & Hcells). induction ranks as [| r rest IH]; cbn [contributions].
  - exists []. repeat split; auto.
  - destruct (@fill_local_entries to_float spacedim r cells
                (repeat (zero_box spacedim) (List.length cells)) Hnd)
      as (local & -> & Hlen & Hin & _).
    { intros cell H. rewrite repeat_length. now apply Hcells. }
    destruct IH as (others & -> & Hlen' & Hmap).
    cbn [bind]. exists (local :: others).
    split; [reflexivity |]. split; [cbn; lia |].
    intros cell H. cbn [map]. rewrite (Hmap cell H). f_equal.
    specialize (Hin cell H).
    destruct (subdomain_id cell =? r)%nat.
    + now apply nth_error_nth.
    + apply nth_error_nth. rewrite Hin. apply nth_error_repeat.
      now apply Hcells.
Qed.

Lemma assert_volumes_release (spacedim : nat) (boxes : list BoundingBox) :
  assert_volumes false spacedim boxes = Ret tt.
Proof. induction boxes as [| b r IH]; cbn; auto. Qed.

(** The table every rank ends with, before the assertions. *)
Lemma reduced_table (to_float : Q -> Q) (spacedim n_ranks : nat)
      (cells : list active_fe_cell) :
  cells <> [] -> cells_ok n_ranks cells ->
  exists locals table,
    contributions to_float spacedim cells (seq 0 n_ranks) = Ret locals /\
    MPI_Allreduce_sum spacedim (List.length cells) locals = Ret table /\
    List.length table = List.length cells /\
    forall cell, In cell cells ->
      exists box,
        nth_error table (fe_active_cell_index cell) = Some box /\
        forall upper d, (d < spacedim)%nat ->
          (bound upper box d
           == bound upper (cell_fbox to_float spacedim cell) d)%Q.
Proof.
  intros Hne Hok.
  destruct (contributions_entries to_float spacedim (seq 0 n_ranks) Hok)
    as (locals & Hc & Hlen & Hmap).
  assert (Hranks : (0 < n_ranks)%nat).
  { destruct cells as [| c r]; [congruence |].
    destruct Hok as (_ & Hok). destruct (Hok c (or_introl eq_refl)). lia. }
  rewrite length_seq in Hlen.
  destruct locals as [| first rest]; [cbn in Hlen; lia |].
  exists (first :: rest).
  exists (fold_left (table_sum spacedim (List.length cells)) rest first).
  split; [exact Hc |]. split; [reflexivity |].
  assert (Hlen_t :
            List.length
              (fold_left (table_sum spacedim (List.length cells)) rest first)
            = List.length cells).
  { destruct rest as [| t rest'] using rev_ind.
    - cbn. destruct n_ranks as [| [| n]]; [lia | | cbn in Hlen; lia].
      cbn [seq contributions] in Hc. bind_inv Hc. cbn in Hc.
      injection Hc as <-.
      destruct Hok as (Hnd & Hcells).
      destruct (@fill_local_entries to_float spacedim 0 cells
                  (repeat (zero_box spacedim) (List.length cells)) Hnd)
        as (local & Hl & Hlen' & _).
      { intros cell H. rewrite repeat_length. now apply Hcells. }
      rewrite Hl in Ha. injection Ha as <-.
      now rewrite Hlen', repeat_length.
    - rewrite fold_left_app. cbn. apply length_table_sum. }
  split; [exact Hlen_t |].
  intros cell Hin.
  assert (Hi : (fe_active_cell_index cell < List.length cells)%nat)
    by (now apply (proj2 Hok)).
  destruct (nth_error (fold_left (table_sum spacedim (List.length cells))
                         rest first) (fe_active_cell_index cell))
    as [box |] eqn:E; [| apply nth_error_None in E; lia].
  exists box. split; [reflexivity |]. intros upper d Hd.
  rewrite <- (nth_error_nth _ _ (zero_box spacedim) E).
  rewrite bound_fold_table_sum by assumption.
  specialize (Hmap cell Hin).
  destruct n_ranks as [| n]; [lia |]. cbn [seq map] in Hmap.
  injection Hmap as Hfirst Hrest. rewrite Hfirst.
  rewrite <- (map_map (fun t => nth (fe_active_cell_index cell) t
                                    (zero_box spacedim))
                      (fun b => bound upper b d)), Hrest, map_map.
  rewrite (map_ext _ (fun r => if (subdomain_id cell =? r)%nat
                               then bound upper
                                      (cell_fbox to_float spacedim cell) d
                               else 0%Q)).
  2: { intro r. destruct (subdomain_id cell =? r)%nat; [reflexivity |].
       apply bound_zero_box. }
  rewrite total_owner.
  assert (Ho : (subdomain_id cell < S n)%nat) by (now apply (proj2 Hok)).
  destruct (Nat.eqb_spec (subdomain_id cell) 0) as [E0 | E0].
  - destruct (Nat.leb_spec 1 (subdomain_id cell)); [lia |]. cbn. lra.
  - rewrite bound_zero_box.
    destruct (Nat.leb_spec 1 (subdomain_id cell)); [| lia].
    destruct (Nat.ltb_spec (subdomain_id cell) (1 + n)); [| lia]. cbn. lra.
Qed.

Lemma ctor_debug_returns_release (debug : bool) (spacedim : nat)
      (to_float : Q -> Q) (bboxes : list BoundingBox) (t n_ranks : nat)
      (cells : list active_fe_cell) (p : FEIntersectionPredicate) :
  FEIntersectionPredicate_ctor debug spacedim to_float bboxes t n_ranks cells
  = Ret p ->
  FEIntersectionPredicate_ctor false spacedim to_float bboxes t n_ranks cells
  = Ret p.
Proof.
  unfold FEIntersectionPredicate_ctor. intro H.
  bind_inv H. rewrite Ha. cbn [bind].
  bind_inv H. rewrite Ha0. cbn [bind].
  bind_inv H. rewrite Ha1. cbn [bind].
  bind_inv H. now rewrite assert_volumes_release.
Qed.

(** When every active cell is owned by one rank of the communicator, the
    sum over the ranks leaves on every rank, at the index of each cell, the
    box its owner computed: the float conversion of the smallest and largest
    coordinates of its support points. A build without assertions returns
    this table, and a build with assertions returns no other. *)
Theorem FE_predicate_ctor_reduces_to_owner_boxes
        (spacedim : nat) (to_float : Q -> Q) (bboxes : list BoundingBox)
        (t n_ranks : nat) (cells : list active_fe_cell) :
  cells <> [] -> cells_ok n_ranks cells ->
  exists table,
    FEIntersectionPredicate_ctor false spacedim to_float bboxes t n_ranks cells
    = Ret (mkFEIntersectionPredicate t bboxes table) /\
    (forall p,
        FEIntersectionPredicate_ctor true spacedim to_float bboxes t n_ranks
          cells = Ret p ->
        p = mkFEIntersectionPredicate t bboxes table) /\
    List.length table = List.length cells /\
    forall cell, In cell cells ->
      exists box,
        nth_error table (fe_active_cell_index cell) = Some box /\
        forall d, (d < spacedim)%nat ->
          (lower_bound box d
           == to_float
                (lower_bound
                   (box_of_points spacedim (get_quadrature_points cell)) d))%Q
          /\
          (upper_bound box d
           == to_float
                (upper_bound
                   (box_of_points spacedim (get_quadrature_points cell)) d))%Q.
Proof.
  intros Hne Hok.
  destruct (reduced_table to_float spacedim Hne Hok)
    as (locals & table & Hc & Hr & Hlen & Hentries).
  assert (Hrel : FEIntersectionPredicate_ctor false spacedim to_float bboxes
                   t n_ranks cells
                 = Ret (mkFEIntersectionPredicate t bboxes table)).
  { unfold FEIntersectionPredicate_ctor. rewrite Hc. cbn [bind].
    destruct cells as [| c r]; [congruence |]. cbn [List.length Nat.eqb bind].
    cbn [List.length] in Hr. rewrite Hr. cbn [bind].
    now rewrite assert_volumes_release. }
  exists table. split; [exact Hrel |]. split.
  { intros p Hp. apply ctor_debug_returns_release in Hp. congruence. }
  split; [exact Hlen |].
  intros cell Hin. destruct (Hentries cell Hin) as (box & Hnth & Hb).
  exists box. split; [exact Hnth |]. intros d Hd. split.
  - rewrite (Hb false d Hd). unfold bound, cell_fbox, box_to_float.
    unfold lower_bound at 1. cbn [boundary_points fst].
    rewrite coordinate_map_seq by exact Hd. reflexivity.
  - rewrite (Hb true d Hd). unfold bound, cell_fbox, box_to_float.
    unfold upper_bound at 1. cbn [boundary_points snd].
    rewrite coordinate_map_seq by exact Hd. reflexivity.
Qed.

Lemma example_fe_cells_ok : cells_ok 2 example_fe_cells.
Proof.
  split.
  - cbn. repeat constructor; cbn; intuition discriminate.
  - intros cell [<- | [<- | []]]; cbn; lia.
Qed.

Lemma FE_predicate_ctor_reduces_to_owner_boxes_witness :
  exists table,
    FEIntersectionPredicate_ctor false 2 (fun x => x) [unit_cube] 0 2
      example_fe_cells
    = Ret (mkFEIntersectionPredicate 0 [unit_cube] table) /\
    List.length table = 2%nat.
Proof.
  destruct (@FE_predicate_ctor_reduces_to_owner_boxes 2 (fun x => x)
              [unit_cube] 0 2 example_fe_cells)
    as (table & H & _ & Hlen & _).
  - discriminate.
  - exact example_fe_cells_ok.
  - exists table. split; [exact H | exact Hlen].
Defined.

Example FE_predicate_ctor_example :
  FEIntersectionPredicate_ctor true 2 (fun x => x) [unit_cube] 0 2
    example_fe_cells
  = Ret (mkFEIntersectionPredicate 0 [unit_cube]
           [mkBoundingBox ([0; 0], [1; 1])%Q;
            mkBoundingBox ([1; 0], [2; 1])%Q]).
Proof. reflexivity. Qed.

Lemma volume_zero (spacedim : nat) (b : BoundingBox) (d : nat) :
  (d < spacedim)%nat ->
  (upper_bound b d == lower_bound b d)%Q ->
  (volume spacedim b == 0)%Q.
Proof.
  intros Hd Heq. unfold volume.
  assert (Hin : In d (seq 0 spacedim)) by (apply in_seq; lia).
  assert (Hzero : forall l v, (v == 0)%Q ->
            (fold_left (fun v d => v * (upper_bound b d - lower_bound b d))%Q
               l v == 0)%Q).
  { induction l as [| x l IH]; intros v Hv; cbn; [exact Hv |].
    apply IH. rewrite Hv. ring. }
  revert Hin. generalize (seq 0 spacedim) 1%Q.
  induction l as [| x l IH]; intros v Hin; [destruct Hin |].
  cbn [fold_left]. destruct Hin as [-> | Hin].
  - apply Hzero. rewrite Heq. ring.
  - now apply IH.
Qed.

Lemma assert_volumes_aborts (spacedim : nat) (boxes : list BoundingBox)
      (b : BoundingBox) :
  In b boxes -> (volume spacedim b == 0)%Q ->
  assert_volumes true spacedim boxes
  = Abort (ExcMessage "bboxes should not be empty").
Proof.
  intros Hin Hv. induction boxes as [| x r IH]; [destruct Hin |].
  cbn [assert_volumes].
  destruct (Overlap.Qlt_bool 0 (volume spacedim x)) eqn:E.
  - cbn. destruct Hin as [-> | Hin]; [| now apply IH].
    apply Qlt_bool_iff in E. lra.
  - reflexivity.
Qed.

(** An element with a single support point on some cell (a piecewise
    constant one, say) gives that cell a box without extent: the
    constructor aborts in a build with assertions, whichever rank owns the
    cell. *)
Theorem FE_predicate_ctor_rejects_point_boxes
        (spacedim : nat) (to_float : Q -> Q) (bboxes : list BoundingBox)
        (t n_ranks : nat) (cells : list active_fe_cell)
        (cell : active_fe_cell) (point : Point) :
  cells_ok n_ranks cells -> In cell cells -> (0 < spacedim)%nat ->
  get_quadrature_points cell = [point] ->
  FEIntersectionPredicate_ctor true spacedim to_float bboxes t n_ranks cells
  = Abort (ExcMessage "bboxes should not be empty").
Proof.
  intros Hok Hin Hsd Hpt.
  assert (Hne : cells <> []) by (intros ->; destruct Hin).
  destruct (reduced_table to_float spacedim Hne Hok)
    as (locals & table & Hc & Hr & Hlen & Hentries).
  destruct (Hentries cell Hin) as (box & Hnth & Hb).
  unfold FEIntersectionPredicate_ctor. rewrite Hc. cbn [bind].
  destruct cells as [| c r]; [congruence |]. cbn [List.length Nat.eqb bind].
  cbn [List.length] in Hr. rewrite Hr. cbn [bind].
  rewrite (@assert_volumes_aborts spacedim table box); [reflexivity | |].
  - eapply nth_error_In; eauto.
  - apply (@volume_zero spacedim box 0%nat Hsd).
    pose proof (Hb true 0%nat Hsd) as Hu. pose proof (Hb false 0%nat Hsd) as Hl.
    unfold bound in Hu, Hl. rewrite Hu, Hl.
    unfold cell_fbox, box_to_float, upper_bound at 1, lower_bound at 1.
    cbn [boundary_points fst snd].
    rewrite !coordinate_map_seq by exact Hsd.
    rewrite Hpt. unfold box_of_points, upper_bound, lower_bound.
    cbn [boundary_points fst snd fold_left].
    rewrite !coordinate_map_seq by exact Hsd. reflexivity.
Qed.

Lemma FE_predicate_ctor_rejects_point_boxes_witness :
  FEIntersectionPredicate_ctor true 2 (fun x => x) [unit_cube] 0 1
    example_point_cells
  = Abort (ExcMessage "bboxes should not be empty").
Proof.
  apply (@FE_predicate_ctor_rejects_point_boxes 2 (fun x => x) [unit_cube]
           0 1 example_point_cells
           (mk_active_fe_cell 0 0 [[1 # 2; 1 # 2]]%Q) [1 # 2; 1 # 2]%Q).
  - split.
    + cbn. repeat constructor. intros [].
    + intros cell [<- | []]; cbn; lia.
  - now left.
  - lia.
  - reflexivity.
Defined.

(** ** [OverlapTriangulation]: recording and looking up native cells *)

Import OverlapCells.

(** The pair recorded by [add_native_cell] is found again by
    [get_native_cell] under the returned index, which no lookup could use
    before; the lookups of the cells recorded earlier are not affected. *)
Theorem add_native_cell_then_get_native_cell
        (debug : bool) (spacedim : nat) (this this' : Overlap.OverlapTriangulation)
        (native_tria_address cell_triangulation : address)
        (cell : cell_data) (i : nat) :
  add_native_cell debug this native_tria_address cell_triangulation cell
  = Ret (this', i) ->
  i = List.length (Overlap.native_cells this) /\
  (forall it c,
      dereference (Overlap.base this) it = Some c -> user_index c = i ->
      Overlap.get_native_cell true spacedim this it = Abort ExcIndexRange /\
      Overlap.get_native_cell false spacedim this it = Undefined /\
      Overlap.get_native_cell false spacedim this' it
      = Ret (level cell, index cell) /\
      (forall n,
          dereference (Overlap.native_tria this) (level cell, index cell)
          = Some n ->
          Overlap.barycenters_agree spacedim n c = true ->
          Overlap.get_native_cell true spacedim this' it
          = Ret (level cell, index cell))) /\
  (forall build it c,
      dereference (Overlap.base this) it = Some c ->
      (user_index c < List.length (Overlap.native_cells this))%nat ->
      Overlap.get_native_cell build spacedim this' it
      = Overlap.get_native_cell build spacedim this it).
Proof.
  unfold add_native_cell. intro H. bind_inv H. injection H as <- <-.
  rewrite length_app. cbn [List.length].
  split; [lia |]. split.
  - intros it c Hc Hi.
    replace (List.length (Overlap.native_cells this) + 1 - 1)%nat
      with (List.length (Overlap.native_cells this)) in Hi by lia.
    unfold Overlap.get_native_cell, AssertIndexRange.
    cbn [Overlap.base Overlap.native_cells Overlap.native_tria].
    rewrite Hc, Hi, length_app. cbn [List.length].
    rewrite Nat.ltb_irrefl.
    assert (Hlt : (List.length (Overlap.native_cells this)
                   <? List.length (Overlap.native_cells this) + 1)%nat = true)
      by (apply Nat.ltb_lt; lia).
    rewrite Hlt.
    assert (Hnone : nth_error (Overlap.native_cells this)
                      (List.length (Overlap.native_cells this)) = None)
      by (apply nth_error_None; lia).
    rewrite Hnone, nth_error_app2, Nat.sub_diag by lia.
    cbn [nth_error Assert bind fst snd].
    repeat split. intros n Hn Hagree. rewrite Hn, Hagree. reflexivity.
  - intros build it c Hc Hlt.
    unfold Overlap.get_native_cell, AssertIndexRange.
    cbn [Overlap.base Overlap.native_cells Overlap.native_tria].
    rewrite Hc, length_app. cbn [List.length].
    rewrite nth_error_app1 by exact Hlt.
    apply Nat.ltb_lt in Hlt as Hlt1.
    assert (Hlt2 : (user_index c
                    <? List.length (Overlap.native_cells this) + 1)%nat = true)
      by (apply Nat.ltb_lt; lia).
    now rewrite Hlt1, Hlt2.
Qed.

Lemma add_native_cell_then_get_native_cell_witness :
  add_native_cell true
    (Overlap.mkOverlapTriangulation
       (mkTriangulation 1 [Overlap.overlap_cell])
       (mkTriangulation 1 [Overlap.overlap_cell]) [])
    7%nat 7%nat Overlap.overlap_cell
  = Ret (Overlap.fresh_overlap, 0%nat) /\
  Overlap.get_native_cell true 3 Overlap.fresh_overlap (0, 0)%Z
  = Ret (0, 0)%Z.
Proof.
  assert (H : add_native_cell true
                (Overlap.mkOverlapTriangulation
                   (mkTriangulation 1 [Overlap.overlap_cell])
                   (mkTriangulation 1 [Overlap.overlap_cell]) [])
                7%nat 7%nat Overlap.overlap_cell
              = Ret (Overlap.fresh_overlap, 0%nat)) by reflexivity.
  split; [exact H |].
  destruct (proj2 (@add_native_cell_then_get_native_cell true 3 _ _ _ _ _ _ H))
    as (Hnew & _).
  destruct (Hnew (0, 0)%Z Overlap.overlap_cell eq_refl eq_refl)
    as (_ & _ & _ & Hdebug).
  exact (Hdebug Overlap.overlap_cell eq_refl eq_refl).
Defined.

(** A cell of another triangulation is refused in a build with
    assertions. *)
Example add_native_cell_foreign :
  add_native_cell true Overlap.fresh_overlap 7%nat 8%nat Overlap.overlap_cell
  = Abort (ExcMessage "should be a native cell").
Proof. reflexivity. Qed.

(** ** [InteractionBase]: looking up registered handlers *)

Lemma find_position_app_old (l l' : list address) (ptr : address) :
  In ptr l -> find_position (l ++ l') ptr = find_position l ptr.
Proof.
  induction l as [| x r IH]; cbn; [tauto |].
  intros [-> | Hin].
  - now rewrite Nat.eqb_refl.
  - destruct (x =? ptr)%nat; [reflexivity |]. now rewrite IH.
Qed.

Lemma find_position_app_new (l : list address) (ptr : address) :
  ~ In ptr l -> find_position (l ++ [ptr]) ptr = Some (List.length l).
Proof.
  induction l as [| x r IH]; cbn; intro H.
  - now rewrite Nat.eqb_refl.
  - destruct (Nat.eqb_spec x ptr) as [-> | Hne]; [tauto |].
    rewrite IH by tauto. reflexivity.
Qed.

Lemma nth_error_in_range {A : Type} (l : list A) (i : nat) :
  (i < List.length l)%nat -> exists x, nth_error l i = Some x.
Proof.
  intro H. destruct (nth_error l i) as [x |] eqn:E; [eauto |].
  apply nth_error_None in E. lia.
Qed.

(** When the registry is aligned, a handler that [add_dof_handler]
    accepted is found by both lookups; for a handler that was new they
    return the overlap handler and the scatter built by that call, at the
    end of the registry; the lookups of the handlers registered before
    return what they returned before. *)
Theorem add_dof_handler_then_lookup
        (E : Collaborators) (mem : Memory) (this this' : InteractionBase)
        (handler : address) :
  registry_ok this ->
  add_dof_handler E mem this handler = Ret this' ->
  (exists i s o,
      get_scatter this' handler = Ret (i, s) /\
      get_overlap_dof_handler this' handler = Ret o /\
      (~ In handler (native_dof_handlers this) ->
       exists dh,
         dof_handlers mem handler = Some dh /\
         i = List.length (native_dof_handlers this) /\
         o = distribute_dofs E (overlap_tria this) (get_fe_collection dh) /\
         s = new_Scatter
               (compute_overlap_to_native_dof_translation E
                  (overlap_tria this) o dh)
               (dof_locally_owned_dofs dh) (communicator this))) /\
  (forall other,
      In other (native_dof_handlers this) ->
      get_scatter this' other = get_scatter this other /\
      get_overlap_dof_handler this' other
      = get_overlap_dof_handler this other).
Proof.
  intros (Hnd & Ho & Hs) H. unfold add_dof_handler in H.
  apply bind_Ret_inv in H as (dh & Hdh & H).
  apply bind_Ret_inv in H as (u & _ & H).
  assert (Hdh' : dof_handlers mem handler = Some dh).
  { destruct (dof_handlers mem handler); [| discriminate].
    cbn in Hdh. congruence. }
  destruct (find_position (native_dof_handlers this) handler) as [i |] eqn:Ef.
  - injection H as <-.
    apply find_position_Some in Ef as Hi. destruct Hi as (Hi & Hin).
    destruct (@nth_error_in_range _ (scatters this) i) as (s & Hsc); [lia |].
    destruct (@nth_error_in_range _ (overlap_dof_handlers this) i)
      as (o & Hoc); [lia |].
    split; [| auto].
    exists i, s, o. unfold get_scatter, get_overlap_dof_handler.
    rewrite Ef, Hsc, Hoc. repeat split. intro C. contradiction.
  - injection H as <-. apply find_position_None in Ef. split.
    + eexists _, _, _. unfold get_scatter, get_overlap_dof_handler.
      cbn [native_dof_handlers scatters overlap_dof_handlers].
      rewrite find_position_app_new by exact Ef.
      rewrite <- Hs at 1. rewrite <- Ho at 1.
      rewrite !nth_error_app2, !Nat.sub_diag by lia.
      cbn [nth_error deref bind].
      split; [reflexivity |]. split; [reflexivity |].
      intros _. exists dh. auto.
    + intros other Hin. unfold get_scatter, get_overlap_dof_handler.
      cbn [native_dof_handlers scatters overlap_dof_handlers].
      rewrite find_position_app_old by exact Hin.
      destruct (find_position (native_dof_handlers this) other) as [j |] eqn:Ej;
        [| auto].
      apply find_position_Some in Ej as (Hj & _).
      rewrite !nth_error_app1 by lia. auto.
Qed.

Lemma example_base_registry_ok : registry_ok example_base.
Proof.
  unfold registry_ok. cbn. repeat split.
  constructor; [intros [] | constructor].
Qed.

Lemma add_dof_handler_then_lookup_witness :
  exists i s o,
    get_scatter example_base 10%nat = Ret (i, s) /\
    get_overlap_dof_handler example_base 10%nat = Ret o.
Proof.
  destruct (@add_dof_handler_then_lookup example_collaborators example_memory
              example_base example_base 10%nat example_base_registry_ok
              eq_refl)
    as ((i & s & o & H1 & H2 & _) & _).
  exists i, s, o. split; [exact H1 | exact H2].
Defined.

(** On every pipeline object the public functions can produce, the two
    lookups return for the registered handlers and throw for the others;
    they never run past the end of the registry. *)
Theorem reachable_lookups
        (E : Collaborators) (this : InteractionBase) (handler : address) :
  reachable E this ->
  (In handler (native_dof_handlers this) ->
   returns (get_scatter this handler) /\
   returns (get_overlap_dof_handler this handler)) /\
  (~ In handler (native_dof_handlers this) ->
   get_scatter this handler = Throw not_registered /\
   get_overlap_dof_handler this handler = Throw not_registered).
Proof.
  intro Hr. apply reachable_registry_ok in Hr as (_ & Ho & Hs).
  unfold get_scatter, get_overlap_dof_handler, returns. split.
  - intro Hin. destruct (find_position_In _ _ Hin) as (i & Hi).
    rewrite Hi. apply find_position_Some in Hi as (Hi & _).
    destruct (@nth_error_in_range _ (scatters this) i) as (s & ->); [lia |].
    destruct (@nth_error_in_range _ (overlap_dof_handlers this) i)
      as (o & ->); [lia |].
    cbn. eauto.
  - intro Hout. apply find_position_None in Hout. rewrite Hout. auto.
Qed.

Lemma reachable_lookups_witness :
  returns (get_scatter example_base 10%nat) /\
  returns (get_overlap_dof_handler example_base 10%nat).
Proof.
  apply (proj1 (@reachable_lookups example_collaborators example_base 10%nat
                  example_base_reachable)).
  now left.
Defined.

(** ** [InteractionBase::reinit]: what a call that returns has done *)

(** The members and the memory after a call of [reinit] that returns. *)
Lemma reinit_inv (debug : bool) (spacedim : nat) (E : Collaborators)
      (mem : Memory) (this : InteractionBase) (n_tria : address)
      (bboxes : list BoundingBox) (hierarchy : option address) (l : Z)
      (cache : option address) (mem' : Memory) (this' : InteractionBase) :
  reinit debug spacedim E mem this n_tria bboxes hierarchy l cache
  = Ret (mem', this') ->
  (native_tria this' = n_tria /\ patch_hierarchy this' = hierarchy /\
   level_number this' = l /\ eulerian_data_cache this' = cache /\
   quad_index_work_size this'
   = temporary_storage_size (active_cell_index_partitioner this') /\
   n_quad_index_requests this'
   = (fst (n_targets (active_cell_index_partitioner this'))
      + snd (n_targets (active_cell_index_partitioner this')))%nat) /\
  (triangulations mem' = triangulations mem /\
   number_of_levels mem' = number_of_levels mem /\
   dof_handlers mem' = dof_handlers mem /\ vectors mem' = vectors mem /\
   SAMRAI_communicator mem' = SAMRAI_communicator mem) /\
  hierarchy <> None /\
  (debug = true ->
   exists new_tria h levels,
     triangulations mem n_tria = Some new_tria /\
     List.length bboxes = n_active_cells new_tria /\
     hierarchy = Some h /\ number_of_levels mem h = Some levels /\
     (l < levels)%Z /\ cache <> None /\
     MPI_Comm_compare mem' (communicator this') (SAMRAI_communicator mem')
     <> MPI_UNEQUAL).
Proof.
  unfold reinit. intro H.
  apply bind_Ret_inv in H as (new_tria & Hnew & H).
  apply bind_Ret_inv in H as (recreate & Hrec & H).
  assert (Hmem : forall m c,
             (m, c) = (if recreate
                       then duplicate_communicator mem
                              (get_communicator new_tria)
                       else (mem, communicator this)) ->
             triangulations m = triangulations mem /\
             number_of_levels m = number_of_levels mem /\
             dof_handlers m = dof_handlers mem /\ vectors m = vectors mem /\
             SAMRAI_communicator m = SAMRAI_communicator mem).
  { intros m c Hm. destruct recreate; cbn in Hm; injection Hm as -> ->;
      cbn; auto. }
  destruct (if recreate then _ else _) as [mem1 communicator1].
  specialize (Hmem mem1 communicator1 eq_refl).
  apply bind_Ret_inv in H as (u1 & Hcmp & H).
  apply bind_Ret_inv in H as (u2 & Hbox & H).
  apply bind_Ret_inv in H as (u3 & Hnull & H).
  apply bind_Ret_inv in H as (h & Hh & H).
  apply bind_Ret_inv in H as (u4 & Hlev & H).
  apply bind_Ret_inv in H as (u5 & Hcache & H).
  apply bind_Ret_inv in H as (oi & _ & H).
  apply bind_Ret_inv in H as (ob & _ & H).
  apply bind_Ret_inv in H as (gi & _ & H).
  injection H as <- <-. cbn.
  split; [repeat split |]. split; [exact Hmem |].
  split; [destruct hierarchy; [discriminate | discriminate Hh] |].
  intros ->. exists new_tria, h.
  apply bind_Ret_inv in Hlev as (levels & Hlevels & Hlev).
  exists levels.
  destruct Hmem as (_ & Hnl & _).
  split; [destruct (triangulations mem n_tria); [cbn in Hnew; congruence
                                                  | discriminate] |].
  split; [apply Nat.eqb_eq; now apply (Assert_Ret_inv _ _ Hbox) |].
  split; [destruct hierarchy; [cbn in Hh; congruence | discriminate] |].
  split.
  { rewrite <- Hnl. destruct (number_of_levels mem1 h); [| discriminate].
    cbn in Hlevels. congruence. }
  split; [apply Z.ltb_lt; now apply (Assert_Ret_inv _ _ Hlev) |].
  split.
  { apply (Assert_Ret_inv _ _) in Hcache; [| reflexivity].
    destruct cache; [discriminate | discriminate Hcache]. }
  apply (Assert_Ret_inv _ _) in Hcmp; [| reflexivity].
  intro C. rewrite C in Hcmp. discriminate.
Qed.

(** A call of [reinit] that returns has stored its arguments and the sizes
    of the communication plan of the new partitioner, and was given a patch
    hierarchy; in a build with assertions it was also given one bounding box
    for each active cell, a level below the number of levels, a data cache,
    and a communicator that SAMRAI's matches. *)
Theorem reinit_checks_its_arguments
        (debug : bool) (spacedim : nat) (E : Collaborators)
        (mem : Memory) (this : InteractionBase) (n_tria : address)
        (bboxes : list BoundingBox) (hierarchy : option address) (l : Z)
        (cache : option address) (mem' : Memory) (this' : InteractionBase) :
  reinit debug spacedim E mem this n_tria bboxes hierarchy l cache
  = Ret (mem', this') ->
  native_tria this' = n_tria /\ patch_hierarchy this' = hierarchy /\
  level_number this' = l /\ eulerian_data_cache this' = cache /\
  quad_index_work_size this'
  = temporary_storage_size (active_cell_index_partitioner this') /\
  n_quad_index_requests this'
  = (fst (n_targets (active_cell_index_partitioner this'))
     + snd (n_targets (active_cell_index_partitioner this')))%nat /\
  hierarchy <> None /\
  (debug = true ->
   exists new_tria h levels,
     triangulations mem n_tria = Some new_tria /\
     List.length bboxes = n_active_cells new_tria /\
     hierarchy = Some h /\ number_of_levels mem h = Some levels /\
     (l < levels)%Z /\ cache <> None /\
     MPI_Comm_compare mem' (communicator this') (SAMRAI_communicator mem')
     <> MPI_UNEQUAL).
Proof.
  intro H. apply reinit_inv in H as (Hf & _ & Hh & Hd).
  destruct Hf as (H1 & H2 & H3 & H4 & H5 & H6). auto 10.
Qed.

Lemma reinit_checks_its_arguments_witness :
  exists mem' this',
    reinit true 3 example_collaborators example_running_memory example_base
      2%nat [unit_cube] (Some 5%nat) 0%Z (Some 6%nat)
    = Ret (mem', this') /\
    native_tria this' = 2%nat /\ quad_index_work_size this' = 1%nat.
Proof.
  eexists. eexists.
  assert (H : reinit true 3 example_collaborators example_running_memory
                example_base 2%nat [unit_cube] (Some 5%nat) 0%Z (Some 6%nat)
              = Ret (example_running_memory,
                     set_native_tria_for_example example_base))
    by reflexivity.
  split; [exact H |].
  destruct (reinit_checks_its_arguments _ _ _ _ _ _ _ _ _ _ H)
    as (H1 & _ & _ & _ & H5 & _).
  split; [exact H1 | exact H5].
Defined.

(** With too few bounding boxes, or without a patch hierarchy, a build
    with assertions aborts; without assertions a missing hierarchy is
    dereferenced. *)
Example reinit_rejects_arguments :
  reinit true 3 example_collaborators example_running_memory example_base
    2%nat [] (Some 5%nat) 0%Z (Some 6%nat)
  = Abort (ExcMessage "There should be a bounding box for each active cell") /\
  reinit true 3 example_collaborators example_running_memory example_base
    2%nat [unit_cube] None 0%Z (Some 6%nat)
  = Abort (ExcMessage "The provided pointer to a patch hierarchy should not be null.") /\
  reinit false 3 example_collaborators example_running_memory example_base
    2%nat [unit_cube] None 0%Z (Some 6%nat)
  = Undefined.
Proof. repeat split. Qed.

(** [reinit] rebuilds the overlap triangulation but not the registry: every
    lookup returns the overlap handler and the scatter it returned before,
    built for the previous overlap triangulation and communicator, and
    registering a registered handler again on the new triangulation
    rebuilds nothing. *)
Theorem reinit_keeps_stale_registrations
        (debug : bool) (spacedim : nat) (E : Collaborators)
        (mem : Memory) (this : InteractionBase) (n_tria : address)
        (bboxes : list BoundingBox) (hierarchy : option address) (l : Z)
        (cache : option address) (mem' : Memory) (this' : InteractionBase) :
  reinit debug spacedim E mem this n_tria bboxes hierarchy l cache
  = Ret (mem', this') ->
  (forall handler,
      get_scatter this' handler = get_scatter this handler /\
      get_overlap_dof_handler this' handler
      = get_overlap_dof_handler this handler) /\
  (forall handler mem2 dh,
      In handler (native_dof_handlers this) ->
      dof_handlers mem2 handler = Some dh ->
      dof_triangulation dh = n_tria ->
      add_dof_handler E mem2 this' handler = Ret this').
Proof.
  intro H.
  pose proof (reinit_keeps_registry _ _ _ _ _ _ _ _ _ _ H) as (Hn & Ho & Hs).
  apply reinit_inv in H as ((Ht & _) & _).
  split.
  - intro handler. unfold get_scatter, get_overlap_dof_handler.
    now rewrite Hn, Ho, Hs.
  - intros handler mem2 dh Hin Hdh Htria. unfold add_dof_handler.
    rewrite Hdh. cbn [deref bind]. rewrite Htria, Ht, Nat.eqb_refl.
    cbn [AssertThrow bind]. rewrite Hn.
    destruct (find_position_In _ _ Hin) as (i & ->). reflexivity.
Qed.

Lemma reinit_keeps_stale_registrations_witness :
  exists mem' this',
    reinit true 3 example_collaborators example_running_memory example_base
      3%nat [unit_cube] (Some 5%nat) 0%Z (Some 6%nat)
    = Ret (mem', this') /\
    communicator this' = 4%nat /\
    get_scatter this' 10%nat
    = Ret (0%nat, new_Scatter [0; 1; 1]%nat [0; 1; 2]%nat 3%nat).
Proof.
  eexists. eexists.
  assert (H : reinit true 3 example_collaborators example_running_memory
                example_base 3%nat [unit_cube] (Some 5%nat) 0%Z (Some 6%nat)
              = Ret (fst (duplicate_communicator example_running_memory 2),
                     example_rebuilt_base))
    by reflexivity.
  split; [exact H |]. split; [reflexivity |].
  rewrite (proj1 (proj1 (reinit_keeps_stale_registrations _ _ _ _ _ _ _ _ _ _ H)
                    10%nat)).
  reflexivity.
Defined.

(** ** The projection phases: registration, checks and the result vector *)

(** [compute_projection_rhs_start] does not return when the position
    handler or the force handler has not been registered; on an aligned
    registry a build without assertions throws the exception of the
    lookups. *)
Theorem start_needs_registered_handlers
        (debug : bool) (mem : Memory) (this : InteractionBase)
        (f : Z) (q : address) (qi : list nat) (Xh X Fh Fm F : address) :
  ~ In Xh (native_dof_handlers this) \/ ~ In Fh (native_dof_handlers this) ->
  ~ returns (compute_projection_rhs_start debug mem this f q qi Xh X Fh Fm F)
  /\
  (registry_ok this ->
   compute_projection_rhs_start false mem this f q qi Xh X Fh Fm F
   = Throw not_registered).
Proof.
  intro Hout. split.
  - intros ([this' trans] & H).
    apply start_inv in H
      as (_ & _ & _ & _ & _ & _ & (iX & sX & Xv & HgX & _) & (iF & HfF)
          & Hn & _).
    apply get_scatter_inv in HgX as (HfX & _).
    apply find_position_Some in HfX as (_ & HinX).
    apply find_position_Some in HfF as (_ & HinF).
    rewrite Hn in HinX, HinF. tauto.
  - intros (_ & Ho & _). unfold compute_projection_rhs_start.
    cbn [bind]. unfold get_overlap_dof_handler.
    destruct (find_position (native_dof_handlers this) Xh) as [iX |] eqn:EX;
      [| reflexivity].
    apply find_position_Some in EX as (HiX & HinX).
    destruct (@nth_error_in_range _ (overlap_dof_handlers this) iX)
      as (o & ->); [lia |].
    cbn [deref bind].
    destruct Hout as [C | HF]; [contradiction |].
    apply find_position_None in HF. now rewrite HF.
Qed.

Lemma start_needs_registered_handlers_witness :
  ~ returns (compute_projection_rhs_start true example_running_memory
               example_base 0 0 [0%nat] 11 20 10 0 21) /\
  compute_projection_rhs_start false example_running_memory example_base
    0 0 [0%nat] 11 20 10 0 21
  = Throw not_registered.
Proof.
  destruct (@start_needs_registered_handlers true example_running_memory
              example_base 0%Z 0%nat [0%nat] 11%nat 20%nat 10%nat 0%nat
              21%nat) as (H1 & H2).
  - left. cbn. intros [H | []]. discriminate.
  - split; [exact H1 | exact (H2 example_base_registry_ok)].
Defined.

(** In a build with assertions [compute_projection_rhs_start] returns only
    when there is one quadrature index for each locally owned active cell
    and the position and result vectors live on communicators that are
    congruent to the communicator of the pipeline, that is on other handles
    of the same process group: a vector on the very handle of the pipeline
    is refused. *)
Theorem start_checks_communicators
        (mem : Memory) (this this' : InteractionBase)
        (f : Z) (q : address) (qi : list nat) (Xh X Fh Fm F : address)
        (trans : Transaction) :
  compute_projection_rhs_start true mem this f q qi Xh X Fh Fm F
  = Ret (this', trans) ->
  exists native X_vec F_vec,
    triangulations mem (native_tria this) = Some native /\
    List.length qi = n_locally_owned_active_cells native /\
    vectors mem X = Some X_vec /\ vectors mem F = Some F_vec /\
    get_mpi_communicator X_vec <> communicator this /\
    group_of mem (get_mpi_communicator X_vec)
    = group_of mem (communicator this) /\
    get_mpi_communicator F_vec <> communicator this /\
    group_of mem (get_mpi_communicator F_vec)
    = group_of mem (communicator this).
Proof.
  unfold compute_projection_rhs_start. intro H.
  apply bind_Ret_inv in H as (u & Hchecks & _).
  apply bind_Ret_inv in Hchecks as (native & Hnative & Hchecks).
  apply bind_Ret_inv in Hchecks as (u1 & Hlen & Hchecks).
  apply bind_Ret_inv in Hchecks as (X_vec & HX & Hchecks).
  apply bind_Ret_inv in Hchecks as (u2 & HcX & Hchecks).
  apply bind_Ret_inv in Hchecks as (F_vec & HF & HcF).
  assert (Hsame : forall c,
             same_communicator mem (communicator this) c = true ->
             c <> communicator this /\
             group_of mem c = group_of mem (communicator this)).
  { intros c. unfold same_communicator, MPI_Comm_compare.
    destruct (Nat.eqb_spec (communicator this) c) as [E | E];
      [discriminate |].
    destruct (Nat.eqb_spec (group_of mem (communicator this)) (group_of mem c));
      [| discriminate].
    intros _. split; congruence. }
  apply (Assert_Ret_inv _ _) in Hlen; [| reflexivity].
  apply (Assert_Ret_inv _ _) in HcX; [| reflexivity].
  apply (Assert_Ret_inv _ _) in HcF; [| reflexivity].
  apply Hsame in HcX as (HX1 & HX2). apply Hsame in HcF as (HF1 & HF2).
  exists native, X_vec, F_vec.
  split; [destruct (triangulations mem (native_tria this));
          [cbn in Hnative; congruence | discriminate] |].
  split; [now apply Nat.eqb_eq |].
  split; [destruct (vectors mem X); [cbn in HX; congruence | discriminate] |].
  split; [destruct (vectors mem F); [cbn in HF; congruence | discriminate] |].
  auto.
Qed.

Lemma start_checks_communicators_witness :
  exists native X_vec F_vec,
    triangulations example_running_memory (native_tria example_base)
    = Some native /\
    List.length [0%nat] = n_locally_owned_active_cells native /\
    vectors example_running_memory 20%nat = Some X_vec /\
    vectors example_running_memory 21%nat = Some F_vec /\
    get_mpi_communicator X_vec <> communicator example_base /\
    group_of example_running_memory (get_mpi_communicator X_vec)
    = group_of example_running_memory (communicator example_base) /\
    get_mpi_communicator F_vec <> communicator example_base /\
    group_of example_running_memory (get_mpi_communicator F_vec)
    = group_of example_running_memory (communicator example_base).
Proof.
  exact (@start_checks_communicators example_running_memory example_base
           example_started_base 0%Z 0%nat [0%nat] 10%nat 20%nat 10%nat 0%nat
           21%nat example_transaction eq_refl).
Defined.

(** A position vector on the handle of the pipeline itself. *)
Example start_refuses_identical_communicator :
  compute_projection_rhs_start true
    (set_vector example_running_memory 20 (mkVector 30 3 [1; 2; 3]%Q))
    example_base 0 0 [0%nat] 10 20 10 0 21
  = Abort (ExcMessage "The same communicator should be used for X and the input triangulation").
Proof. reflexivity. Qed.

(** [compute_projection_rhs_finish] writes to the result vector of the
    transaction and to nothing else in the memory of the caller; the result
    vector keeps its partitioner, its communicator and its size. *)
Theorem finish_writes_only_the_result_vector
        (debug : bool) (mem mem' : Memory) (this this' : InteractionBase)
        (trans trans' : Transaction) :
  compute_projection_rhs_finish debug mem this trans
  = Ret (mem', this', trans') ->
  (forall a, a <> native_F_rhs trans -> vectors mem' a = vectors mem a) /\
  triangulations mem' = triangulations mem /\
  dof_handlers mem' = dof_handlers mem /\
  number_of_levels mem' = number_of_levels mem /\
  next_communicator mem' = next_communicator mem /\
  exists F_vec F_vec',
    vectors mem (native_F_rhs trans) = Some F_vec /\
    vectors mem' (native_F_rhs trans) = Some F_vec' /\
    LA.get_partitioner F_vec' = LA.get_partitioner F_vec /\
    get_mpi_communicator F_vec' = get_mpi_communicator F_vec /\
    List.length (values F_vec') = List.length (values F_vec).
Proof.
  unfold compute_projection_rhs_finish. intro H.
  apply bind_Ret_inv in H as (u1 & _ & H).
  apply bind_Ret_inv in H as (u2 & _ & H).
  apply bind_Ret_inv in H as ([iF sF] & _ & H).
  apply bind_Ret_inv in H as (F_vec & HF & H).
  assert (HF' : vectors mem (native_F_rhs trans) = Some F_vec).
  { destruct (vectors mem (native_F_rhs trans)); [| discriminate].
    cbn in HF. congruence. }
  assert (Hlen : List.length
                   (snd (overlap_to_global_finish sF (overlap_F_rhs trans)
                           VectorOperation.add (values F_vec)))
                 = List.length (values F_vec)).
  { unfold overlap_to_global_finish.
    destruct (to_global_in_flight sF) as [[[ch op] messages] |];
      [| reflexivity].
    cbn [snd]. apply reduce_add_accumulates. }
  destruct (overlap_to_global_finish sF (overlap_F_rhs trans)
              VectorOperation.add (values F_vec)) as [sF1 F_values].
  injection H as <- _ _. cbn in *.
  split.
  { intros a Ha. apply Nat.eqb_neq in Ha. now rewrite Ha. }
  repeat (split; [reflexivity |]).
  exists F_vec. eexists. split; [exact HF' |].
  rewrite Nat.eqb_refl. split; [reflexivity |]. cbn. auto.
Qed.

Lemma finish_writes_only_the_result_vector_witness :
  exists mem' this' trans',
    compute_projection_rhs_finish true example_running_memory
      example_intermediate_base example_intermediate_transaction
    = Ret (mem', this', trans') /\
    vectors mem' 20%nat = vectors example_running_memory 20%nat /\
    vectors mem' 21%nat = Some (mkVector 30 1 [11; 22; 30]%Q).
Proof.
  eexists. eexists. eexists.
  assert (H : compute_projection_rhs_finish true example_running_memory
                example_intermediate_base example_intermediate_transaction
              = Ret (set_vector example_running_memory 21
                       (mkVector 30 1 [11; 22; 30]%Q),
                     example_base,
                     mkTransaction 0 0 [0%nat] [0%nat] [0%nat] [] 10 20
                       [1; 2; 2]%Q 10 0 21 [1; 1; 1]%Q Done Interpolation))
    by reflexivity.
  split; [exact H |]. split; [| reflexivity].
  apply (proj1 (finish_writes_only_the_result_vector _ _ _ _ H)).
  discriminate.
Defined.

Lemma contribution_of_zeros (table : list nat) (n k : nat) :
  (contribution (combine table (repeat 0%Q n)) k == 0)%Q.
Proof.
  revert n. induction table as [| i r IH]; intros [| n]; cbn; try lra.
  rewrite IH. destruct (i =? k)%nat; lra.
Qed.

Lemma start_zeroes_overlap_F debug mem this f q qi Xh X Fh Fm F this' trans :
  compute_projection_rhs_start debug mem this f q qi Xh X Fh Fm F
  = Ret (this', trans) ->
  exists n, overlap_F_rhs trans = repeat 0%Q n.
Proof.
  unfold compute_projection_rhs_start. intro H.
  apply bind_Ret_inv in H as (u & _ & H).
  apply bind_Ret_inv in H as (oX & _ & H).
  apply bind_Ret_inv in H as (oF & _ & H).
  apply bind_Ret_inv in H as ([iX sX] & _ & H).
  apply bind_Ret_inv in H as (X_vec & _ & H).
  injection H as _ <-. cbn. eauto.
Qed.

(** In [InteractionBase] itself nothing computes the overlap result vector
    between the two scatters: when the registry is aligned and the result
    vector exists, the three phases called in order on what start returned
    all return, and every entry of the result vector is numerically what it
    was before. *)
Theorem base_class_projection_adds_nothing
        (debug : bool) (mem : Memory) (this this1 : InteractionBase)
        (f : Z) (q : address) (qi : list nat) (Xh X Fh Fm F : address)
        (trans : Transaction) (F_vec : Vector) :
  compute_projection_rhs_start debug mem this f q qi Xh X Fh Fm F
  = Ret (this1, trans) ->
  List.length (scatters this) = List.length (native_dof_handlers this) ->
  vectors mem F = Some F_vec ->
  exists this2 trans1 mem3 this3 trans2 F_vec',
    compute_projection_rhs_intermediate debug mem this1 trans
    = Ret (this2, trans1) /\
    compute_projection_rhs_finish debug mem this2 trans1
    = Ret (mem3, this3, trans2) /\
    vectors mem3 F = Some F_vec' /\
    List.length (values F_vec') = List.length (values F_vec) /\
    forall k, (k < List.length (values F_vec))%nat ->
      (entry (values F_vec') k == entry (values F_vec) k)%Q.
Proof.
  intros Hstart Hlen HvF.
  destruct (start_zeroes_overlap_F _ _ _ _ _ _ _ _ _ _ _ Hstart) as (n & Hz).
  apply start_inv in Hstart
    as (Hs & Ho & HXh & HX & HFh & HF & (iX & sX & X_vec & HgX & HvX)
        & (iF & HfF) & Hn & Hl).
  assert (HgF : exists sF, get_scatter this1 Fh = Ret (iF, sF)).
  { apply find_position_Some in HfF as HiF. destruct HiF as (HiF & _).
    destruct (@nth_error_in_range _ (scatters this1) iF) as (sF & HsF).
    - rewrite Hn in HiF. lia.
    - exists sF. now apply get_scatter_intro. }
  destruct HgF as (sF & HgF).
  destruct (@intermediate_returns debug mem this1 trans iX iF sX sF
              X_vec F_vec) as (this2 & trans1 & Hi); try congruence.
  { intros _. auto. }
  pose proof (intermediate_inv _ _ _ _ Hi)
    as (Hs1 & Ho1 & HFh1 & HF1 & Hov1 & _ & (iF' & sF' & Fv & HvF' & HgF')).
  assert (Fv = F_vec) by congruence. subst Fv.
  destruct (@finish_returns debug mem this2 trans1 iF'
              (overlap_to_global_start sF' (overlap_F_rhs trans)
                 VectorOperation.add 0 (values F_vec)) F_vec)
    as (mem3 & this3 & trans2 & Hfin & Hvec); try congruence.
  { intros _. split; congruence. }
  rewrite HF1, HF, Hov1 in Hvec.
  eexists this2, trans1, mem3, this3, trans2, _.
  split; [exact Hi |]. split; [exact Hfin |]. split; [exact Hvec |].
  cbn [values snd overlap_to_global_finish overlap_to_global_start
       to_global_in_flight overlap_dofs].
  destruct (reduce_add_accumulates
              (combine (overlap_dofs sF') (overlap_F_rhs trans))
              (values F_vec)) as (Hlen' & Hent).
  split; [exact Hlen' |].
  intros k Hk. rewrite (Hent k Hk), Hz, contribution_of_zeros. lra.
Qed.

Lemma base_class_projection_adds_nothing_witness :
  exists this2 trans1 mem3 this3 trans2 F_vec',
    compute_projection_rhs_intermediate true example_running_memory
      example_started_base example_transaction = Ret (this2, trans1) /\
    compute_projection_rhs_finish true example_running_memory this2 trans1
    = Ret (mem3, this3, trans2) /\
    vectors mem3 21%nat = Some F_vec' /\
    List.length (values F_vec') = 3%nat /\
    forall k, (k < 3)%nat ->
      (entry (values F_vec') k == entry [10; 20; 30]%Q k)%Q.
Proof.
  exact (@base_class_projection_adds_nothing true example_running_memory
           example_base example_started_base 0%Z 0%nat [0%nat] 10%nat 20%nat
           10%nat 0%nat 21%nat example_transaction
           (mkVector 30 1 [10; 20; 30]%Q) eq_refl eq_refl eq_refl).
Defined.

(** ** [Part]: how the setters compose *)

Lemma Part_eta (this : Part) :
  mkPart (tria this) (fe this) (dof_handler this) (constraints this)
    (partitioner this) (quadrature this) (mapping this) (matrix_free this)
    (mass_operator this) (mass_preconditioner this) (position this)
    (velocity this) (force_contributions this) = this.
Proof. now destruct this. Qed.

(** The setters keep the position and the velocity on the partitioner of
    the part in a build with assertions, whatever they are given. *)
Lemma setters_keep_on_partitioner
      (same_local_ranges : address -> address -> bool)
      (this this' : Part) (X : LA.Vector) :
  on_partitioner this ->
  (set_position true same_local_ranges this X = Ret this' ->
   on_partitioner this') /\
  (forall old, set_position_move true this X = Ret (this', old) ->
               on_partitioner this') /\
  (set_velocity true same_local_ranges this X = Ret this' ->
   on_partitioner this') /\
  (forall old, set_velocity_move true this X = Ret (this', old) ->
               on_partitioner this').
Proof.
  intros (Hp & Hv).
  unfold set_position, set_position_move, set_velocity, set_velocity_move,
    Assert.
  destruct (Nat.eqb_spec (LA.get_partitioner X) (partitioner this))
    as [HX | HX]; cbn [bind];
    (split; [| split; [| split]]); intros;
    match goal with
    | H : _ = Ret _ |- _ => try discriminate H; injection H; intros; subst
    end;
    unfold on_partitioner; cbn;
    rewrite ?Vector_assign_same_partitioner by congruence; auto.
Qed.

(** The overload of [set_position] that swaps hands the previous position
    back to the caller, and moving the previous position in again restores
    the part and returns the vector. The overload that copies leaves the
    same part when the argument is on the partitioner of the stored
    position, or on one with other local ranges; on another partitioner
    with the same local ranges it leaves a different part, whose position
    has the entries of the argument on the partitioner it had. The same
    holds for [set_velocity]. *)
Theorem set_position_move_swaps
        (debug : bool) (same_local_ranges : address -> address -> bool)
        (this this' : Part) (X old : LA.Vector) :
  (set_position_move debug this X = Ret (this', old) ->
   old = get_position this /\
   (LA.get_partitioner (get_position this) = LA.get_partitioner X \/
    same_local_ranges (LA.get_partitioner (get_position this))
      (LA.get_partitioner X) = false ->
    set_position debug same_local_ranges this X = Ret this') /\
   (LA.get_partitioner (get_position this) <> LA.get_partitioner X ->
    same_local_ranges (LA.get_partitioner (get_position this))
      (LA.get_partitioner X) = true ->
    exists copied,
      set_position debug same_local_ranges this X = Ret copied /\
      copied <> this' /\
      LA.get_partitioner (get_position copied)
      = LA.get_partitioner (get_position this) /\
      LA.values (get_position copied) = LA.values X) /\
   (LA.get_partitioner old = partitioner this ->
    set_position_move debug this' old = Ret (this, X))) /\
  (set_velocity_move debug this X = Ret (this', old) ->
   old = get_velocity this /\
   (LA.get_partitioner (get_velocity this) = LA.get_partitioner X \/
    same_local_ranges (LA.get_partitioner (get_velocity this))
      (LA.get_partitioner X) = false ->
    set_velocity debug same_local_ranges this X = Ret this') /\
   (LA.get_partitioner (get_velocity this) <> LA.get_partitioner X ->
    same_local_ranges (LA.get_partitioner (get_velocity this))
      (LA.get_partitioner X) = true ->
    exists copied,
      set_velocity debug same_local_ranges this X = Ret copied /\
      copied <> this' /\
      LA.get_partitioner (get_velocity copied)
      = LA.get_partitioner (get_velocity this) /\
      LA.values (get_velocity copied) = LA.values X) /\
   (LA.get_partitioner old = partitioner this ->
    set_velocity_move debug this' old = Ret (this, X))).
Proof.
  unfold set_position_move, set_position, set_velocity_move, set_velocity.
  split; intro H; apply bind_Ret_inv in H as ([] & Ha & H);
    injection H as <- <-; rewrite Ha; cbn [bind];
    (split; [reflexivity |]); unfold get_position, get_velocity;
    (split; [| split]).
  - intros [Hp | Hr];
      [rewrite Vector_assign_same_partitioner by exact Hp
      | rewrite Vector_assign_other_ranges by exact Hr]; reflexivity.
  - intros Hne Hsame. eexists. split; [reflexivity |]. cbn.
    split; [| split].
    + intro E. apply (f_equal position) in E. cbn in E.
      pose proof (@Vector_assign_keeps_partitioner _ _ _ Hsame) as K.
      rewrite E in K. congruence.
    + now apply Vector_assign_keeps_partitioner.
    + apply Vector_assign_values.
  - intros Hp; cbn [partitioner position].
    rewrite Hp, Nat.eqb_refl, Assert_passes; cbn; now rewrite Part_eta.
  - intros [Hp | Hr];
      [rewrite Vector_assign_same_partitioner by exact Hp
      | rewrite Vector_assign_other_ranges by exact Hr]; reflexivity.
  - intros Hne Hsame. eexists. split; [reflexivity |]. cbn.
    split; [| split].
    + intro E. apply (f_equal velocity) in E. cbn in E.
      pose proof (@Vector_assign_keeps_partitioner _ _ _ Hsame) as K.
      rewrite E in K. congruence.
    + now apply Vector_assign_keeps_partitioner.
    + apply Vector_assign_values.
  - intros Hp; cbn [partitioner velocity].
    rewrite Hp, Nat.eqb_refl, Assert_passes; cbn; now rewrite Part_eta.
Qed.

Lemma set_position_move_swaps_witness :
  set_position_move true example_part example_vector
  = Ret (example_moved_part, get_position example_part) /\
  set_position true same_ranges_always example_part example_vector
  = Ret example_moved_part /\
  set_position_move true example_moved_part (get_position example_part)
  = Ret (example_part, example_vector).
Proof.
  assert (H : set_position_move true example_part example_vector
              = Ret (example_moved_part, get_position example_part))
    by reflexivity.
  split; [exact H |].
  destruct (proj1 (set_position_move_swaps true same_ranges_always
                     example_part example_moved_part example_vector
                     (get_position example_part)) H)
    as (_ & Hcopy & _ & Hback).
  split; [apply Hcopy; left; reflexivity | apply Hback; reflexivity].
Defined.

(** In a build without assertions the two overloads part ways on a vector
    of another partitioner with the same local ranges: the swap stores the
    vector, the copy stores its entries on the partitioner of the part. *)
Example set_position_overloads_differ :
  set_position_move false example_part example_foreign_vector
  = Ret (mkPart (Some 1%nat) (Some 2%nat) 3%nat [] 4%nat [] 5%nat 6%nat
           7%nat [] example_foreign_vector
           (mkVector 4%nat 1%nat [1; 1; 1]%Q) [],
         get_position example_part) /\
  set_position false same_ranges_always example_part example_foreign_vector
  = Ret (mkPart (Some 1%nat) (Some 2%nat) 3%nat [] 4%nat [] 5%nat 6%nat
           7%nat [] (mkVector 4%nat 1%nat [1; 2; 3]%Q)
           (mkVector 4%nat 1%nat [1; 1; 1]%Q) []).
Proof. split; reflexivity. Qed.

(** Setting the position and setting the velocity commute, and of two
    positions set one after the other the second one stays. After both
    setters the position and the velocity have the entries of the
    arguments, and each is its argument when the vector it replaces was on
    the partitioner of the part. *)
Theorem setters_compose (debug : bool)
        (same_local_ranges : address -> address -> bool)
        (this : Part) (X V Y : LA.Vector) :
  LA.get_partitioner X = partitioner this ->
  LA.get_partitioner V = partitioner this ->
  LA.get_partitioner Y = partitioner this ->
  (p <- set_position debug same_local_ranges this X ;;
   set_velocity debug same_local_ranges p V)
  = (p <- set_velocity debug same_local_ranges this V ;;
     set_position debug same_local_ranges p X) /\
  (exists both,
      (p <- set_position debug same_local_ranges this X ;;
       set_velocity debug same_local_ranges p V) = Ret both /\
      LA.values (get_position both) = LA.values X /\
      LA.values (get_velocity both) = LA.values V /\
      (LA.get_partitioner (get_position this) = partitioner this ->
       get_position both = X) /\
      (LA.get_partitioner (get_velocity this) = partitioner this ->
       get_velocity both = V)) /\
  (p <- set_position debug same_local_ranges this X ;;
   set_position debug same_local_ranges p Y)
  = set_position debug same_local_ranges this Y.
Proof.
  intros HX HV HY. unfold set_position, set_velocity.
  rewrite HX, HV, HY, Nat.eqb_refl, !Assert_passes. cbn [bind partitioner].
  rewrite ?Nat.eqb_refl, ?Assert_passes. cbn [bind position velocity].
  split; [reflexivity |]. split.
  - eexists. split; [reflexivity |]. unfold get_position, get_velocity. cbn.
    split; [apply Vector_assign_values |].
    split; [apply Vector_assign_values |].
    split; intro Hp; apply Vector_assign_same_partitioner; congruence.
  - do 2 f_equal. unfold Vector_assign.
    destruct (Nat.eqb_spec (LA.get_partitioner (position this))
                           (LA.get_partitioner X)) as [E | E].
    + assert (EY : LA.get_partitioner (position this) = LA.get_partitioner Y)
        by congruence.
      assert (EXY : LA.get_partitioner X = LA.get_partitioner Y)
        by congruence.
      now rewrite EXY, EY, !Nat.eqb_refl.
    + assert (EY : LA.get_partitioner (position this) <> LA.get_partitioner Y)
        by congruence.
      apply Nat.eqb_neq in EY as EYb.
      replace (LA.get_partitioner Y) with (LA.get_partitioner X) by congruence.
      destruct (same_local_ranges (LA.get_partitioner (position this))
                  (LA.get_partitioner X)) eqn:Es; cbn.
      * apply Nat.eqb_neq in E as Eb. now rewrite Eb, Es.
      * rewrite Nat.eqb_refl. apply Nat.eqb_neq in E as Eb.
        rewrite Eb. destruct X, Y; cbn in *; reflexivity.
Qed.

Lemma setters_compose_witness :
  (p <- set_position true same_ranges_always example_part example_vector ;;
   set_velocity true same_ranges_always p example_vector)
  = (p <- set_velocity true same_ranges_always example_part example_vector ;;
     set_position true same_ranges_always p example_vector).
Proof.
  exact (proj1 (@setters_compose true same_ranges_always example_part
                  example_vector example_vector example_vector
                  eq_refl eq_refl eq_refl)).
Defined.

(** A vector on another partitioner is refused by the four setters in a
    build with assertions. Without assertions the overload that swaps
    stores it as it is: the position is then on a partitioner that is not
    the one [get_partitioner] returns. The overload that copies stores its
    entries; on a part whose position was on its partitioner, the position
    stays there when the two partitioners give the same local ranges and
    becomes the argument when they do not. Every other member is as
    before. *)
Theorem setters_and_foreign_partitioner
        (same_local_ranges : address -> address -> bool)
        (this : Part) (X : LA.Vector) :
  LA.get_partitioner X <> partitioner this ->
  set_position true same_local_ranges this X
  = Abort partitioners_must_be_equal /\
  set_position_move true this X = Abort partitioners_must_be_equal /\
  set_velocity true same_local_ranges this X
  = Abort partitioners_must_be_equal /\
  set_velocity_move true this X = Abort partitioners_must_be_equal /\
  (exists this',
      set_position_move false this X = Ret (this', get_position this) /\
      get_position this' = X /\
      LA.get_partitioner (get_position this')
      <> Mechanics.get_partitioner this' /\
      unchanged_but_position false this this') /\
  (exists this',
      set_position false same_local_ranges this X = Ret this' /\
      LA.values (get_position this') = LA.values X /\
      unchanged_but_position false this this' /\
      (LA.get_partitioner (get_position this) = partitioner this ->
       if same_local_ranges (partitioner this) (LA.get_partitioner X)
       then LA.get_partitioner (get_position this')
            = Mechanics.get_partitioner this'
       else get_position this' = X)).
Proof.
  intro H. apply Nat.eqb_neq in H as Hb.
  unfold set_position, set_position_move, set_velocity, set_velocity_move.
  rewrite Hb. cbn [Assert bind].
  repeat (split; [reflexivity |]). split.
  - eexists. split; [reflexivity |]. split; [reflexivity |].
    split; [exact H |]. repeat split.
  - eexists. split; [reflexivity |].
    split; [apply Vector_assign_values |]. split; [repeat split |].
    unfold get_position, Mechanics.get_partitioner. cbn. intro Hp.
    rewrite <- Hp.
    destruct (same_local_ranges (LA.get_partitioner (position this))
                (LA.get_partitioner X)) eqn:Es.
    + now apply Vector_assign_keeps_partitioner.
    + now apply Vector_assign_other_ranges.
Qed.

Lemma setters_and_foreign_partitioner_witness :
  set_position true same_ranges_always example_part example_foreign_vector
  = Abort partitioners_must_be_equal /\
  exists this',
    set_position_move false example_part example_foreign_vector
    = Ret (this', get_position example_part) /\
    get_position this' = example_foreign_vector /\
    LA.get_partitioner (get_position this')
    <> Mechanics.get_partitioner this' /\
    unchanged_but_position false example_part this'.
Proof.
  assert (Hforeign : LA.get_partitioner example_foreign_vector
                     <> partitioner example_part) by discriminate.
  destruct (@setters_and_foreign_partitioner same_ranges_always example_part
              example_foreign_vector Hforeign)
    as (Hcopy & _ & _ & _ & Hswap & _).
  split; [exact Hcopy | exact Hswap].
Defined.

(** ** [FiberNetwork::get_fibers]: outside the table *)

(** With no fiber column [get_fibers] returns an empty vector for every
    cell. With at least one column, a cell whose index is no row of the
    table makes a build with assertions abort, and the behaviour is
    undefined without them; such is every cell below the local range, whose
    index wraps around. *)
Theorem get_fibers_outside_the_table
        (bits : N) (this : FiberNetwork) (heap : Heap) (cell : active_cell) :
  let c := cell_index_of bits this cell in
  (size_1 (fibers this) = 0%nat ->
   forall debug,
     get_fibers debug bits this heap cell
     = Ret (this, heap ++ [[]], List.length heap)) /\
  ((0 < size_1 (fibers this))%nat ->
   (Z.of_nat (n_rows (fibers this)) <= c)%Z ->
   get_fibers true bits this heap cell = Abort ExcIndexRange /\
   get_fibers false bits this heap cell = Undefined) /\
  ((local_processor_min_cell_index this - 2 ^ Z.of_N bits
    <= global_active_cell_index cell < local_processor_min_cell_index this)%Z ->
   c = (global_active_cell_index cell - local_processor_min_cell_index this
        + 2 ^ Z.of_N bits)%Z).
Proof.
  intro c. unfold get_fibers. fold c. split; [| split].
  - intros -> debug. reflexivity.
  - intros Hcols Hrows.
    destruct (size_1 (fibers this)) as [| n]; [lia |].
    cbn [push_fibers]. unfold table_at.
    assert (Hb : (c <? Z.of_nat (n_rows (fibers this)))%Z = false)
      by (apply Z.ltb_ge; exact Hrows).
    rewrite Hb. split; [reflexivity |].
    cbn [Assert bind AssertIndexRange]. reflexivity.
  - intro Hrange. unfold c, cell_index_of.
    assert (Hpos : (0 < 2 ^ Z.of_N bits)%Z) by (apply Z.pow_pos_nonneg; lia).
    rewrite <- (Z.mod_add _ 1 (2 ^ Z.of_N bits)) by lia.
    rewrite Z.mod_small by lia. lia.
Qed.

Lemma get_fibers_outside_the_table_witness :
  get_fibers true 32 example_network [] (mk_active_cell 12)
  = Abort ExcIndexRange /\
  get_fibers false 32 example_network [] (mk_active_cell 12) = Undefined.
Proof.
  apply (proj1 (proj2 (@get_fibers_outside_the_table 32%N example_network []
                         (mk_active_cell 12)))).
  - cbn. lia.
  - vm_compute. discriminate.
Defined.
